(** * SZSE level-3 event merge: a shallow embedding of
      [scripts/merge_szse_l3.py] and [scripts/merge_szse_l3_polars.py].

    The development follows the layout of the scripts: the Python
    primitives the code relies on ([int], [str.split], [readline],
    [heapq]), the k-way merge of one batch ([parse_key], [merge_batch]),
    the multi-round reduction ([multi_pass_merge]), the per-source
    normalizers ([write_order_events], [write_tick_events]) and the
    driver ([build_event_files], [main]).

    Text is modelled as [string] (a sequence of 8-bit characters), files
    as a finite map from paths to their text, Python integers as [Z],
    and raised exceptions as values of [exn]. *)

From Stdlib Require Import ZArith Lia Ascii String.
From stdpp Require Import base option list strings gmap pretty sorting.

Local Open Scope Z_scope.

(** ** Exceptions raised by the scripts and by the builtins they call *)

Inductive exn : Type :=
  (** [int(s)]: "invalid literal for int() with base 10: {s!r}" *)
  | ValueError_int (literal : string)
  (** [int(None)], a cell the CSV reader filled with its rest value *)
  | TypeError_int_None
  (** [row[k]] on a row that has no column [k] *)
  | KeyError (k : string)
  (** [parse_key]: "Invalid line: {line!r}" *)
  | ValueError_invalid_line (line : string)
  (** [range(0, n, 0)] *)
  | ValueError_range_step
  (** [open(path)] or [shutil.move(path, _)] on a missing file *)
  | FileNotFoundError (path : string)
  (** [merge_batch]: "Header mismatch in {path}" *)
  | RuntimeError_header_mismatch (path : string)
  (** "Multiple ChannelNo values in {inner_path}: {channel_seen} vs {channel}" *)
  | RuntimeError_multiple_channel (inner_path : string) (channel_seen channel : Z)
  (** "Order stream not monotonic: {inner_path} seq {seq} < {prev_seq}" *)
  | RuntimeError_order_not_monotonic (inner_path : string) (seq prev_seq : Z)
  (** "Tick stream not monotonic: {inner_path} seq {seq} < {prev_seq}" *)
  | RuntimeError_tick_not_monotonic (inner_path : string) (seq prev_seq : Z)
  (** "7z list failed: ..." / "7z extract failed for {inner_path}: ..." *)
  | RuntimeError_7z (what : string)
  (** "kind must be order or tick" *)
  | ValueError_kind
  (** "No event files produced; check filters or input archives." *)
  | RuntimeError_no_event_files
  (** "Use either --out or --out-dir, not both." *)
  | RuntimeError_out_and_out_dir
  (** "Specify --out (single file) or --out-dir (per-channel)." *)
  | RuntimeError_no_output_mode.

Inductive result (A : Type) : Type :=
  | Ok (a : A)
  | Raise (e : exn).
Arguments Ok {A} a.
Arguments Raise {A} e.

Definition bind {A B} (r : result A) (k : A → result B) : result B :=
  match r with
  | Ok a => k a
  | Raise e => Raise e
  end.

Notation "x ←! r ; k" := (bind r (λ x, k))
  (at level 100, r at next level, k at level 200, right associativity).

(** ** Python builtins *)

Module Py.

Definition LF : ascii := "010"%char.
Definition CR : ascii := "013"%char.

(** ASCII white space, as skipped by [int] around the digits. *)
Definition is_space (c : ascii) : bool :=
  let n := nat_of_ascii c in
  orb (Nat.eqb n 32) (andb (Nat.leb 9 n) (Nat.leb n 13)).

Definition digit (c : ascii) : option Z :=
  let n := nat_of_ascii c in
  if andb (Nat.leb 48 n) (Nat.leb n 57) then Some (Z.of_nat n - 48) else None.

Fixpoint lstrip (s : string) : string :=
  match s with
  | String c s' => if is_space c then lstrip s' else s
  | EmptyString => EmptyString
  end.

Fixpoint all_space (s : string) : bool :=
  match s with
  | String c s' => andb (is_space c) (all_space s')
  | EmptyString => true
  end.

(** Digits of a decimal literal; a single underscore may separate two
    digits.  Returns the value read and the unread rest. *)
Fixpoint int_digits (acc : Z) (s : string) : Z * string :=
  match s with
  | String c s' =>
      match digit c with
      | Some d => int_digits (10 * acc + d) s'
      | None =>
          if Ascii.eqb c "_" then
            match s' with
            | String c' s'' =>
                match digit c' with
                | Some d => int_digits (10 * acc + d) s''
                | None => (acc, s)
                end
            | EmptyString => (acc, s)
            end
          else (acc, s)
      end
  | EmptyString => (acc, EmptyString)
  end.

Definition int_unsigned (s : string) : option Z :=
  match s with
  | String c _ =>
      match digit c with
      | Some _ =>
          let '(v, rest) := int_digits 0 s in
          if all_space rest then Some v else None
      | None => None
      end
  | EmptyString => None
  end.

(** [int(s)] for a [str] in base 10: optional white space, an optional
    sign, digits, optional white space. *)
Definition int_opt (s : string) : option Z :=
  match lstrip s with
  | String "+" s' => int_unsigned s'
  | String "-" s' => Z.opp <$> int_unsigned s'
  | s' => int_unsigned s'
  end.

Definition int (s : string) : result Z :=
  match int_opt s with
  | Some z => Ok z
  | None => Raise (ValueError_int s)
  end.

(** [s.split(sep, maxsplit)] for a one-character separator. *)
Fixpoint split (sep : ascii) (maxsplit : nat) (s : string) : list string :=
  match s with
  | EmptyString => [EmptyString]
  | String c s' =>
      if Ascii.eqb c sep then
        match maxsplit with
        | O => [s]
        | S m => EmptyString :: split sep m s'
        end
      else
        match split sep maxsplit s' with
        | p :: ps => String c p :: ps
        | [] => [String c EmptyString]
        end
  end.

(** [f.readline()] on a text file opened with an empty [newline]: the next
    line with its terminator left as it is ([\n], [\r\n] or a lone
    [\r]), and the text that remains unread.  At the end of the file
    the line is empty. *)
Fixpoint readline (s : string) : string * string :=
  match s with
  | EmptyString => (EmptyString, EmptyString)
  | String c rest =>
      if Ascii.eqb c LF then (String c EmptyString, rest)
      else if Ascii.eqb c CR then
        match rest with
        | String c' rest' =>
            if Ascii.eqb c' LF then (String c (String c' EmptyString), rest')
            else (String c EmptyString, rest)
        | EmptyString => (String c EmptyString, rest)
        end
      else let '(l, r) := readline rest in (String c l, r)
  end.

(** Python truthiness of a [str]. *)
Definition truthy (s : string) : bool :=
  match s with
  | EmptyString => false
  | _ => true
  end.

End Py.

(** ** [heapq]

    The standard-library priority queue is taken at its contract: a heap
    is a bag of items, [heappush] adds one, [heappop] removes and returns
    the smallest.  Items are the tuples [(key, idx, line)] the merge
    pushes, compared the way Python compares tuples. *)

Module Heapq.

Abbreviation entry := ((Z * Z) * nat * string)%type.

Definition entry_key (e : entry) : Z * Z := e.1.1.
Definition entry_idx (e : entry) : nat := e.1.2.
Definition entry_line (e : entry) : string := e.2.

(** [a < b] on pairs of integers. *)
Definition key_ltb (a b : Z * Z) : bool :=
  (a.1 <? b.1) || ((a.1 =? b.1) && (a.2 <? b.2)).

(** [a < b] on heap items: the first component that differs decides. *)
Definition entry_ltb (a b : entry) : bool :=
  if key_ltb (entry_key a) (entry_key b) then true
  else if key_ltb (entry_key b) (entry_key a) then false
  else if (entry_idx a <? entry_idx b)%nat then true
  else if (entry_idx b <? entry_idx a)%nat then false
  else String.ltb (entry_line a) (entry_line b).

Definition heappush (heap : list entry) (item : entry) : list entry :=
  item :: heap.

(** The smallest item of [m :: heap] and the items that stay. *)
Fixpoint pop_min (m : entry) (heap : list entry) : entry * list entry :=
  match heap with
  | [] => (m, [])
  | x :: heap' =>
      if entry_ltb x m
      then let '(r, rest) := pop_min x heap' in (r, m :: rest)
      else let '(r, rest) := pop_min m heap' in (r, x :: rest)
  end.

Definition heappop (heap : list entry) : option (entry * list entry) :=
  match heap with
  | [] => None
  | m :: heap' => Some (pop_min m heap')
  end.

End Heapq.

(** ** The file system

    A map from paths to the text of the file stored there.  An open
    input file is the text that is still unread. *)

Abbreviation filesystem := (gmap string string).

(** [shutil.move(src, dst)] between two file paths. *)
Definition shutil_move (src dst : string) (fs : filesystem) : filesystem * option exn :=
  match fs !! src with
  | None => (fs, Some (FileNotFoundError src))
  | Some text => (<[dst := text]> (delete src fs), None)
  end.

(** [range(0, stop, step)] for a positive step. *)
Fixpoint range_from (fuel i stop step : nat) : list nat :=
  match fuel with
  | O => []
  | S fuel' => if (i <? stop)%nat then i :: range_from fuel' (i + step) stop step else []
  end.

Definition py_range (stop : nat) (step : Z) : result (list nat) :=
  if step =? 0 then Raise ValueError_range_step
  else if step <? 0 then Ok []
  else Ok (range_from stop 0 stop (Z.to_nat step)).

(** ** [merge_szse_l3.py]: the k-way merge *)

Import Heapq.

(** [parse_key(line)] *)
Definition parse_key (line : string) : result (Z * Z) :=
  match Py.split "," 2 line with
  | p0 :: p1 :: _ =>
      channel ←! Py.int p0;
      seq ←! Py.int p1;
      Ok (channel, seq)
  | _ => Raise (ValueError_invalid_line line)
  end.

(** The state built by the first loop of [merge_batch]. *)
Record opened : Type := Opened {
  files : list string;
  heap : list entry;
  header : option string
}.

(** First loop of [merge_batch]: [for idx, path in enumerate(input_paths)]. *)
Fixpoint open_inputs (fs : filesystem) (idx : nat) (input_paths : list string)
    (st : opened) : result opened :=
  match input_paths with
  | [] => Ok st
  | path :: more =>
      match fs !! path with
      | None => Raise (FileNotFoundError path)
      | Some text =>
          let '(file_header, rest) := Py.readline text in
          hdr ←! match header st with
                 | None => Ok file_header
                 | Some h =>
                     if decide (file_header = h) then Ok h
                     else Raise (RuntimeError_header_mismatch path)
                 end;
          let '(line, rest') := Py.readline rest in
          if Py.truthy line then
            key ←! parse_key line;
            open_inputs fs (S idx) more
              (Opened (files st ++ [rest']) (heappush (heap st) (key, idx, line)) (Some hdr))
          else
            open_inputs fs (S idx) more
              (Opened (files st ++ [rest']) (heap st) (Some hdr))
      end
  end.

(** Second loop of [merge_batch]: [while heap].  The result is the text
    written from here on and the exception that stopped the loop, if
    any; [None] when [fuel] iterations were not enough. *)
Fixpoint drain (fuel : nat) (files : list string) (heap : list entry)
    : option (string * option exn) :=
  match heappop heap with
  | None => Some (EmptyString, None)
  | Some ((_, idx, line), heap') =>
      match fuel with
      | O => None
      | S fuel' =>
          match files !! idx with
          | None => None
          | Some text =>
              let '(next_line, rest) := Py.readline text in
              let files' := <[idx := rest]> files in
              if Py.truthy next_line then
                match parse_key next_line with
                | Raise e => Some (line, Some e)
                | Ok key =>
                    '(out, err) ← drain fuel' files' (heappush heap' (key, idx, next_line));
                    Some (line +:+ out, err)
                end
              else
                '(out, err) ← drain fuel' files' heap';
                Some (line +:+ out, err)
          end
      end
  end.

(** Iterations that always suffice: each one removes an item from the
    heap, and an item is pushed only after a character has been read. *)
Definition drain_fuel (files : list string) (heap : list entry) : nat :=
  length heap + sum_list (String.length <$> files).

(** [merge_batch(input_paths, output_path)]: the file system afterwards
    and the exception raised, if any. *)
Definition merge_batch (input_paths : list string) (output_path : string)
    (fs : filesystem) : option (filesystem * option exn) :=
  match open_inputs fs 0 input_paths (Opened [] [] None) with
  | Raise e => Some (fs, Some e)
  | Ok st =>
      match header st with
      | None => Some (fs, None)
      | Some h =>
          '(out, err) ← drain (drain_fuel (files st) (heap st)) (files st) (heap st);
          Some (<[output_path := h +:+ out]> fs, err)
      end
  end.

(** [f"{output_path}.merge_{round_id}_{i // max_open}.tmp"] *)
Definition merged_path (output_path : string) (round_id batch_no : nat) : string :=
  output_path +:+ ".merge_" +:+ pretty round_id +:+ "_" +:+ pretty batch_no +:+ ".tmp".

(** One round of [multi_pass_merge]: the body of the [for i in range]
    loop, over the start offsets [starts]. *)
Fixpoint merge_round (output_path : string) (round_id max_open : nat)
    (paths : list string) (starts : list nat) (next_paths : list string)
    (fs : filesystem) : option (filesystem * result (list string)) :=
  match starts with
  | [] => Some (fs, Ok next_paths)
  | i :: more =>
      let batch := take max_open (drop i paths) in
      match batch with
      | [p] => merge_round output_path round_id max_open paths more (next_paths ++ [p]) fs
      | _ =>
          let merged := merged_path output_path round_id (i / max_open)%nat in
          '(fs', err) ← merge_batch batch merged fs;
          match err with
          | Some e => Some (fs', Raise e)
          | None =>
              merge_round output_path round_id max_open paths more (next_paths ++ [merged]) fs'
          end
      end
  end.

(** The [while len(paths) > 1] loop; [None] when [fuel] rounds were not
    enough. *)
Fixpoint merge_rounds (fuel : nat) (output_path : string) (max_open : Z)
    (round_id : nat) (paths : list string) (fs : filesystem)
    : option (filesystem * result (list string)) :=
  if (length paths <=? 1)%nat then Some (fs, Ok paths)
  else
    match fuel with
    | O => None
    | S fuel' =>
        match py_range (length paths) max_open with
        | Raise e => Some (fs, Raise e)
        | Ok starts =>
            '(fs', r) ← merge_round output_path round_id (Z.to_nat max_open) paths starts [] fs;
            match r with
            | Raise e => Some (fs', Raise e)
            | Ok next_paths => merge_rounds fuel' output_path max_open (S round_id) next_paths fs'
            end
        end
    end.

(** [multi_pass_merge(input_paths, output_path, max_open)] *)
Definition multi_pass_merge (fuel : nat) (input_paths : list string)
    (output_path : string) (max_open : Z) (fs : filesystem)
    : option (filesystem * option exn) :=
  '(fs', r) ← merge_rounds fuel output_path max_open 0 input_paths fs;
  match r with
  | Raise e => Some (fs', Some e)
  | Ok [] => Some (fs', None)
  | Ok (p :: _) => Some (shutil_move p output_path fs')
  end.

(** ** [merge_szse_l3.py]: the normalizers *)

(** A row of [csv.DictReader]: the cells by column name; a cell the
    reader filled with its rest value holds [None]. *)
Abbreviation row := (gmap string (option string)).

(** A value handed to [csv.writer.writerow]. *)
Inductive cell : Type :=
  | CInt (z : Z)
  | CStr (s : string)
  | CNone.

Definition cell_of (v : option string) : cell :=
  match v with
  | Some s => CStr s
  | None => CNone
  end.

(** What the scripts take from the operating system and from libraries:
    the [7z] archives, [csv.writer], [os.path], [re], [tempfile] and
    [shutil.rmtree]. *)
Record os_env : Type := OsEnv {
  (** [list_csv_paths(archive_path)] *)
  list_csv_paths : string → result (list string);
  (** [stream_csv_rows(archive_path, inner_path)]: the rows it yields and
      the exception it raises once they are exhausted, if [7z] failed *)
  stream_csv_rows : string → string → list row * option exn;
  (** the line [writer.writerow(cells)] writes *)
  writerow : list cell → string;
  (** [os.path.splitext(os.path.basename(inner_path))[0]] *)
  symbol_of : string → string;
  (** [os.path.join(a, b)] *)
  path_join : string → string → string;
  (** [re.compile(pattern).search(s)] finds a match *)
  re_search : string → string → bool;
  (** [tempfile.mkdtemp(prefix="szse_merge_")] *)
  mkdtemp : filesystem → string;
  (** [shutil.rmtree(root, ignore_errors=True)] *)
  rmtree : string → filesystem → filesystem
}.

Definition EVENT_HEADER : list string :=
  ["ChannelNo"; "ApplSeqNum"; "Event"; "Symbol"; "OrderID"; "BidOrderID";
   "OfferOrderID"; "Side"; "Price"; "Qty"; "Amt"; "OrdType"; "ExecType";
   "TransactTime"; "SendingTime"; "Source"].

(** [row[k]] *)
Definition getitem (r : row) (k : string) : result (option string) :=
  match r !! k with
  | Some v => Ok v
  | None => Raise (KeyError k)
  end.

(** [int(row[k])] *)
Definition int_item (r : row) (k : string) : result Z :=
  v ←! getitem r k;
  match v with
  | Some s => Py.int s
  | None => Raise TypeError_int_None
  end.

(** The running state of the validation of one source. *)
Record validator : Type := Validator {
  channel_seen : option Z;
  prev_seq : option Z;
  row_count : nat
}.

(** The part of the loop body the two normalizers share: the channel
    filter, then the channel check, then the sequence check.  [None]
    stands for [continue]; otherwise the channel, the sequence number and
    the updated [channel_seen]. *)
Definition validate_row (not_monotonic : Z → Z → exn) (inner_path : string)
    (only_channel : option Z) (v : validator) (r : row)
    : result (option (Z * Z * Z)) :=
  channel ←! int_item r "ChannelNo";
  if match only_channel with
     | Some c => negb (channel =? c)
     | None => false
     end
  then Ok None
  else
    seen ←! match channel_seen v with
            | None => Ok channel
            | Some c =>
                if negb (c =? channel)
                then Raise (RuntimeError_multiple_channel inner_path c channel)
                else Ok c
            end;
    seq ←! int_item r "ApplSeqNum";
    match prev_seq v with
    | Some p =>
        if seq <? p then Raise (not_monotonic seq p)
        else Ok (Some (channel, seq, seen))
    | None => Ok (Some (channel, seq, seen))
    end.

(** Loop body of [write_order_events]: the cells of the row it writes. *)
Definition order_row (inner_path symbol : string) (only_channel : option Z)
    (v : validator) (r : row) : result (option (validator * list cell)) :=
  checked ←! validate_row (RuntimeError_order_not_monotonic inner_path)
               inner_path only_channel v r;
  match checked with
  | None => Ok None
  | Some (channel, seq, seen) =>
      side ←! getitem r "Side";
      price ←! getitem r "Price";
      qty ←! getitem r "OrderQty";
      ord_type ←! getitem r "OrdType";
      transact_time ←! getitem r "TransactTime";
      sending_time ←! getitem r "SendingTime";
      Ok (Some (Validator (Some seen) (Some seq) (S (row_count v)),
                [CInt channel; CInt seq; CStr "ORDER"; CStr symbol; CInt seq;
                 CStr EmptyString; CStr EmptyString; cell_of side; cell_of price; cell_of qty;
                 CStr EmptyString; cell_of ord_type; CStr EmptyString; cell_of transact_time;
                 cell_of sending_time; CStr "order"]))
  end.

(** The event kind of a tick row. *)
Definition tick_event (exec_type : option string) : string :=
  if decide (exec_type = Some "F") then "TRADE"
  else if decide (exec_type = Some "4") then "CANCEL"
  else "TICK".

(** Loop body of [write_tick_events]. *)
Definition tick_row (inner_path symbol : string) (only_channel : option Z)
    (v : validator) (r : row) : result (option (validator * list cell)) :=
  checked ←! validate_row (RuntimeError_tick_not_monotonic inner_path)
               inner_path only_channel v r;
  match checked with
  | None => Ok None
  | Some (channel, seq, seen) =>
      exec_type ←! getitem r "ExecType";
      let event := tick_event exec_type in
      bid ←! getitem r "BidApplSeqNum";
      offer ←! getitem r "OfferApplSeqNum";
      price ←! getitem r "Price";
      qty ←! getitem r "Qty";
      amt ←! getitem r "Amt";
      transact_time ←! getitem r "TransactTime";
      sending_time ←! getitem r "SendingTime";
      Ok (Some (Validator (Some seen) (Some seq) (S (row_count v)),
                [CInt channel; CInt seq; CStr event; CStr symbol; CStr EmptyString;
                 cell_of bid; cell_of offer; CStr EmptyString; cell_of price; cell_of qty;
                 cell_of amt; CStr EmptyString; cell_of exec_type; cell_of transact_time;
                 cell_of sending_time; CStr "tick"]))
  end.

(** Python truthiness of an optional [str] argument. *)
Definition given (a : option string) : bool :=
  match a with
  | Some s => Py.truthy s
  | None => false
  end.

Section Normalizers.
Context (E : os_env).

(** The [for row in stream_csv_rows(...)] loop: the text written, the
    state at the end, and the exception that stopped it, if any. *)
Fixpoint write_rows (body : validator → row → result (option (validator * list cell)))
    (rows : list row) (v : validator) : string * validator * option exn :=
  match rows with
  | [] => (EmptyString, v, None)
  | r :: rest =>
      match body v r with
      | Raise e => (EmptyString, v, Some e)
      | Ok None => write_rows body rest v
      | Ok (Some (v', cells)) =>
          let '(text, v'', err) := write_rows body rest v' in
          (writerow E cells +:+ text, v'', err)
      end
  end.

(** What is common to [write_order_events] and [write_tick_events]: the
    file is created with the header row, the rows are written, and when
    none was written the file is removed.  A file that an exception
    interrupts keeps what was written. *)
Definition write_events (body : validator → row → result (option (validator * list cell)))
    (archive_path inner_path out_path : string) (fs : filesystem)
    : filesystem * result (option Z) :=
  let '(rows, failure) := stream_csv_rows E archive_path inner_path in
  let '(text, v, err) := write_rows body rows (Validator None None 0) in
  let fs' := <[out_path := writerow E (CStr <$> EVENT_HEADER) +:+ text]> fs in
  match err, failure with
  | Some e, _ => (fs', Raise e)
  | None, Some e => (fs', Raise e)
  | None, None =>
      if (row_count v =? 0)%nat then (delete out_path fs', Ok None)
      else (fs', Ok (channel_seen v))
  end.

(** [write_order_events(archive_path, inner_path, out_path, only_channel)] *)
Definition write_order_events (archive_path inner_path out_path : string)
    (only_channel : option Z) (fs : filesystem) : filesystem * result (option Z) :=
  write_events (order_row inner_path (symbol_of E inner_path) only_channel)
    archive_path inner_path out_path fs.

(** [write_tick_events(archive_path, inner_path, out_path, only_channel)] *)
Definition write_tick_events (archive_path inner_path out_path : string)
    (only_channel : option Z) (fs : filesystem) : filesystem * result (option Z) :=
  write_events (tick_row inner_path (symbol_of E inner_path) only_channel)
    archive_path inner_path out_path fs.

(** ** [merge_szse_l3.py]: the driver *)

(** [os.path.join(out_dir, f"{kind}_{symbol}.events.csv")] *)
Definition event_path (out_dir kind symbol : string) : string :=
  path_join E out_dir (kind +:+ "_" +:+ symbol +:+ ".events.csv").

(** The [for inner_path in list_csv_paths(archive_path)] loop of
    [build_event_files]. *)
Fixpoint build_loop (archive_path kind out_dir : string) (limit_files : option Z)
    (symbol_regex : option string) (only_channel : option Z)
    (inner_paths : list string) (event_paths : list (Z * string)) (count : Z)
    (fs : filesystem) : filesystem * result (list (Z * string)) :=
  match inner_paths with
  | [] => (fs, Ok event_paths)
  | inner_path :: more =>
      let symbol := symbol_of E inner_path in
      if match symbol_regex with
         | Some pattern => Py.truthy pattern && negb (re_search E pattern symbol)
         | None => false
         end
      then build_loop archive_path kind out_dir limit_files symbol_regex only_channel
             more event_paths count fs
      else
        let out_path := event_path out_dir kind symbol in
        let '(fs', r) :=
          if String.eqb kind "order"
          then write_order_events archive_path inner_path out_path only_channel fs
          else write_tick_events archive_path inner_path out_path only_channel fs in
        match r with
        | Raise e => (fs', Raise e)
        | Ok None =>
            build_loop archive_path kind out_dir limit_files symbol_regex only_channel
              more event_paths count fs'
        | Ok (Some channel) =>
            let event_paths' := event_paths ++ [(channel, out_path)] in
            let count' := count + 1 in
            if match limit_files with
               | Some limit => limit <=? count'
               | None => false
               end
            then (fs', Ok event_paths')
            else build_loop archive_path kind out_dir limit_files symbol_regex
                   only_channel more event_paths' count' fs'
        end
  end.

(** [build_event_files(archive_path, kind, out_dir, limit_files,
    symbol_regex, only_channel)] *)
Definition build_event_files (archive_path kind out_dir : string)
    (limit_files : option Z) (symbol_regex : option string) (only_channel : option Z)
    (fs : filesystem) : filesystem * result (list (Z * string)) :=
  if negb (String.eqb kind "order" || String.eqb kind "tick")
  then (fs, Raise ValueError_kind)
  else
    match list_csv_paths E archive_path with
    | Raise e => (fs, Raise e)
    | Ok inner_paths =>
        build_loop archive_path kind out_dir limit_files symbol_regex only_channel
          inner_paths [] 0 fs
    end.

(** The command line after [parser.parse_args()]. *)
Record args : Type := Args {
  order_archive : string;
  tick_archive : string;
  out : option string;
  out_dir : option string;
  work_dir : option string;
  keep_temp : bool;
  max_open : Z;
  limit_files : option Z;
  symbol_regex : option string;
  channel : option Z
}.

(** [per_channel.setdefault(channel, []).append(path)] on a dictionary
    kept in insertion order. *)
Fixpoint setdefault_append (channel : Z) (path : string)
    (per_channel : list (Z * list string)) : list (Z * list string) :=
  match per_channel with
  | [] => [(channel, [path])]
  | (c, paths) :: more =>
      if c =? channel then (c, paths ++ [path]) :: more
      else (c, paths) :: setdefault_append channel path more
  end.

(** [for channel, paths in per_channel.items(): multi_pass_merge(...)] *)
Fixpoint merge_groups (dir : string) (budget : Z)
    (per_channel : list (Z * list string)) (fs : filesystem)
    : option (filesystem * option exn) :=
  match per_channel with
  | [] => Some (fs, None)
  | (channel, paths) :: more =>
      let out_path := path_join E dir ("channel_" +:+ pretty channel +:+ ".csv") in
      '(fs', err) ← multi_pass_merge (length paths) paths out_path budget fs;
      match err with
      | Some e => Some (fs', Some e)
      | None => merge_groups dir budget more fs'
      end
  end.

(** The [try] block of [main]. *)
Definition main_body (a : args) (temp_root : string) (fs : filesystem)
    : option (filesystem * option exn) :=
  let order_dir := path_join E temp_root "order_events" in
  let tick_dir := path_join E temp_root "tick_events" in
  let '(fs1, order_paths) :=
    build_event_files (order_archive a) "order" order_dir (limit_files a)
      (symbol_regex a) (channel a) fs in
  match order_paths with
  | Raise e => Some (fs1, Some e)
  | Ok order_paths =>
      let '(fs2, tick_paths) :=
        build_event_files (tick_archive a) "tick" tick_dir (limit_files a)
          (symbol_regex a) (channel a) fs1 in
      match tick_paths with
      | Raise e => Some (fs2, Some e)
      | Ok tick_paths =>
          let all_paths := order_paths ++ tick_paths in
          match all_paths with
          | [] => Some (fs2, Some RuntimeError_no_event_files)
          | _ =>
              if given (out_dir a) && given (out a)
              then Some (fs2, Some RuntimeError_out_and_out_dir)
              else if negb (given (out_dir a)) && negb (given (out a))
              then Some (fs2, Some RuntimeError_no_output_mode)
              else
                let budget := Z.max 2 (max_open a) in
                if given (out_dir a) then
                  merge_groups (default EmptyString (out_dir a)) budget
                    (foldl (λ per_channel cp, setdefault_append cp.1 cp.2 per_channel)
                       [] all_paths) fs2
                else
                  multi_pass_merge (length all_paths) (snd <$> all_paths)
                    (default EmptyString (out a)) budget fs2
          end
      end
  end.

(** [main()]: the [try] block and its [finally].  Directories are not
    modelled: [os.makedirs] is taken to succeed. *)
Definition main (a : args) (fs : filesystem) : option (filesystem * option exn) :=
  let '(temp_root, cleanup) :=
    match work_dir a with
    | None => (mkdtemp E fs, negb (keep_temp a))
    | Some w => (w, false)
    end in
  '(fs', err) ← main_body a temp_root fs;
  Some (if cleanup then rmtree E temp_root fs' else fs', err).

End Normalizers.

(** ** [merge_szse_l3_polars.py] *)

Module Polars.

(** [pl.col(name) == literal] on a nullable string column. *)
Definition col_eq (value : option string) (literal : string) : option bool :=
  (λ s, bool_decide (s = literal)) <$> value.

(** [pl.when(cond).then(a).otherwise(b)]: a null condition selects
    [otherwise]. *)
Definition when_then_otherwise {A} (cond : option bool) (a b : A) : A :=
  match cond with
  | Some true => a
  | _ => b
  end.

(** [event_expr] of [build_tick_lazy], on the [ExecType] of one row. *)
Definition event_expr (exec_type : option string) : string :=
  when_then_otherwise (col_eq exec_type "F") "TRADE"
    (when_then_otherwise (col_eq exec_type "4") "CANCEL" "TICK").

(** The two statements that follow [parser.parse_args()] in [main]. *)
Definition check_output_mode (out out_dir : option string) : result unit :=
  if given out_dir && given out then Raise RuntimeError_out_and_out_dir
  else if negb (given out_dir) && negb (given out) then Raise RuntimeError_no_output_mode
  else Ok tt.

End Polars.

(** ** Vocabulary of the statements about event files *)

(** The text of a file written line by line. *)
Fixpoint join (ls : list string) : string :=
  match ls with
  | [] => EmptyString
  | l :: ls' => l +:+ join ls'
  end.

(** A line as the CSV writer ends it: no line break inside, and [\n] or
    [\r\n] at the end. *)
Fixpoint complete_line (l : string) : bool :=
  match l with
  | EmptyString => false
  | String c rest =>
      if Ascii.eqb c Py.LF then bool_decide (rest = EmptyString)
      else if Ascii.eqb c Py.CR then bool_decide (rest = String Py.LF EmptyString)
      else complete_line rest
  end.

(** All the lines [readline] returns before the end of the file. *)
Fixpoint readlines_fuel (fuel : nat) (text : string) : list string :=
  match fuel with
  | O => []
  | S fuel' =>
      let '(l, rest) := Py.readline text in
      if Py.truthy l then l :: readlines_fuel fuel' rest else []
  end.

Definition readlines (text : string) : list string :=
  readlines_fuel (String.length text) text.

(** The header line and the data lines of a file. *)
Definition header_line (text : string) : string := (Py.readline text).1.
Definition data_lines (text : string) : list string := tail (readlines text).

Definition parses (line : string) : bool :=
  match parse_key line with
  | Ok _ => true
  | Raise _ => false
  end.

(** The key of a line that parses. *)
Definition key_of (line : string) : Z * Z :=
  match parse_key line with
  | Ok k => k
  | Raise _ => (0, 0)
  end.

(** [(c1, s1) <= (c2, s2)] lexicographically. *)
Definition key_le (a b : Z * Z) : Prop :=
  a.1 < b.1 ∨ (a.1 = b.1 ∧ a.2 ≤ b.2).

Definition line_le (l1 l2 : string) : Prop := key_le (key_of l1) (key_of l2).

(** Adjacent data lines are in key order. *)
Fixpoint sorted_lines (ls : list string) : bool :=
  match ls with
  | [] => true
  | l1 :: ls' =>
      match ls' with
      | [] => true
      | l2 :: _ => negb (key_ltb (key_of l2) (key_of l1)) && sorted_lines ls'
      end
  end.

(** An event file: a header line and data lines, all complete, every
    data line with a key. *)
Definition event_file (text : string) : bool :=
  match readlines text with
  | [] => false
  | h :: data =>
      complete_line h && forallb complete_line data && forallb parses data
  end.

(** The data lines of the files at [paths], file by file; a missing file
    has none. *)
Definition source_lines (fs : filesystem) (paths : list string) : list (list string) :=
  (λ p, from_option data_lines [] (fs !! p)) <$> paths.

(** Every path names an event file whose header line is [h]. *)
Definition event_files (fs : filesystem) (h : string) (paths : list string) : bool :=
  forallb (λ p, match fs !! p with
                | Some text => event_file text && bool_decide (header_line text = h)
                | None => false
                end) paths.

(** The data lines of every file at [paths] are in key order. *)
Definition sources_sorted (fs : filesystem) (paths : list string) : bool :=
  forallb sorted_lines (source_lines fs paths).

(** [s] begins with [pre]. *)
Fixpoint starts_with (pre s : string) : bool :=
  match pre, s with
  | EmptyString, _ => true
  | String c pre', String c' s' => Ascii.eqb c c' && starts_with pre' s'
  | String _ _, EmptyString => false
  end.

(** No input path is a name that [multi_pass_merge] gives to its
    intermediate files, which all begin with [{output_path}.merge_]. *)
Definition fresh_names (output_path : string) (paths : list string) : bool :=
  forallb (λ p, negb (starts_with (output_path +:+ ".merge_") p)) paths.

(** Adjacent events are in [(channel, sequence)] order. *)
Definition in_key_order (ls : list string) : Prop :=
  ∀ i e1 e2, ls !! i = Some e1 → ls !! S i = Some e2 →
    ∃ c1 s1 c2 s2, parse_key e1 = Ok (c1, s1) ∧ parse_key e2 = Ok (c2, s2) ∧
      (c1 < c2 ∨ (c1 = c2 ∧ s1 ≤ s2)).

(** The lines with key [k], in the order in which they occur. *)
Definition with_key (k : Z * Z) (ls : list string) : list string :=
  filter (λ l, key_of l = k) ls.

(** ** Sample event files: the three order sources of the end-to-end
    example, with keys [(1,1),(1,3)], [(1,2),(1,4)] and [(2,1)]. *)

Definition crlf : string := String Py.CR (String Py.LF EmptyString).

Definition sample_header : string :=
  "ChannelNo,ApplSeqNum,Event,Symbol,OrderID,BidOrderID,OfferOrderID,Side,Price,Qty,Amt,OrdType,ExecType,TransactTime,SendingTime,Source"
  +:+ crlf.

Definition sample_a : string :=
  sample_header
  +:+ "1,1,ORDER,000001,1,,,1,10.50,100,,2,,93000000,93000010,order" +:+ crlf
  +:+ "1,3,ORDER,000001,3,,,2,10.60,200,,2,,93000020,93000030,order" +:+ crlf.

Definition sample_b : string :=
  sample_header
  +:+ "1,2,ORDER,000002,2,,,1,20.00,300,,2,,93000005,93000015,order" +:+ crlf
  +:+ "1,4,ORDER,000002,4,,,2,20.10,400,,2,,93000025,93000035,order" +:+ crlf.

Definition sample_c : string :=
  sample_header
  +:+ "2,1,ORDER,000003,1,,,1,30.00,500,,2,,93000001,93000011,order" +:+ crlf.

(** A file with another header line. *)
Definition sample_d : string :=
  "ChannelNo,ApplSeqNum" +:+ crlf +:+ "1,5" +:+ crlf.

Definition sample_fs : filesystem :=
  {[ "work/a.events.csv" := sample_a; "work/b.events.csv" := sample_b;
     "work/c.events.csv" := sample_c; "work/d.events.csv" := sample_d ]}.

Definition sample_paths : list string :=
  ["work/a.events.csv"; "work/b.events.csv"; "work/c.events.csv"].

(** ** Vocabulary of the statements about the normalizers *)

(** The two families of sources. *)
Inductive family : Type := OrderStream | TickStream.

Definition kind_name (f : family) : string :=
  match f with
  | OrderStream => "order"
  | TickStream => "tick"
  end.

Definition row_body (f : family) :=
  match f with
  | OrderStream => order_row
  | TickStream => tick_row
  end.

Definition write_family_events (E : os_env) (f : family) :=
  match f with
  | OrderStream => write_order_events E
  | TickStream => write_tick_events E
  end.

Definition not_monotonic (f : family) :=
  match f with
  | OrderStream => RuntimeError_order_not_monotonic
  | TickStream => RuntimeError_tick_not_monotonic
  end.

(** The row passes the channel filter; the row is skipped by it. *)
Definition passes_filter (only_channel : option Z) (r : row) (channel : Z) : Prop :=
  int_item r "ChannelNo" = Ok channel ∧
  (only_channel = None ∨ only_channel = Some channel).

Definition skipped_by_filter (only_channel : option Z) (r : row) : Prop :=
  ∃ channel c, int_item r "ChannelNo" = Ok channel ∧
    only_channel = Some c ∧ channel ≠ c.


(** [build_event_files] reaches the source [inner_path]: the sources
    listed before it are filtered out or normalized without an exception
    and without reaching [limit_files], which leaves the file system
    [fs1], and the symbol filter keeps [inner_path]. *)
Definition reaches (E : os_env) (archive_path kind out_dir : string)
    (limit_files : option Z) (symbol_regex : option string) (only_channel : option Z)
    (inner_path : string) (fs fs1 : filesystem) : Prop :=
  ∃ pre post event_paths,
    list_csv_paths E archive_path = Ok (pre ++ inner_path :: post) ∧
    build_loop E archive_path kind out_dir limit_files symbol_regex only_channel
      pre [] 0 fs = (fs1, Ok event_paths) ∧
    (∀ limit, limit_files = Some limit → Z.of_nat (length event_paths) < limit) ∧
    match symbol_regex with
    | Some pattern =>
        Py.truthy pattern && negb (re_search E pattern (symbol_of E inner_path)) = false
    | None => True
    end.

(** ** A sample environment: one order source and one tick source *)

Definition sample_field (c : cell) : string :=
  match c with
  | CInt z => pretty z
  | CStr s => s
  | CNone => EmptyString
  end.

Fixpoint sample_fields (cells : list cell) : string :=
  match cells with
  | [] => EmptyString
  | [c] => sample_field c
  | c :: cs => sample_field c +:+ "," +:+ sample_fields cs
  end.

Definition sample_writerow (cells : list cell) : string :=
  sample_fields cells +:+ crlf.

Definition order_raw (channel seq : string) : row :=
  {[ "ChannelNo" := Some channel; "ApplSeqNum" := Some seq; "Side" := Some "1";
     "Price" := Some "10.5000"; "OrderQty" := Some "100"; "OrdType" := Some "2";
     "TransactTime" := Some "20240102093000000";
     "SendingTime" := Some "20240102093000010" ]}.

Definition tick_raw (channel seq exec_type : string) : row :=
  {[ "ChannelNo" := Some channel; "ApplSeqNum" := Some seq;
     "BidApplSeqNum" := Some "1"; "OfferApplSeqNum" := Some "0";
     "Price" := Some "10.5000"; "Qty" := Some "100"; "Amt" := Some "1050.0000";
     "ExecType" := Some exec_type;
     "TransactTime" := Some "20240102093000020";
     "SendingTime" := Some "20240102093000030" ]}.

(** An environment whose two archives hold one source each, with the
    given rows. *)
Definition sample_env (order_rows tick_rows : list row) : os_env := {|
  list_csv_paths := λ _, Ok ["SZ/000001.csv"];
  stream_csv_rows := λ archive_path _,
    if String.eqb archive_path "order.7z" then (order_rows, None) else (tick_rows, None);
  writerow := sample_writerow;
  symbol_of := λ _, "000001";
  path_join := λ a b, a +:+ "/" +:+ b;
  re_search := λ pattern s, starts_with pattern s;
  mkdtemp := λ _, "/tmp/szse_merge_0";
  rmtree := λ root, filter (λ kv, starts_with (root +:+ "/") kv.1 = false)
|}.

Definition sample_args (out out_dir : option string) : args := {|
  order_archive := "order.7z"; tick_archive := "tick.7z";
  out := out; out_dir := out_dir; work_dir := Some "work"; keep_temp := false;
  max_open := 64; limit_files := None; symbol_regex := None; channel := None
|}.

(** The archive and the directory of event files of a family in [main]. *)
Definition archive_of (a : args) (f : family) : string :=
  match f with
  | OrderStream => order_archive a
  | TickStream => tick_archive a
  end.

Definition events_dir (E : os_env) (temp_root : string) (f : family) : string :=
  path_join E temp_root (kind_name f +:+ "_events").

(** The file system [fs1] in which [main] starts to normalize the
    sources of a family: the initial one for the order sources; for the
    tick sources, the one the order sources left, normalized without an
    exception. *)
Definition normalized_before (E : os_env) (a : args) (temp_root : string) (f : family)
    (fs fs1 : filesystem) : Prop :=
  match f with
  | OrderStream => fs1 = fs
  | TickStream =>
      ∃ order_paths,
        build_event_files E (order_archive a) "order" (events_dir E temp_root OrderStream)
          (limit_files a) (symbol_regex a) (channel a) fs = (fs1, Ok order_paths)
  end.

(** The working directory of [main] and the effect of its [finally]. *)
Definition temp_root_of (E : os_env) (a : args) (fs : filesystem) : string :=
  match work_dir a with
  | None => mkdtemp E fs
  | Some w => w
  end.

Definition finally_cleanup (E : os_env) (a : args) (fs fs' : filesystem) : filesystem :=
  match work_dir a with
  | None => if negb (keep_temp a) then rmtree E (mkdtemp E fs) fs' else fs'
  | Some _ => fs'
  end.

(** ** Vocabulary of the proofs about the merge *)

(** [a < b] on keys, as a proposition. *)
Definition key_lt (k1 k2 : Z * Z) : Prop :=
  k1.1 < k2.1 ∨ (k1.1 = k2.1 ∧ k1.2 < k2.2).

(** The order on heap items whose indices differ. *)
Definition rank_lt (a b : entry) : Prop :=
  key_lt (entry_key a) (entry_key b) ∨
  (entry_key a = entry_key b ∧ (entry_idx a < entry_idx b)%nat).

(** [out] is a stable merge of the line lists [ds]: it holds their lines,
    each one once, and, when each of them is in key order, it is in key
    order and its lines of any one key are those of the sources, source
    after source. *)
Definition merged (ds : list (list string)) (out : list string) : Prop :=
  out ≡ₚ concat ds ∧
  (Forall (StronglySorted line_le) ds →
   StronglySorted line_le out ∧ ∀ k, with_key k out = concat (with_key k <$> ds)).

(** A data line of an event file: terminated, with a key that parses. *)
Definition line_ok (l : string) : Prop := complete_line l = true ∧ parses l = true.

(** The invariant of the second loop of [merge_batch].  [pend] lists,
    source by source, the lines that are still to be written: the line
    the heap holds for the source, then the unread lines of its file. *)
Record drain_inv (files : list string) (heap : list entry)
    (pend : list (list string)) : Prop := DrainInv {
  inv_lines : Forall (Forall line_ok) pend;
  inv_files : files = (λ d, join (tail d)) <$> pend;
  inv_nodup : NoDup (entry_idx <$> heap);
  inv_heap : ∀ k i l,
    (k, i, l) ∈ heap ↔ ∃ ls, pend !! i = Some (l :: ls) ∧ k = key_of l
}.

(** The file at [p] is the header line [h] followed by the lines [d]. *)
Definition holds_lines (fs : filesystem) (h : string) (p : string) (d : list string) : Prop :=
  fs !! p = Some (h +:+ join d) ∧ complete_line h = true ∧ Forall line_ok d.

(** The character [c] does not occur in [s]. *)
Fixpoint lacks (c : ascii) (s : string) : Prop :=
  match s with
  | EmptyString => True
  | String c' s' => c' ≠ c ∧ lacks c s'
  end.

(** ** Sample rows of an order source and of a tick source *)

Definition rows_two_channels : list row := [order_raw "1" "5"; order_raw "2" "3"].
Definition rows_decreasing : list row :=
  [order_raw "1" "5"; order_raw "1" "5"; order_raw "1" "3"].
Definition rows_bad_seq_filtered : list row := [order_raw "2" "x"].
Definition rows_order_ok : list row := [order_raw "1" "5"; order_raw "1" "6"].
Definition rows_tick_ok : list row :=
  [tick_raw "1" "6" "F"; tick_raw "1" "7" "4"; tick_raw "1" "8" "1"].

(** ** Vocabulary of the statements about the rows a normalizer writes *)

(** The rows the loop of a normalizer hands to [writer.writerow], in
    order, up to the row that raises, if any. *)
Fixpoint written_rows (body : validator → row → result (option (validator * list cell)))
    (rows : list row) (v : validator) : list (list cell) :=
  match rows with
  | [] => []
  | r :: rest =>
      match body v r with
      | Raise _ => []
      | Ok None => written_rows body rest v
      | Ok (Some (v', cells)) => cells :: written_rows body rest v'
      end
  end.

(** The key of a written row: its first two cells, when they are
    integers. *)
Definition row_key (cells : list cell) : option (Z * Z) :=
  match cells with
  | CInt channel :: CInt seq :: _ => Some (channel, seq)
  | _ => None
  end.

(** ** [csv.writer]

    The writer of the [csv] module with its default dialect: fields
    separated by commas, a field quoted when it holds a comma, a quote
    or a line break, quotes doubled inside a quoted field, and [\r\n] at
    the end of the row. *)

Module Csv.

Definition QUOTE : ascii := "034"%char.

Definition special (c : ascii) : bool :=
  Ascii.eqb c "," || Ascii.eqb c QUOTE || Ascii.eqb c Py.CR || Ascii.eqb c Py.LF.

Fixpoint needs_quotes (s : string) : bool :=
  match s with
  | EmptyString => false
  | String c s' => special c || needs_quotes s'
  end.

Fixpoint double_quotes (s : string) : string :=
  match s with
  | EmptyString => EmptyString
  | String c s' =>
      if Ascii.eqb c QUOTE then String c (String c (double_quotes s'))
      else String c (double_quotes s')
  end.

(** [str(value)] of a cell; [None] is written as the empty string. *)
Definition str (c : cell) : string :=
  match c with
  | CInt z => pretty z
  | CStr s => s
  | CNone => EmptyString
  end.

Definition field (c : cell) : string :=
  let s := str c in
  if needs_quotes s then String QUOTE (double_quotes s +:+ String QUOTE EmptyString)
  else s.

Fixpoint join_fields (fields : list string) : string :=
  match fields with
  | [] => EmptyString
  | f :: more =>
      match more with
      | [] => f
      | _ :: _ => f +:+ "," +:+ join_fields more
      end
  end.

(** The text [writer.writerow(cells)] writes.  A row of one empty field
    is written as a pair of quotes. *)
Definition writerow (cells : list cell) : string :=
  match cells with
  | [c] =>
      if decide (str c = EmptyString) then String QUOTE (String QUOTE crlf)
      else field c +:+ crlf
  | _ => join_fields (field <$> cells) +:+ crlf
  end.

End Csv.

(** The environment [E] with the writer of the [csv] module. *)
Definition with_csv_writer (E : os_env) : os_env := {|
  list_csv_paths := list_csv_paths E;
  stream_csv_rows := stream_csv_rows E;
  writerow := Csv.writerow;
  symbol_of := symbol_of E;
  path_join := path_join E;
  re_search := re_search E;
  mkdtemp := mkdtemp E;
  rmtree := rmtree E
|}.

(** The text holds neither [\r] nor [\n]. *)
Fixpoint no_line_break (s : string) : bool :=
  match s with
  | EmptyString => true
  | String c s' => negb (Ascii.eqb c Py.CR || Ascii.eqb c Py.LF) && no_line_break s'
  end.

(** ** [os.path] on POSIX systems, and the symbol of a source *)

Module OsPath.

(** [s.rfind(c)]: the index of the last [c] in [s], if there is one. *)
Fixpoint rfind (c : ascii) (s : string) : option nat :=
  match s with
  | EmptyString => None
  | String c' s' =>
      match rfind c s' with
      | Some i => Some (S i)
      | None => if Ascii.eqb c' c then Some 0%nat else None
      end
  end.

(** [s[:n]] and [s[n:]] *)
Fixpoint take_str (n : nat) (s : string) : string :=
  match n, s with
  | S n', String c s' => String c (take_str n' s')
  | _, _ => EmptyString
  end.

Fixpoint drop_str (n : nat) (s : string) : string :=
  match n, s with
  | S n', String _ s' => drop_str n' s'
  | _, _ => s
  end.

Fixpoint all_dots (s : string) : bool :=
  match s with
  | EmptyString => true
  | String c s' => Ascii.eqb c "." && all_dots s'
  end.

(** [os.path.basename(p)] *)
Definition basename (p : string) : string :=
  match rfind "/" p with
  | Some i => drop_str (S i) p
  | None => p
  end.

(** [os.path.splitext(p)]: the extension starts at the last dot of the
    last component, unless only dots come before it there. *)
Definition splitext (p : string) : string * string :=
  match rfind "." p with
  | Some dotIndex =>
      let filenameIndex :=
        match rfind "/" p with
        | Some sepIndex => S sepIndex
        | None => 0%nat
        end in
      if (filenameIndex <=? dotIndex)%nat
         && negb (all_dots (take_str (dotIndex - filenameIndex) (drop_str filenameIndex p)))
      then (take_str dotIndex p, drop_str dotIndex p)
      else (p, EmptyString)
  | None => (p, EmptyString)
  end.

(** [os.path.splitext(os.path.basename(inner_path))[0]] *)
Definition symbol (inner_path : string) : string :=
  (splitext (basename inner_path)).1.

End OsPath.

(** ** [merge_szse_l3_polars.py]: the symbol of a file *)

Fixpoint all_digits (s : string) : bool :=
  match s with
  | EmptyString => true
  | String c s' => bool_decide (is_Some (Py.digit c)) && all_digits s'
  end.

(** [symbol_from_path_expr()] on one path:
    [str.extract(r"([0-9]{6})\.csv$")], the six digits that stand right
    before a final [.csv]; null when the path does not end so. *)
Definition symbol_from_path_expr (path : string) : option string :=
  let n := String.length path in
  let group := OsPath.take_str 6 (OsPath.drop_str (n - 10) path) in
  if (10 <=? n)%nat && String.eqb (OsPath.drop_str (n - 4) path) ".csv"
     && all_digits group
  then Some group
  else None.

(** ** [merge_szse_l3_polars.py]: [split_sorted_csv] *)

(** [os.path.join(a, b)] on POSIX systems. *)
Fixpoint ends_with_sep (s : string) : bool :=
  match s with
  | EmptyString => false
  | String c s' =>
      match s' with
      | EmptyString => Ascii.eqb c "/"
      | String _ _ => ends_with_sep s'
      end
  end.

Definition path_join_posix (a b : string) : string :=
  if starts_with "/" b then b
  else if negb (Py.truthy a) || ends_with_sep a then a +:+ b
  else a +:+ "/" +:+ b.

(** [line.rstrip("\n")] *)
Fixpoint rstrip_LF (s : string) : string :=
  match s with
  | EmptyString => EmptyString
  | String c s' =>
      match rstrip_LF s' with
      | EmptyString => if Ascii.eqb c Py.LF then EmptyString else String c EmptyString
      | t => String c t
      end
  end.

(** [f.write(text)] on a file opened for writing. *)
Definition write (path text : string) (fs : filesystem) : filesystem :=
  <[path := default EmptyString (fs !! path) +:+ text]> fs.

(** The variables of the loop: the open handles by channel, each one the
    path it writes to, and the channel and the handle in use. *)
Record split_state : Type := SplitState {
  handles : gmap string string;
  current_channel : option string;
  current_handle : option string;
  split_fs : filesystem
}.

(** [os.path.join(out_dir, f"channel_{channel}.csv")] *)
Definition channel_path (out_dir channel : string) : string :=
  path_join_posix out_dir ("channel_" +:+ channel +:+ ".csv").

(** [line.split(",", 1)[0]] *)
Definition channel_field (line : string) : string :=
  hd EmptyString (Py.split "," 1 line).

(** The body of the loop for a line after the first. *)
Definition split_line (out_dir header : string) (st : split_state) (line : string)
    : split_state :=
  let line := rstrip_LF line in
  if negb (Py.truthy line) then st
  else
    let channel := channel_field line in
    let st :=
      if decide (current_channel st = Some channel) then st
      else
        let '(handles', fs') :=
          match handles st !! channel with
          | Some _ => (handles st, split_fs st)
          | None =>
              let path := channel_path out_dir channel in
              (<[channel := path]> (handles st),
               write path (header +:+ String Py.LF EmptyString)
                 (<[path := EmptyString]> (split_fs st)))
          end in
        SplitState handles' (Some channel) (handles' !! channel) fs' in
    match current_handle st with
    | Some path =>
        SplitState (handles st) (current_channel st) (current_handle st)
          (write path (line +:+ String Py.LF EmptyString) (split_fs st))
    | None => st
    end.

(** [split_sorted_csv(sorted_path, out_dir)]; directories are not
    modelled. *)
Definition split_sorted_csv (sorted_path out_dir : string) (fs : filesystem)
    : filesystem * option exn :=
  match fs !! sorted_path with
  | None => (fs, Some (FileNotFoundError sorted_path))
  | Some text =>
      match readlines text with
      | [] => (fs, None)
      | first :: rest =>
          let header := rstrip_LF first in
          (split_fs (foldl (split_line out_dir header) (SplitState ∅ None None fs) rest),
           None)
      end
  end.

(** The data lines [split_sorted_csv] copies: the lines after the first,
    stripped of [\n], that are not empty. *)
Definition split_data (text : string) : list string :=
  filter (λ l, l ≠ EmptyString) (rstrip_LF <$> tail (readlines text)).

(** A text that can stand inside a file name: it holds neither a slash
    nor a null character.  For such a channel [open] creates the file in
    [out_dir] itself. *)
Fixpoint plain_name (s : string) : bool :=
  match s with
  | EmptyString => true
  | String c s' => negb (Ascii.eqb c "/") && negb (Ascii.eqb c "000") && plain_name s'
  end.

(** The data lines of a channel among the lines read so far, and the
    text of the channel's file. *)
Definition channel_lines (channel : string) (seen : list string) : list string :=
  filter (λ l, channel_field l = channel)
    (filter (λ l, l ≠ EmptyString) (rstrip_LF <$> seen)).

Definition channel_content (header channel : string) (seen : list string) : string :=
  header +:+ String Py.LF EmptyString
  +:+ join ((λ l, l +:+ String Py.LF EmptyString) <$> channel_lines channel seen).

(** The invariant of the loop of [split_sorted_csv], after the lines
    [seen]. *)
Definition split_inv (out_dir header : string) (fs : filesystem)
    (st : split_state) (seen : list string) : Prop :=
  (∀ c, handles st !! c
        = if decide (channel_lines c seen = []) then None
          else Some (channel_path out_dir c)) ∧
  (∀ c, current_channel st = Some c →
        current_handle st = Some (channel_path out_dir c) ∧ channel_lines c seen ≠ []) ∧
  (current_channel st = None → current_handle st = None) ∧
  (∀ c, split_fs st !! channel_path out_dir c
        = if decide (channel_lines c seen = []) then fs !! channel_path out_dir c
          else Some (channel_content header c seen)) ∧
  (∀ q, (∀ c, q ≠ channel_path out_dir c) → split_fs st !! q = fs !! q).

(** ** Vocabulary of the statements about a whole run *)

(** The header line that [csv.writer] writes for [EVENT_HEADER]. *)
Definition csv_header : string := Csv.writerow (CStr <$> EVENT_HEADER).

(** The file at [path], if there is one, is an event file with the
    header line [h] whose data lines are in key order. *)
Definition sorted_event_file_at (h : string) (fs : filesystem) (path : string) : Prop :=
  ∀ text, fs !! path = Some text →
    event_file text = true ∧ header_line text = h ∧ sorted_lines (data_lines text) = true.

(** No cell that a normalizer writes in the run with the arguments [a]
    holds a line break. *)
Definition plain_rows (E : os_env) (a : args) : Prop :=
  ∀ f inner_path,
    Forall (Forall (λ cell, no_line_break (Csv.str cell) = true))
      (written_rows (row_body f inner_path (symbol_of E inner_path) (channel a))
         (stream_csv_rows E (archive_of a f) inner_path).1 (Validator None None 0)).

(** * Text and lines *)

Section Text.
Implicit Types (s t rest l : string) (ls : list string) (c : ascii).

Lemma app_cons c s t : String c s +:+ t = String c (s +:+ t).
Proof. reflexivity. Qed.

Lemma app_empty_l s : EmptyString +:+ s = s.
Proof. reflexivity. Qed.

Lemma app_empty_r s : s +:+ EmptyString = s.
Proof. induction s as [|c s IH]; [done|]. by rewrite app_cons, IH. Qed.

Lemma app_assoc_str s t rest : (s +:+ t) +:+ rest = s +:+ (t +:+ rest).
Proof. induction s as [|c s IH]; [done|]. by rewrite !app_cons, IH. Qed.

Lemma length_app_str s t :
  String.length (s +:+ t) = (String.length s + String.length t)%nat.
Proof. induction s as [|c s IH]; [done|]. rewrite app_cons. simpl. by rewrite IH. Qed.

Lemma join_app ls1 ls2 : join (ls1 ++ ls2) = join ls1 +:+ join ls2.
Proof.
  induction ls1 as [|l ls1 IH]; [done|].
  simpl. by rewrite IH, app_assoc_str.
Qed.

Lemma truthy_true s : Py.truthy s = true ↔ s ≠ EmptyString.
Proof. destruct s; simpl; split; congruence. Qed.

Lemma readline_split s : (Py.readline s).1 +:+ (Py.readline s).2 = s.
Proof.
  induction s as [|c s IH]; [done|]. simpl.
  destruct (Ascii.eqb c Py.LF); [done|].
  destruct (Ascii.eqb c Py.CR).
  - destruct s as [|c' s']; [done|]. by destruct (Ascii.eqb c' Py.LF).
  - destruct (Py.readline s) as [l r]. simpl in *. by rewrite app_cons, IH.
Qed.

Lemma readline_truthy c s : Py.truthy (Py.readline (String c s)).1 = true.
Proof.
  simpl. destruct (Ascii.eqb c Py.LF); [done|].
  destruct (Ascii.eqb c Py.CR).
  - destruct s as [|c' s']; [done|]. by destruct (Ascii.eqb c' Py.LF).
  - by destruct (Py.readline s).
Qed.

Lemma readline_rest_length c s :
  (String.length (Py.readline (String c s)).2 < String.length (String c s))%nat.
Proof.
  pose proof (readline_split (String c s)) as H.
  pose proof (readline_truthy c s) as Ht.
  apply (f_equal String.length) in H. rewrite length_app_str in H.
  destruct (Py.readline (String c s)) as [l r]. simpl in *.
  destruct l; [done|]. simpl in H. lia.
Qed.

Lemma complete_line_truthy l : complete_line l = true → Py.truthy l = true.
Proof. by destruct l. Qed.

Lemma complete_line_readline l rest :
  complete_line l = true → Py.readline (l +:+ rest) = (l, rest).
Proof.
  induction l as [|c l IH]; [done|]. simpl.
  destruct (Ascii.eqb c Py.LF).
  { intros ->%bool_decide_eq_true. done. }
  destruct (Ascii.eqb c Py.CR).
  { intros ->%bool_decide_eq_true. done. }
  intros H. by rewrite (IH H).
Qed.

Lemma join_length ls :
  Forall (λ l, complete_line l = true) ls → (length ls ≤ String.length (join ls))%nat.
Proof.
  induction 1 as [|l ls Hl _ IH]; simpl; [lia|].
  rewrite length_app_str. destruct l; [done|]. simpl. lia.
Qed.

Lemma readlines_fuel_join ls n :
  Forall (λ l, complete_line l = true) ls → (length ls ≤ n)%nat →
  readlines_fuel n (join ls) = ls.
Proof.
  intros Hls. revert n. induction Hls as [|l ls Hl _ IH]; intros n Hn.
  - by destruct n.
  - destruct n as [|n]; [simpl in Hn; lia|]. simpl.
    rewrite (complete_line_readline _ _ Hl), (complete_line_truthy _ Hl).
    f_equal. apply IH. simpl in Hn. lia.
Qed.

Lemma readlines_join ls :
  Forall (λ l, complete_line l = true) ls → readlines (join ls) = ls.
Proof. intros H. apply readlines_fuel_join; [done|]. by apply join_length. Qed.

Lemma join_readlines_fuel n s :
  (String.length s ≤ n)%nat → join (readlines_fuel n s) = s.
Proof.
  revert s. induction n as [|n IH]; intros s Hn.
  - destruct s; [done|simpl in Hn; lia].
  - destruct s as [|c s]; [done|].
    cbn [readlines_fuel].
    pose proof (readline_split (String c s)) as Hs.
    pose proof (readline_truthy c s) as Ht.
    pose proof (readline_rest_length c s) as Hl.
    destruct (Py.readline (String c s)) as [l r]. simpl in Hs, Ht, Hl.
    rewrite Ht. cbn [join]. rewrite IH; [done|]. simpl in Hn. lia.
Qed.

Lemma join_readlines s : join (readlines s) = s.
Proof. by apply join_readlines_fuel. Qed.

End Text.

(** * The heap *)

Section Heap.
Implicit Types (a b m r x : entry) (h rest : list entry).

Lemma key_ltb_lt k1 k2 : key_ltb k1 k2 = true ↔ key_lt k1 k2.
Proof.
  unfold key_ltb, key_lt.
  destruct (Z.ltb_spec k1.1 k2.1), (Z.eqb_spec k1.1 k2.1), (Z.ltb_spec k1.2 k2.2);
    simpl; split; intros; try done; try lia.
Qed.

Lemma key_ltb_ge k1 k2 : key_ltb k1 k2 = false ↔ key_le k2 k1.
Proof.
  unfold key_ltb, key_le.
  destruct (Z.ltb_spec k1.1 k2.1), (Z.eqb_spec k1.1 k2.1), (Z.ltb_spec k1.2 k2.2);
    simpl; split; intros; try done; try lia.
Qed.

Lemma key_le_refl k : key_le k k.
Proof. unfold key_le. lia. Qed.

Lemma key_le_trans k1 k2 k3 : key_le k1 k2 → key_le k2 k3 → key_le k1 k3.
Proof. unfold key_le. lia. Qed.

Lemma key_lt_le k1 k2 : key_lt k1 k2 → key_le k1 k2.
Proof. unfold key_lt, key_le. lia. Qed.

Lemma key_le_antisym k1 k2 : key_le k1 k2 → key_le k2 k1 → k1 = k2.
Proof. destruct k1, k2. unfold key_le. simpl. intros. f_equal; lia. Qed.

Lemma key_le_lt_false k1 k2 : key_le k1 k2 → key_lt k2 k1 → False.
Proof. unfold key_le, key_lt. lia. Qed.

Lemma key_le_total k1 k2 : key_le k1 k2 ∨ key_lt k2 k1.
Proof. unfold key_le, key_lt. lia. Qed.

Lemma entry_ltb_true a b :
  entry_idx a ≠ entry_idx b → entry_ltb a b = true → rank_lt a b.
Proof.
  intros Hne. unfold entry_ltb, rank_lt.
  destruct (key_ltb (entry_key a) (entry_key b)) eqn:Hab.
  { left. by apply key_ltb_lt. }
  destruct (key_ltb (entry_key b) (entry_key a)) eqn:Hba; [done|].
  apply key_ltb_ge in Hab, Hba.
  destruct (Nat.ltb_spec (entry_idx a) (entry_idx b)).
  { intros _. right. split; [by apply key_le_antisym|done]. }
  destruct (Nat.ltb_spec (entry_idx b) (entry_idx a)); [done|lia].
Qed.

Lemma entry_ltb_false a b :
  entry_idx a ≠ entry_idx b → entry_ltb a b = false → rank_lt b a.
Proof.
  intros Hne. unfold entry_ltb, rank_lt.
  destruct (key_ltb (entry_key a) (entry_key b)) eqn:Hab; [done|].
  destruct (key_ltb (entry_key b) (entry_key a)) eqn:Hba.
  { left. by apply key_ltb_lt. }
  apply key_ltb_ge in Hab, Hba.
  destruct (Nat.ltb_spec (entry_idx a) (entry_idx b)); [done|].
  destruct (Nat.ltb_spec (entry_idx b) (entry_idx a)); [|lia].
  intros _. right. split; [by apply key_le_antisym|done].
Qed.

Lemma rank_lt_trans a b x : rank_lt a b → rank_lt b x → rank_lt a x.
Proof.
  unfold rank_lt, key_lt. intros [?|[Hab ?]] [?|[Hbx ?]].
  - left. lia.
  - left. rewrite <- Hbx. done.
  - left. rewrite Hab. done.
  - right. split; [congruence|lia].
Qed.

Lemma pop_min_perm m h r rest : pop_min m h = (r, rest) → m :: h ≡ₚ r :: rest.
Proof.
  revert m r rest. induction h as [|x h IH]; intros m r rest; simpl.
  { by intros [= <- <-]. }
  destruct (entry_ltb x m).
  - destruct (pop_min x h) as [r' rest'] eqn:Hp. intros [= <- <-].
    etrans; [apply Permutation_skip, (IH _ _ _ Hp)|]. apply Permutation_swap.
  - destruct (pop_min m h) as [r' rest'] eqn:Hp. intros [= <- <-].
    etrans; [apply Permutation_swap|].
    etrans; [apply Permutation_skip, (IH _ _ _ Hp)|]. apply Permutation_swap.
Qed.

Lemma pop_min_least m h r rest :
  NoDup (entry_idx <$> m :: h) → pop_min m h = (r, rest) →
  (r = m ∨ rank_lt r m) ∧ ∀ y, y ∈ rest → rank_lt r y.
Proof.
  revert m r rest. induction h as [|x h IH]; intros m r rest Hnd; simpl.
  { intros [= <- <-]. split; [by left|]. by intros y ?%elem_of_nil. }
  rewrite !fmap_cons in Hnd.
  assert (entry_idx x ≠ entry_idx m) as Hxm.
  { apply NoDup_cons in Hnd as [Hm _]. intros Heq. apply Hm. rewrite <- Heq. left. }
  assert (NoDup (entry_idx <$> x :: h)) as Hndx by (by apply NoDup_cons in Hnd as [_ ?]).
  assert (NoDup (entry_idx <$> m :: h)) as Hndm.
  { rewrite fmap_cons. apply NoDup_cons in Hnd as [Hm Hnd].
    apply NoDup_cons in Hnd as [Hx Hh]. apply NoDup_cons. split; [|done].
    intros ?. apply Hm. by right. }
  destruct (entry_ltb x m) eqn:Hlt.
  - destruct (pop_min x h) as [r' rest'] eqn:Hp. intros [= <- <-].
    destruct (IH _ _ _ Hndx Hp) as [Hr Hrest].
    apply entry_ltb_true in Hlt; [|done].
    assert (rank_lt r' m) as Hrm.
    { destruct Hr as [->|Hr]; [done|]. by eapply rank_lt_trans. }
    split; [by right|]. intros y [->|Hy]%elem_of_cons; auto.
  - destruct (pop_min m h) as [r' rest'] eqn:Hp. intros [= <- <-].
    destruct (IH _ _ _ Hndm Hp) as [Hr Hrest].
    apply entry_ltb_false in Hlt; [|done].
    split; [done|]. intros y [->|Hy]%elem_of_cons; auto.
    destruct Hr as [->|Hr]; [done|]. by eapply rank_lt_trans.
Qed.

End Heap.

(** * Stable merges *)

Section Stable.
Implicit Types (l a b : string) (ls out : list string) (ds : list (list string)).

Lemma line_le_trans l1 l2 l3 : line_le l1 l2 → line_le l2 l3 → line_le l1 l3.
Proof. apply key_le_trans. Qed.

Lemma sorted_lines_strongly ls :
  sorted_lines ls = true ↔ StronglySorted line_le ls.
Proof.
  induction ls as [|l1 ls IH]; [split; [constructor|done]|].
  cbn [sorted_lines]. destruct ls as [|l2 ls'].
  { split; [repeat constructor|done]. }
  rewrite andb_true_iff, negb_true_iff, key_ltb_ge, IH. split.
  - intros [Hle Hs]. constructor; [done|]. constructor; [done|].
    apply StronglySorted_inv in Hs as [_ Hall].
    eapply Forall_impl; [exact Hall|]. intros x Hx. by eapply line_le_trans.
  - intros [Hs Hall]%StronglySorted_inv. split; [|done].
    by apply Forall_cons in Hall as [??].
Qed.

Lemma sorted_adjacent ls i l1 l2 :
  StronglySorted line_le ls → ls !! i = Some l1 → ls !! S i = Some l2 → line_le l1 l2.
Proof.
  intros Hs. revert i. induction Hs as [|x ls Hs IH Hall]; intros i; [done|].
  destruct i as [|i]; simpl.
  - intros [= ->] H2. rewrite Forall_forall in Hall. apply Hall.
    by eapply list_elem_of_lookup_2.
  - apply IH.
Qed.

Lemma with_key_cons_eq l ls : with_key (key_of l) (l :: ls) = l :: with_key (key_of l) ls.
Proof. unfold with_key. by rewrite filter_cons_True. Qed.

Lemma with_key_cons_ne k l ls : key_of l ≠ k → with_key k (l :: ls) = with_key k ls.
Proof. intros. unfold with_key. by rewrite filter_cons_False. Qed.

Lemma with_key_app k ls1 ls2 : with_key k (ls1 ++ ls2) = with_key k ls1 ++ with_key k ls2.
Proof. apply filter_app. Qed.


Lemma with_key_concat k ds : with_key k (concat ds) = concat (with_key k <$> ds).
Proof.
  induction ds as [|d ds IH]; [done|]. simpl. by rewrite with_key_app, IH.
Qed.


Lemma merged_single d : merged [d] d.
Proof.
  split; [simpl; by rewrite app_nil_r|].
  intros [Hd _]%Forall_cons. split; [done|]. intros k. simpl. by rewrite app_nil_r.
Qed.


(** Merging a run of consecutive sources first does not change a merge. *)
Lemma merged_replace pre seg post o out :
  merged seg o → merged (pre ++ [o] ++ post) out → merged (pre ++ seg ++ post) out.
Proof.
  intros [Hp1 Hs1] [Hp2 Hs2]. split.
  { rewrite Hp2, !concat_app. simpl. by rewrite app_nil_r, Hp1. }
  intros Hall. apply Forall_app in Hall as [Hpre [Hseg Hpost]%Forall_app].
  destruct (Hs1 Hseg) as [Ho Hko].
  destruct Hs2 as [Hout Hk].
  { apply Forall_app. split; [done|]. apply Forall_app. split; [|done]. by constructor. }
  split; [done|]. intros k. rewrite Hk, !fmap_app, !concat_app. simpl.
  by rewrite app_nil_r, Hko.
Qed.

Lemma elem_of_concat {A} (x : A) (xss : list (list A)) :
  x ∈ concat xss ↔ ∃ xs, x ∈ xs ∧ xs ∈ xss.
Proof.
  rewrite list_elem_of_In, in_concat. split.
  - intros (xs & ? & ?). exists xs. by rewrite !list_elem_of_In.
  - intros (xs & ? & ?). exists xs. by rewrite <- !list_elem_of_In.
Qed.

Lemma concat_all_nil {A} (xss : list (list A)) :
  Forall (λ xs, xs = []) xss → concat xss = [].
Proof. induction 1 as [|xs xss -> _ IH]; [done|]. done. Qed.

Lemma with_key_none k ls : (∀ x, x ∈ ls → key_of x ≠ k) → with_key k ls = [].
Proof.
  induction ls as [|l ls IH]; [done|]. intros H.
  rewrite with_key_cons_ne by (apply H; left). apply IH. intros x Hx. apply H. by right.
Qed.

Lemma with_key_above k d l0 :
  StronglySorted line_le (l0 :: d) → key_lt k (key_of l0) → with_key k (l0 :: d) = [].
Proof.
  intros [Hs Hall]%StronglySorted_inv Hlt. apply with_key_none.
  intros x [->|Hx]%elem_of_cons Hk.
  - rewrite Hk in Hlt. eapply key_le_lt_false; [apply key_le_refl|done].
  - rewrite Forall_forall in Hall. specialize (Hall x Hx). unfold line_le in Hall.
    rewrite Hk in Hall. by eapply key_le_lt_false.
Qed.

(** One step of the merge: the source [i] whose first line [l] is least
    for [(key, index)] gives the next line. *)
Lemma merged_step pend i l ls out :
  pend !! i = Some (l :: ls) →
  (∀ j lj lsj, j ≠ i → pend !! j = Some (lj :: lsj) →
     key_lt (key_of l) (key_of lj) ∨ (key_of l = key_of lj ∧ (i < j)%nat)) →
  merged (<[i := ls]> pend) out → merged pend (l :: out).
Proof.
  intros Hi Hmin [Hperm Hsorted].
  assert (∃ pre post, pend = pre ++ (l :: ls) :: post ∧ length pre = i)
    as (pre & post & -> & Hlen).
  { exists (take i pend), (drop (S i) pend). split.
    - by rewrite take_drop_middle.
    - apply length_take_le. apply lookup_lt_Some in Hi. lia. }
  assert (<[i := ls]> (pre ++ (l :: ls) :: post) = pre ++ ls :: post) as Hins.
  { rewrite insert_app_r_alt by lia. by rewrite Hlen, Nat.sub_diag. }
  rewrite Hins in Hperm, Hsorted. split.
  { rewrite Hperm, !concat_app. simpl.
    by rewrite (Permutation_middle (concat pre)). }
  intros Hall.
  apply Forall_app in Hall as [Hpre Hpost].
  apply Forall_cons in Hpost as [Hsl Hpost].
  destruct Hsorted as [Hout Hk].
  { apply Forall_app. split; [done|].
    constructor; [|done]. by apply StronglySorted_inv in Hsl as [? _]. }
  split.
  - constructor; [done|]. apply Forall_forall. intros x Hx.
    rewrite Hperm, <- Hins in Hx. apply elem_of_concat in Hx as (d & Hxd & Hd).
    apply list_elem_of_lookup in Hd as [j Hj].
    destruct (decide (j = i)) as [->|Hne].
    + rewrite list_lookup_insert_eq in Hj by (by eapply lookup_lt_Some).
      injection Hj as <-. apply StronglySorted_inv in Hsl as [_ Hl].
      rewrite Forall_forall in Hl. by apply Hl.
    + rewrite list_lookup_insert_ne in Hj by done.
      destruct d as [|lj lsj]; [by apply elem_of_nil in Hxd|].
      assert (key_le (key_of l) (key_of lj)) as Hle.
      { destruct (Hmin _ _ _ Hne Hj) as [?|[-> _]]; [by apply key_lt_le|apply key_le_refl]. }
      assert (StronglySorted line_le (lj :: lsj)) as Hsj.
      { apply list_elem_of_lookup_2 in Hj.
        apply elem_of_app in Hj as [Hj|[Hj|Hj]%elem_of_cons].
        - rewrite Forall_forall in Hpre. by apply Hpre.
        - by rewrite Hj.
        - rewrite Forall_forall in Hpost. by apply Hpost. }
      apply elem_of_cons in Hxd as [->|Hxd]; [done|].
      apply StronglySorted_inv in Hsj as [_ Hlj]. rewrite Forall_forall in Hlj.
      eapply key_le_trans; [exact Hle|]. by apply Hlj.
  - intros k. rewrite fmap_app, concat_app, fmap_cons. simpl.
    destruct (decide (key_of l = k)) as [<-|Hne].
    + rewrite with_key_cons_eq, Hk, fmap_app, concat_app, fmap_cons. simpl.
      assert (concat (with_key (key_of l) <$> pre) = []) as ->; [|by rewrite with_key_cons_eq].
      apply concat_all_nil, Forall_fmap, Forall_forall. intros d Hd. simpl.
      pose proof Hd as Hsd. rewrite Forall_forall in Hpre. apply Hpre in Hsd.
      apply list_elem_of_lookup in Hd as [j Hj].
      assert (j < i)%nat as Hji.
      { apply lookup_lt_Some in Hj. lia. }
      destruct d as [|lj lsj]; [done|].
      apply with_key_above; [done|].
      destruct (Hmin j lj lsj) as [?|[_ ?]]; [lia| |done|lia].
      by rewrite lookup_app_l by lia.
    + rewrite !(with_key_cons_ne k l) by done.
      by rewrite Hk, fmap_app, concat_app, fmap_cons.
Qed.

End Stable.

(** * The second loop of [merge_batch] *)

Section Drain.
Implicit Types (files : list string) (heap : list entry) (pend : list (list string)).

Lemma parses_key l : parses l = true → parse_key l = Ok (key_of l).
Proof. unfold parses, key_of. by destruct (parse_key l). Qed.

Lemma drain_inv_step files heap pend k i l heap' ls :
  drain_inv files heap pend → heap ≡ₚ (k, i, l) :: heap' → pend !! i = Some (l :: ls) →
  drain_inv (<[i := join (tail ls)]> files)
    (match ls with [] => heap' | l2 :: _ => (key_of l2, i, l2) :: heap' end)
    (<[i := ls]> pend).
Proof.
  intros [Hlines Hfiles Hnd Hheap] Hperm Hi.
  assert (NoDup (i :: (entry_idx <$> heap'))) as Hnd'.
  { rewrite Hperm in Hnd. by rewrite fmap_cons in Hnd. }
  apply NoDup_cons in Hnd' as [Hi' Hnd'].
  assert (∀ k' l', (k', i, l') ∉ heap') as Hfresh.
  { intros k' l' Hin. apply Hi'. apply list_elem_of_fmap. by exists (k', i, l'). }
  assert (Forall line_ok ls) as Hls.
  { rewrite Forall_forall in Hlines. apply list_elem_of_lookup_2, Hlines in Hi.
    by apply Forall_cons in Hi as [_ ?]. }
  split.
  - apply Forall_insert; done.
  - subst files. by rewrite list_fmap_insert.
  - destruct ls as [|l2 ls2]; [done|]. rewrite fmap_cons. by apply NoDup_cons.
  - intros k' j l'. destruct (decide (j = i)) as [->|Hne].
    + rewrite list_lookup_insert_eq by (by eapply lookup_lt_Some). split.
      * destruct ls as [|l2 ls2]; [by intros ?%Hfresh|].
        intros [[= -> ->]|?%Hfresh]%elem_of_cons; [|done]. by exists ls2.
      * intros (ls' & [= ->] & ->). left.
    + rewrite list_lookup_insert_ne by done. rewrite <- Hheap, Hperm.
      destruct ls as [|l2 ls2].
      * rewrite elem_of_cons. naive_solver.
      * rewrite !elem_of_cons. naive_solver.
Qed.

Lemma drain_inv_least files heap pend k i l heap' m h :
  drain_inv files heap pend → heap = m :: h → pop_min m h = ((k, i, l), heap') →
  ∃ ls, pend !! i = Some (l :: ls) ∧ k = key_of l ∧ heap ≡ₚ (k, i, l) :: heap' ∧
    ∀ j lj lsj, j ≠ i → pend !! j = Some (lj :: lsj) →
      key_lt (key_of l) (key_of lj) ∨ (key_of l = key_of lj ∧ (i < j)%nat).
Proof.
  intros Hinv -> Hpop. pose proof (pop_min_perm _ _ _ _ Hpop) as Hperm.
  destruct Hinv as [Hlines Hfiles Hnd Hheap].
  destruct (pop_min_least _ _ _ _ Hnd Hpop) as [_ Hleast].
  assert ((k, i, l) ∈ m :: h) as Hin by (rewrite Hperm; left).
  apply Hheap in Hin as (ls & Hi & ->). exists ls. split_and!; [done..|].
  intros j lj lsj Hne Hj.
  assert ((key_of lj, j, lj) ∈ m :: h) as Hinj by (apply Hheap; eauto).
  rewrite Hperm in Hinj. apply elem_of_cons in Hinj as [[=]|Hinj]; [done|].
  apply Hleast in Hinj. exact Hinj.
Qed.

Lemma concat_insert_tail pend i l ls :
  pend !! i = Some (l :: ls) →
  length (concat pend) = S (length (concat (<[i := ls]> pend))).
Proof.
  revert i. induction pend as [|d pend IH]; intros [|i] Hi; simplify_eq/=.
  - rewrite !length_app. simpl. lia.
  - rewrite !length_app, (IH _ Hi). lia.
Qed.

Lemma drain_merged fuel files heap pend :
  drain_inv files heap pend → (length (concat pend) ≤ fuel)%nat →
  ∃ out, drain fuel files heap = Some (join out, None) ∧ merged pend out.
Proof.
  revert files heap pend. induction fuel as [|fuel IH]; intros files heap pend Hinv Hfuel.
  - assert (heap = []) as ->.
    { destruct heap as [|[[k i] l] h]; [done|].
      assert ((k, i, l) ∈ (k, i, l) :: h) as Hin by left.
      apply (inv_heap _ _ _ Hinv) in Hin as (ls & Hi & _).
      rewrite (concat_insert_tail _ _ _ _ Hi) in Hfuel. lia. }
    exists []. split; [done|].
    assert (Forall (λ d, d = []) pend) as Hnil.
    { apply Forall_forall. intros [|l ls] Hd; [done|].
      apply list_elem_of_lookup in Hd as [i Hi].
      assert ((key_of l, i, l) ∈ []) as Hin by (apply (inv_heap _ _ _ Hinv); eauto).
      by apply elem_of_nil in Hin. }
    split; [by rewrite concat_all_nil|]. intros _. split; [constructor|].
    intros k. symmetry. apply concat_all_nil, Forall_fmap.
    eapply Forall_impl; [exact Hnil|]. by intros d ->.
  - destruct heap as [|m h].
    { exists []. split; [done|].
      assert (Forall (λ d, d = []) pend) as Hnil.
      { apply Forall_forall. intros [|l ls] Hd; [done|].
        apply list_elem_of_lookup in Hd as [i Hi].
        assert ((key_of l, i, l) ∈ []) as Hin by (apply (inv_heap _ _ _ Hinv); eauto).
        by apply elem_of_nil in Hin. }
      split; [by rewrite concat_all_nil|]. intros _. split; [constructor|].
      intros k. symmetry. apply concat_all_nil, Forall_fmap.
      eapply Forall_impl; [exact Hnil|]. by intros d ->. }
    destruct (pop_min m h) as [[[k i] l] heap'] eqn:Hpop.
    destruct (drain_inv_least _ _ _ _ _ _ _ _ _ Hinv eq_refl Hpop)
      as (ls & Hi & -> & Hperm & Hmin).
    pose proof (drain_inv_step _ _ _ _ _ _ _ _ Hinv Hperm Hi) as Hinv'.
    assert (files !! i = Some (join ls)) as Hfi.
    { rewrite (inv_files _ _ _ Hinv), list_lookup_fmap, Hi. done. }
    assert (length (concat (<[i := ls]> pend)) ≤ fuel)%nat as Hfuel'.
    { rewrite (concat_insert_tail _ _ _ _ Hi) in Hfuel. lia. }
    cbn [drain heappop]. rewrite Hpop, Hfi.
    destruct ls as [|l2 ls2].
    + simpl join. cbn [Py.readline Py.truthy].
      destruct (IH _ _ _ Hinv' Hfuel') as (out & Hdrain & Hmerged).
      simpl in Hdrain. rewrite Hdrain. simpl.
      exists (l :: out). split; [done|]. by eapply merged_step.
    + assert (line_ok l2) as [Hc Hp].
      { pose proof (inv_lines _ _ _ Hinv) as Hl. rewrite Forall_forall in Hl.
        apply list_elem_of_lookup_2, Hl in Hi.
        apply Forall_cons in Hi as [_ Hi]. by apply Forall_cons in Hi as [? _]. }
      simpl join. rewrite (complete_line_readline _ _ Hc), (complete_line_truthy _ Hc).
      rewrite (parses_key _ Hp).
      destruct (IH _ _ _ Hinv' Hfuel') as (out & Hdrain & Hmerged).
      simpl in Hdrain. unfold heappush. rewrite Hdrain. simpl.
      exists (l :: out). split; [done|]. by eapply merged_step.
Qed.

End Drain.

(** * [merge_batch] *)

Section MergeBatch.
Implicit Types (fs : filesystem) (paths : list string) (ds pend : list (list string)).

Lemma event_file_lines text :
  event_file text = true →
  text = header_line text +:+ join (data_lines text) ∧
  complete_line (header_line text) = true ∧ Forall line_ok (data_lines text).
Proof.
  unfold event_file, data_lines, header_line. intros H.
  pose proof (join_readlines text) as Hj.
  destruct (readlines text) as [|h data]; [done|].
  apply andb_true_iff in H as [[Hh Hc]%andb_true_iff Hp].
  simpl in *. subst text. rewrite (complete_line_readline _ _ Hh). simpl.
  split_and!; [done..|].
  rewrite forallb_forall in Hc, Hp. apply Forall_forall. intros l Hl.
  apply list_elem_of_In in Hl. split; auto.
Qed.

Lemma event_files_holds fs h paths :
  event_files fs h paths = true → Forall2 (holds_lines fs h) paths (source_lines fs paths).
Proof.
  unfold source_lines, event_files. induction paths as [|p paths IH]; [constructor|].
  cbn [forallb]. intros [Hp Hps]%andb_true_iff.
  rewrite fmap_cons. constructor; [|by apply IH].
  destruct (fs !! p) as [text|] eqn:Hf; [|done].
  apply andb_true_iff in Hp as [Hev Hh%bool_decide_eq_true]. simpl.
  apply event_file_lines in Hev as (Ht & Hc & Hd).
  rewrite Hh in Ht, Hc. unfold holds_lines. split_and!; [|done..].
  rewrite Hf. f_equal. exact Ht.
Qed.

Lemma drain_inv_nil : drain_inv [] [] [].
Proof.
  split; [constructor|done|constructor|].
  intros k i l. split; [by intros ?%elem_of_nil|]. by intros (? & ? & _).
Qed.

Lemma drain_inv_snoc files heap pend d :
  drain_inv files heap pend → Forall line_ok d →
  drain_inv (files ++ [join (tail d)])
    (match d with [] => heap | l :: _ => (key_of l, length pend, l) :: heap end)
    (pend ++ [d]).
Proof.
  intros [Hlines Hfiles Hnd Hheap] Hd.
  assert (∀ k l, (k, length pend, l) ∉ heap) as Hfresh.
  { intros k l (ls & Hi & _)%Hheap. apply lookup_lt_Some in Hi. lia. }
  split.
  - apply Forall_app. split; [done|]. by constructor.
  - subst files. by rewrite fmap_app.
  - destruct d as [|l ls]; [done|]. rewrite fmap_cons. apply NoDup_cons. split; [|done].
    intros ([[k i] l'] & Hi & Hin)%list_elem_of_fmap. unfold entry_idx in Hi. simpl in Hi. subst i.
    by apply Hfresh in Hin.
  - intros k i l'. destruct (decide (i < length pend)%nat) as [Hlt|Hge].
    + rewrite lookup_app_l by done. rewrite <- Hheap.
      destruct d as [|l ls]; [done|]. rewrite elem_of_cons. split; [|auto].
      intros [[= -> -> ->]|?]; [lia|done].
    + destruct (decide (i = length pend)) as [->|Hne].
      * rewrite list_lookup_middle by done. split.
        -- destruct d as [|l ls]; [by intros ?%Hfresh|].
           intros [[= -> ->]|?%Hfresh]%elem_of_cons; [|done]. by exists ls.
        -- intros (ls & [= ->] & ->). left.
      * rewrite lookup_ge_None_2 by (rewrite length_app; simpl; lia). split.
        -- destruct d as [|l ls].
           ++ intros (ls & Hi & _)%Hheap. apply lookup_lt_Some in Hi. lia.
           ++ intros [[= -> -> ->]|(ls' & Hi & _)%Hheap]%elem_of_cons; [done|].
              apply lookup_lt_Some in Hi. lia.
        -- by intros (? & ? & _).
Qed.

Lemma open_inputs_spec fs h paths ds idx st pend :
  Forall2 (holds_lines fs h) paths ds →
  drain_inv (files st) (heap st) pend → idx = length pend →
  (length (concat pend) ≤ drain_fuel (files st) (heap st))%nat →
  (header st = None ∨ header st = Some h) →
  ∃ st', open_inputs fs idx paths st = Ok st' ∧
    drain_inv (files st') (heap st') (pend ++ ds) ∧
    (length (concat (pend ++ ds)) ≤ drain_fuel (files st') (heap st'))%nat ∧
    header st' = match paths with [] => header st | _ => Some h end.
Proof.
  intros Hall. revert idx st pend.
  induction Hall as [|p d paths ds (Hp & Hh & Hd) _ IH]; intros idx st pend Hinv -> Hfuel Hhdr.
  { exists st. by rewrite app_nil_r. }
  cbn [open_inputs]. rewrite Hp, (complete_line_readline _ _ Hh).
  assert (match header st with
          | None => Ok h
          | Some h0 => if decide (h = h0) then Ok h0 else Raise (RuntimeError_header_mismatch p)
          end = Ok h) as ->.
  { destruct Hhdr as [->| ->]; [done|]. by rewrite decide_True. }
  cbn [bind].
  pose proof (drain_inv_snoc _ _ _ _ Hinv Hd) as Hinv'.
  assert (length (concat (pend ++ [d])) ≤
          drain_fuel (files st ++ [join (tail d)])
            (match d with [] => heap st | l :: _ => (key_of l, length pend, l) :: heap st end))%nat
    as Hfuel'.
  { unfold drain_fuel in *. rewrite concat_app, length_app, fmap_app, sum_list_with_app. simpl.
    rewrite app_nil_r. destruct d as [|l ls]; simpl; [lia|].
    apply Forall_cons in Hd as [_ Hd].
    assert (length ls ≤ String.length (join ls))%nat.
    { apply join_length. eapply Forall_impl; [exact Hd|]. by intros ? [? _]. }
    lia. }
  destruct d as [|l ls].
  - simpl join. cbn [Py.readline Py.truthy].
    destruct (IH (S (length pend)) (Opened (files st ++ [EmptyString]) (heap st) (Some h))
                (pend ++ [[]])) as (st' & Hopen & Hinv'' & Hfuel'' & Hhdr''); simpl.
    + exact Hinv'.
    + rewrite length_app. simpl. lia.
    + exact Hfuel'.
    + by right.
    + exists st'. rewrite <- app_assoc in Hinv'', Hfuel''. split_and!; [done..|].
      by destruct paths.
  - apply Forall_cons in Hd as [[Hc Hk] Hd].
    simpl join. rewrite (complete_line_readline _ _ Hc), (complete_line_truthy _ Hc).
    rewrite (parses_key _ Hk). cbn [bind]. unfold heappush.
    destruct (IH (S (length pend))
                (Opened (files st ++ [join ls]) ((key_of l, length pend, l) :: heap st) (Some h))
                (pend ++ [l :: ls])) as (st' & Hopen & Hinv'' & Hfuel'' & Hhdr''); simpl.
    + exact Hinv'.
    + rewrite length_app. simpl. lia.
    + exact Hfuel'.
    + by right.
    + exists st'. rewrite <- app_assoc in Hinv'', Hfuel''. split_and!; [done..|].
      by destruct paths.
Qed.

(** What [merge_batch] does with event files that share a header line. *)
Lemma merge_batch_merged fs h paths ds output_path :
  paths ≠ [] → Forall2 (holds_lines fs h) paths ds →
  ∃ out, merge_batch paths output_path fs
           = Some (<[output_path := h +:+ join out]> fs, None) ∧
         merged ds out.
Proof.
  intros Hne Hall. unfold merge_batch.
  destruct (open_inputs_spec fs h paths ds 0 (Opened [] [] None) [] Hall)
    as (st' & -> & Hinv & Hfuel & Hhdr).
  { apply drain_inv_nil. }
  { done. }
  { simpl. lia. }
  { by left. }
  simpl in *. destruct paths as [|p paths]; [done|]. rewrite Hhdr.
  destruct (drain_merged _ _ _ _ Hinv Hfuel) as (out & -> & Hm).
  exists out. done.
Qed.

End MergeBatch.

(** * Names of the intermediate files *)

Section TmpNames.
Implicit Types (s t : string) (c : ascii).

Lemma split_at_char c s1 s2 t1 t2 :
  lacks c s1 → lacks c s2 → s1 +:+ String c t1 = s2 +:+ String c t2 → s1 = s2 ∧ t1 = t2.
Proof.
  revert s2. induction s1 as [|c1 s1 IH]; intros [|c2 s2]; simpl.
  - by intros _ _ [= ->].
  - by intros _ [Hc _] [= <- _].
  - by intros [Hc _] _ [= -> _].
  - intros [_ H1] [_ H2] [= -> Heq]. destruct (IH _ H1 H2 Heq) as [-> ->]. done.
Qed.

Lemma pretty_N_char_lacks c x :
  (nat_of_ascii c < 48 ∨ 57 < nat_of_ascii c)%nat → pretty_N_char x ≠ c.
Proof.
  intros Hc <-. unfold pretty_N_char in Hc.
  repeat case_match; vm_compute in Hc; lia.
Qed.

Lemma pretty_N_go_lacks c x s :
  (nat_of_ascii c < 48 ∨ 57 < nat_of_ascii c)%nat → lacks c s → lacks c (pretty_N_go x s).
Proof.
  intros Hc. revert s. induction (N.lt_wf_0 x) as [x _ IH]; intros s Hs.
  assert (x = 0 ∨ 0 < x)%N as [->|?] by lia; [by rewrite pretty_N_go_0|].
  rewrite pretty_N_go_step by done. apply IH; [by apply N.div_lt|].
  split; [by apply pretty_N_char_lacks|done].
Qed.

Lemma pretty_nat_lacks c (n : nat) :
  (nat_of_ascii c < 48 ∨ 57 < nat_of_ascii c)%nat → lacks c (pretty n).
Proof.
  intros Hc. unfold pretty, pretty_nat, pretty, pretty_N.
  case_decide; [|by apply pretty_N_go_lacks].
  split; [|done]. intros <-. vm_compute in Hc. lia.
Qed.

Lemma merged_path_inj o r k r' k' :
  merged_path o r k = merged_path o r' k' → r = r' ∧ k = k'.
Proof.
  unfold merged_path. intros H.
  apply (inj (String.app o)) in H. apply (inj (String.app ".merge_")) in H.
  apply split_at_char in H as [Hr H]; [|apply pretty_nat_lacks; vm_compute; lia..].
  apply split_at_char in H as [Hk _]; [|apply pretty_nat_lacks; vm_compute; lia..].
  split; by apply (inj pretty).
Qed.

End TmpNames.

(** * Offsets of the batches *)

Section Range.

Lemma range_from_length_le fuel i stop step :
  (2 ≤ step)%nat → (i < stop)%nat →
  (2 * length (range_from fuel i stop step) ≤ stop - i + 1)%nat.
Proof.
  intros Hstep. revert i. induction fuel as [|fuel IH]; intros i Hi; simpl; [lia|].
  destruct (Nat.ltb_spec i stop); [|lia]. simpl.
  destruct (decide (i + step < stop)%nat) as [Hlt|Hge].
  - specialize (IH _ Hlt). lia.
  - destruct fuel as [|fuel]; simpl; [lia|].
    destruct (Nat.ltb_spec (i + step) stop); [lia|]. simpl. lia.
Qed.

Lemma range_from_nonempty fuel i stop step :
  (i < stop)%nat → (0 < length (range_from (S fuel) i stop step))%nat.
Proof. intros Hi. simpl. destruct (Nat.ltb_spec i stop); simpl; lia. Qed.

End Range.

(** * One round of [multi_pass_merge] *)

Section Frame.
Implicit Types (fs : filesystem) (ps : list string) (ds : list (list string)).

Lemma holds_lines_insert fs h p d q t :
  p ≠ q → holds_lines fs h p d → holds_lines (<[q := t]> fs) h p d.
Proof. intros Hne (Hp & Hh & Hd). split_and!; [|done..]. by rewrite lookup_insert_ne. Qed.

Lemma Forall2_holds_insert fs h ps ds q t :
  (∀ p, p ∈ ps → p ≠ q) → Forall2 (holds_lines fs h) ps ds →
  Forall2 (holds_lines (<[q := t]> fs) h) ps ds.
Proof.
  intros Hne Hall. induction Hall as [|p d ps ds Hp _ IH]; [constructor|].
  constructor.
  - apply holds_lines_insert; [|done]. apply Hne. left.
  - apply IH. intros p' Hp'. apply Hne. by right.
Qed.

Lemma Forall2_holds_agree fs fs' h ps ds :
  (∀ p, p ∈ ps → fs' !! p = fs !! p) → Forall2 (holds_lines fs h) ps ds →
  Forall2 (holds_lines fs' h) ps ds.
Proof.
  intros Hag Hall. induction Hall as [|p d ps ds (Hp & Hh & Hd) _ IH]; [constructor|].
  constructor.
  - split_and!; [|done..]. rewrite Hag; [done|left].
  - apply IH. intros p' Hp'. apply Hag. by right.
Qed.

Lemma holds_lines_ok fs h ps ds :
  Forall2 (holds_lines fs h) ps ds → Forall (Forall line_ok) ds.
Proof. induction 1 as [|p d ps ds (_ & _ & Hd) _ IH]; by constructor. Qed.

Lemma merged_line_ok ds out :
  merged ds out → Forall (Forall line_ok) ds → Forall line_ok out.
Proof.
  intros [Hperm _] Hds. rewrite Hperm. apply Forall_forall.
  intros x (d & Hx & Hd)%elem_of_concat.
  rewrite Forall_forall in Hds. specialize (Hds d Hd).
  rewrite Forall_forall in Hds. by apply Hds.
Qed.

End Frame.

Section Round.
Context (o h : string) (r B : nat) (paths : list string) (ds : list (list string)).
Hypothesis HB : (1 ≤ B)%nat.
Hypothesis Hfresh : ∀ p k, p ∈ paths → p ≠ merged_path o r k.

Lemma merge_round_spec fuel : ∀ i next acc (fs : filesystem),
  (length paths ≤ fuel + i)%nat →
  Forall2 (holds_lines fs h) paths ds →
  Forall2 (holds_lines fs h) next acc →
  (∀ p, p ∈ next → p ∈ paths ∨ ∃ k, (k < i / B)%nat ∧ p = merged_path o r k) →
  ∃ fs' next' acc',
    merge_round o r B paths (range_from fuel i (length paths) B) next fs
      = Some (fs', Ok next') ∧
    Forall2 (holds_lines fs' h) next' acc' ∧
    (∀ out, merged acc' out → merged (acc ++ drop i ds) out) ∧
    (∀ p, p ∈ next' → p ∈ paths ∨ ∃ k, p = merged_path o r k) ∧
    length next' = (length next + length (range_from fuel i (length paths) B))%nat ∧
    (∀ p, (∀ k, p ≠ merged_path o r k) → fs' !! p = fs !! p).
Proof.
  assert (∀ i next acc (fs : filesystem),
    (length paths ≤ i)%nat → Forall2 (holds_lines fs h) paths ds →
    Forall2 (holds_lines fs h) next acc →
    (∀ p, p ∈ next → p ∈ paths ∨ ∃ k, (k < i / B)%nat ∧ p = merged_path o r k) →
    ∃ fs' next' acc',
      Some (fs, Ok next) = Some (fs', Ok next') ∧
      Forall2 (holds_lines fs' h) next' acc' ∧
      (∀ out, merged acc' out → merged (acc ++ drop i ds) out) ∧
      (∀ p, p ∈ next' → p ∈ paths ∨ ∃ k, p = merged_path o r k) ∧
      length next' = (length next + 0)%nat ∧
      (∀ p, (∀ k, p ≠ merged_path o r k) → fs' !! p = fs !! p)) as Hdone.
  { intros i next acc fs Hi Hpaths Hnext Hin. exists fs, next, acc.
    split_and!; [done|done| |naive_solver|lia|done].
    intros out. rewrite drop_ge, app_nil_r; [done|].
    apply Forall2_length in Hpaths. lia. }
  induction fuel as [|fuel IH]; intros i next acc fs Hfuel Hpaths Hnext Hin.
  { simpl. apply Hdone; [lia|done..]. }
  simpl. destruct (Nat.ltb_spec i (length paths)) as [Hlt|Hge]; [|by apply Hdone].
  cbn [merge_round length].
  pose proof (Forall2_take _ _ _ B (Forall2_drop _ _ _ i Hpaths)) as Hb.
  assert (drop i ds = take B (drop i ds) ++ drop (i + B) ds) as Hdrop.
  { by rewrite <- (take_drop B (drop i ds)) at 1; rewrite drop_drop. }
  assert (∀ p, p ∈ take B (drop i paths) → p ∈ paths) as Hsub.
  { intros p Hp. by apply (subseteq_drop i), (subseteq_take B). }
  assert (((i + B) / B = S (i / B))%nat) as Hdiv.
  { replace (i + B)%nat with (i + 1 * B)%nat by lia. rewrite Nat.div_add by lia. lia. }
  destruct (take B (drop i paths)) as [|p [|q rest]] eqn:Hbatch.
  - apply (f_equal length) in Hbatch. rewrite length_take, length_drop in Hbatch.
    simpl in Hbatch. lia.
  - apply Forall2_cons_inv_l in Hb as (d & ds' & Hd & ->%Forall2_nil_inv_l & Hds).
    destruct (IH (i + B)%nat (next ++ [p]) (acc ++ [d]) fs)
      as (fs' & next' & acc' & Hr & Hall & Hm & Hin' & Hlen & Hag).
    + lia.
    + done.
    + apply Forall2_app; [done|]. constructor; [done|constructor].
    + intros p' [Hp'|Hp']%elem_of_app; [|apply list_elem_of_singleton in Hp' as ->].
      * destruct (Hin _ Hp') as [?|(k & ? & ->)]; [by left|]. right. exists k. split; [lia|done].
      * left. apply Hsub. left.
    + exists fs', next', acc'. split_and!; [done|done| |done| |done].
      * intros out Hout. apply Hm in Hout. by rewrite Hdrop, Hds, app_assoc.
      * rewrite Hlen, length_app. simpl. lia.
  - assert (p :: q :: rest ≠ []) as Hne by done.
    destruct (merge_batch_merged fs h _ _ (merged_path o r (i / B)) Hne Hb)
      as (outb & Hmb & Hmerged).
    rewrite Hmb. cbn [mbind option_bind].
    set (fs1 := <[merged_path o r (i / B) := h +:+ join outb]> fs).
    assert (holds_lines fs1 h (merged_path o r (i / B)) outb) as Hnew.
    { split_and!.
      - unfold fs1. by rewrite lookup_insert_eq.
      - by apply Forall2_cons_inv_l in Hb as (? & ? & (_ & ? & _) & _).
      - eapply merged_line_ok; [done|]. by eapply holds_lines_ok. }
    destruct (IH (i + B)%nat (next ++ [merged_path o r (i / B)]) (acc ++ [outb]) fs1)
      as (fs' & next' & acc' & Hr & Hall & Hm & Hin' & Hlen & Hag).
    + lia.
    + apply Forall2_holds_insert; [|done]. intros p' Hp'. by apply Hfresh.
    + apply Forall2_app; [|constructor; [done|constructor]].
      apply Forall2_holds_insert; [|done]. intros p' Hp'.
      destruct (Hin _ Hp') as [?|(k & Hk & ->)]; [by apply Hfresh|].
      intros [_ ->]%merged_path_inj. lia.
    + intros p' [Hp'|Hp']%elem_of_app; [|apply list_elem_of_singleton in Hp' as ->].
      * destruct (Hin _ Hp') as [?|(k & ? & ->)]; [by left|]. right. exists k. split; [lia|done].
      * right. exists (i / B)%nat. split; [lia|done].
    + exists fs', next', acc'. split_and!; [done|done| |done| |].
      * intros out Hout. apply Hm in Hout. rewrite <- app_assoc in Hout.
        rewrite Hdrop. by eapply merged_replace.
      * rewrite Hlen, length_app. simpl. lia.
      * intros p' Hp'. rewrite Hag by done. unfold fs1. by rewrite lookup_insert_ne.
Qed.

End Round.

(** * All the rounds *)

Section Rounds.
Context (o h : string) (B : Z).
Hypothesis HB : 2 ≤ B.

Lemma py_range_pos n : py_range n B = Ok (range_from n 0 n (Z.to_nat B)).
Proof.
  unfold py_range. destruct (Z.eqb_spec B 0); [lia|].
  destruct (Z.ltb_spec B 0); [lia|done].
Qed.

Lemma merge_rounds_spec fuel : ∀ r paths ds (fs : filesystem),
  paths ≠ [] → (length paths ≤ fuel)%nat →
  Forall2 (holds_lines fs h) paths ds →
  (∀ p r' k, p ∈ paths → (r ≤ r')%nat → p ≠ merged_path o r' k) →
  ∃ fs' p d, merge_rounds fuel o B r paths fs = Some (fs', Ok [p]) ∧
    holds_lines fs' h p d ∧ merged ds d.
Proof.
  induction fuel as [|fuel IH]; intros r paths ds fs Hne Hfuel Hall Hfresh.
  { destruct paths; [done|simpl in Hfuel; lia]. }
  destruct (decide (length paths ≤ 1)%nat) as [Hone|Hmany].
  { destruct paths as [|p [|??]]; [done| |simpl in Hone; lia].
    apply Forall2_cons_inv_l in Hall as (d & ds' & Hd & ->%Forall2_nil_inv_l & ->).
    exists fs, p, d. split_and!; [done|done|apply merged_single]. }
  cbn [merge_rounds].
  destruct (Nat.leb_spec (length paths) 1) as [?|_]; [lia|].
  rewrite py_range_pos.
  destruct (merge_round_spec o h r (Z.to_nat B) paths ds ltac:(lia)
              ltac:(intros; by apply Hfresh) (length paths) 0%nat [] [] fs)
    as (fs' & next' & acc' & Hr & Hall' & Hm & Hin' & Hlen & Hag).
  { lia. }
  { done. }
  { constructor. }
  { by intros p ?%elem_of_nil. }
  rewrite Hr. cbn [mbind option_bind].
  pose proof (range_from_length_le (length paths) 0 (length paths) (Z.to_nat B)
                ltac:(lia) ltac:(lia)) as Hle.
  assert (0 < length (range_from (length paths) 0 (length paths) (Z.to_nat B)))%nat as Hpos.
  { destruct (length paths) as [|n] eqn:Hn; [lia|]. apply range_from_nonempty. lia. }
  simpl in Hlen.
  destruct (IH (S r) next' acc' fs') as (fs'' & p & d & Hrs & Hp & Hmd).
  - intros ->. simpl in Hlen. lia.
  - lia.
  - done.
  - intros p r' k Hp Hr'. destruct (Hin' _ Hp) as [?|[k' ->]].
    + apply Hfresh; [done|lia].
    + intros [-> _]%merged_path_inj. lia.
  - exists fs'', p, d. split_and!; [done..|]. by apply Hm.
Qed.

Lemma multi_pass_merge_spec fuel paths ds (fs : filesystem) :
  paths ≠ [] → (length paths ≤ fuel)%nat →
  Forall2 (holds_lines fs h) paths ds →
  (∀ p r k, p ∈ paths → p ≠ merged_path o r k) →
  ∃ fs' d, multi_pass_merge fuel paths o B fs = Some (fs', None) ∧
    fs' !! o = Some (h +:+ join d) ∧ complete_line h = true ∧
    Forall line_ok d ∧ merged ds d.
Proof.
  intros Hne Hfuel Hall Hfresh. unfold multi_pass_merge.
  destruct (merge_rounds_spec fuel 0 paths ds fs Hne Hfuel Hall)
    as (fs' & p & d & -> & (Hp & Hh & Hd) & Hm).
  { intros p r k Hp _. by apply Hfresh. }
  cbn [mbind option_bind]. unfold shutil_move. rewrite Hp.
  eexists _, d. split; [done|]. split_and!; [|done..]. by rewrite lookup_insert_eq.
Qed.

End Rounds.

(** * Reading back what was written *)

Lemma lines_ok_complete d : Forall line_ok d → Forall (λ l, complete_line l = true) d.
Proof. intros H. eapply Forall_impl; [exact H|]. by intros ? [? _]. Qed.

Lemma readlines_written h d :
  complete_line h = true → Forall line_ok d → readlines (h +:+ join d) = h :: d.
Proof.
  intros Hh Hd. apply (readlines_join (h :: d)). constructor; [done|].
  by apply lines_ok_complete.
Qed.

Lemma data_lines_written h d :
  complete_line h = true → Forall line_ok d → data_lines (h +:+ join d) = d.
Proof. intros. unfold data_lines. by rewrite readlines_written. Qed.

Lemma header_line_written h d :
  complete_line h = true → header_line (h +:+ join d) = h.
Proof. intros. unfold header_line. by rewrite complete_line_readline. Qed.

(** * Termination *)

Section Total.
Implicit Types (files : list string) (heap : list entry) (fs : filesystem).

Lemma sum_length_insert files i t t' :
  files !! i = Some t →
  (sum_list (String.length <$> <[i := t']> files) + String.length t
   = sum_list (String.length <$> files) + String.length t')%nat.
Proof.
  revert i. induction files as [|f files IH]; intros [|i] Hi; simplify_eq/=; [lia|].
  specialize (IH _ Hi). lia.
Qed.

Lemma drain_total fuel : ∀ files heap,
  (∀ e, e ∈ heap → (entry_idx e < length files)%nat) →
  (length heap + sum_list (String.length <$> files) ≤ fuel)%nat →
  is_Some (drain fuel files heap).
Proof.
  induction fuel as [|fuel IH]; intros files heap Hidx Hfuel.
  { destruct heap; [by eexists|simpl in Hfuel; lia]. }
  destruct heap as [|m h]; [by eexists|].
  cbn [drain heappop].
  destruct (pop_min m h) as [[[k i] l] heap'] eqn:Hpop.
  pose proof (pop_min_perm _ _ _ _ Hpop) as Hperm.
  assert (length heap' = length h) as Hlen.
  { apply Permutation_length in Hperm. simpl in Hperm. lia. }
  assert (∀ e, e ∈ (k, i, l) :: heap' → (entry_idx e < length files)%nat) as Hidx'.
  { intros e He. apply Hidx. by rewrite Hperm. }
  assert (i < length files)%nat as Hi by (apply (Hidx' (k, i, l)); left).
  destruct (lookup_lt_is_Some_2 _ _ Hi) as [text Htext]. rewrite Htext.
  pose proof (sum_length_insert files i text) as Hsum.
  destruct text as [|c s].
  - cbn [Py.readline Py.truthy].
    destruct (IH (<[i := EmptyString]> files) heap') as [[out err] ->]; [| |by eexists].
    + intros e He. rewrite length_insert. apply Hidx'. by right.
    + specialize (Hsum EmptyString Htext). simpl in *. lia.
  - pose proof (readline_truthy c s) as Ht.
    pose proof (readline_rest_length c s) as Hr.
    destruct (Py.readline (String c s)) as [next_line rest]. simpl in Ht, Hr.
    rewrite Ht. destruct (parse_key next_line) as [key|e]; [|by eexists].
    destruct (IH (<[i := rest]> files) (heappush heap' (key, i, next_line)))
      as [[out err] ->]; [| |by eexists].
    + intros e [->|He]%elem_of_cons; rewrite length_insert; [done|].
      apply Hidx'. by right.
    + specialize (Hsum rest Htext). unfold heappush. simpl in *. lia.
Qed.

Lemma open_inputs_idx fs : ∀ paths idx st st',
  open_inputs fs idx paths st = Ok st' → idx = length (files st) →
  (∀ e, e ∈ heap st → (entry_idx e < length (files st))%nat) →
  ∀ e, e ∈ heap st' → (entry_idx e < length (files st'))%nat.
Proof.
  induction paths as [|path paths IH]; intros idx st st'; simpl.
  { by intros [= ->]. }
  destruct (fs !! path) as [text|]; [|done].
  destruct (Py.readline text) as [file_header rest].
  destruct (match header st with
            | Some h0 => if decide (file_header = h0) then Ok h0
                         else Raise (RuntimeError_header_mismatch path)
            | None => Ok file_header
            end) as [hdr|]; [|done].
  cbn [bind]. destruct (Py.readline rest) as [line rest'].
  destruct (Py.truthy line).
  - destruct (parse_key line) as [key|]; [|done]. cbn [bind].
    intros Hopen -> Hidx. eapply IH; [exact Hopen|..]; simpl.
    + rewrite length_app. simpl. lia.
    + intros e [->|He]%elem_of_cons; rewrite length_app; simpl.
      * unfold entry_idx. simpl. lia.
      * specialize (Hidx _ He). lia.
  - intros Hopen -> Hidx. eapply IH; [exact Hopen|..]; simpl.
    + rewrite length_app. simpl. lia.
    + intros e He. rewrite length_app. specialize (Hidx _ He). lia.
Qed.

Lemma merge_batch_total paths o fs : is_Some (merge_batch paths o fs).
Proof.
  unfold merge_batch.
  destruct (open_inputs fs 0 paths (Opened [] [] None)) as [st|e] eqn:Hopen; [|by eexists].
  destruct (header st); [|by eexists].
  destruct (drain_total (drain_fuel (files st) (heap st)) (files st) (heap st))
    as [[out err] ->]; [| |by eexists].
  - eapply open_inputs_idx; [exact Hopen|done|]. by intros e ?%elem_of_nil.
  - unfold drain_fuel. lia.
Qed.

Lemma merge_round_total o r B paths : ∀ starts next fs,
  ∃ fs' res, merge_round o r B paths starts next fs = Some (fs', res) ∧
    ∀ next', res = Ok next' → length next' = (length next + length starts)%nat.
Proof.
  induction starts as [|i starts IH]; intros next fs.
  { exists fs, (Ok next). split; [done|]. intros ? [= <-]. simpl. lia. }
  cbn [merge_round].
  assert (∀ batch, (∀ p, batch ≠ [p]) →
    ∃ fs' res,
      ('(fs', err) ← merge_batch batch (merged_path o r (i / B)%nat) fs;
       match err with
       | Some e => Some (fs', Raise e)
       | None => merge_round o r B paths starts
                   (next ++ [merged_path o r (i / B)%nat]) fs'
       end) = Some (fs', res) ∧
      ∀ next', res = Ok next' → length next' = (length next + S (length starts))%nat)
    as Hmerge.
  { intros batch _.
    destruct (merge_batch_total batch (merged_path o r (i / B)%nat) fs) as [[fs1 [e|]] ->];
      cbn [mbind option_bind].
    - eexists _, _. split; [done|]. by intros.
    - destruct (IH (next ++ [merged_path o r (i / B)%nat]) fs1) as (fs' & res & -> & Hlen).
      exists fs', res. split; [done|]. intros next' Hn. rewrite (Hlen _ Hn), length_app.
      simpl. lia. }
  destruct (take B (drop i paths)) as [|p [|q rest]].
  - by apply Hmerge.
  - destruct (IH (next ++ [p]) fs) as (fs' & res & -> & Hlen).
    exists fs', res. split; [done|]. intros next' Hn. rewrite (Hlen _ Hn), length_app.
    simpl. lia.
  - by apply Hmerge.
Qed.

Lemma merge_rounds_total o (B : Z) fuel : 2 ≤ B → ∀ r paths fs,
  (length paths ≤ fuel)%nat →
  ∃ fs' res, merge_rounds fuel o B r paths fs = Some (fs', res) ∧
    ∀ ps, res = Ok ps → (length ps ≤ 1)%nat ∧ (paths ≠ [] → ps ≠ []).
Proof.
  intros HB. induction fuel as [|fuel IH]; intros r paths fs Hfuel.
  { destruct paths; [|simpl in Hfuel; lia]. exists fs, (Ok []). split; [done|].
    intros ? [= <-]. split; [simpl; lia|done]. }
  cbn [merge_rounds]. destruct (Nat.leb_spec (length paths) 1) as [Hone|Hmany].
  { exists fs, (Ok paths). split; [done|]. by intros ? [= <-]. }
  rewrite py_range_pos by done.
  destruct (merge_round_total o r (Z.to_nat B) paths
              (range_from (length paths) 0 (length paths) (Z.to_nat B)) [] fs)
    as (fs1 & res & -> & Hlen).
  cbn [mbind option_bind]. destruct res as [next|e].
  - specialize (Hlen _ eq_refl). simpl in Hlen.
    pose proof (range_from_length_le (length paths) 0 (length paths) (Z.to_nat B)
                  ltac:(lia) ltac:(lia)) as Hle.
    assert (0 < length (range_from (length paths) 0 (length paths) (Z.to_nat B)))%nat.
    { destruct (length paths) as [|n] eqn:Hn; [lia|]. apply range_from_nonempty. lia. }
    destruct (IH (S r) next fs1) as (fs' & res & -> & Hres); [lia|].
    exists fs', res. split; [done|]. intros ps Hps. destruct (Hres _ Hps) as [? Hne].
    split; [done|]. intros _. apply Hne. intros ->. simpl in Hlen. lia.
  - eexists _, _. split; [done|]. by intros.
Qed.

End Total.

(** * Hypotheses of the statements, unfolded *)

Section Hyps.
Implicit Types (fs : filesystem) (paths : list string).

Lemma starts_with_app pre t : starts_with pre (pre +:+ t) = true.
Proof.
  induction pre as [|c pre IH]; [done|].
  rewrite app_cons. simpl. by rewrite Ascii.eqb_refl, IH.
Qed.

Lemma fresh_names_fresh o paths :
  fresh_names o paths = true → ∀ p r k, p ∈ paths → p ≠ merged_path o r k.
Proof.
  unfold fresh_names. rewrite forallb_forall. intros H p r k Hp ->.
  apply list_elem_of_In, H, negb_true_iff in Hp.
  unfold merged_path in Hp. rewrite <- app_assoc_str, starts_with_app in Hp. done.
Qed.

Lemma sources_sorted_strongly fs paths :
  sources_sorted fs paths = true →
  Forall (StronglySorted line_le) (source_lines fs paths).
Proof.
  unfold sources_sorted. rewrite forallb_forall. intros H. apply Forall_forall.
  intros d Hd. apply sorted_lines_strongly, H. by apply list_elem_of_In.
Qed.

Lemma sorted_in_key_order ls :
  Forall line_ok ls → StronglySorted line_le ls → in_key_order ls.
Proof.
  intros Hok Hs i e1 e2 H1 H2.
  pose proof (sorted_adjacent _ _ _ _ Hs H1 H2) as Hle.
  rewrite Forall_forall in Hok.
  destruct (Hok e1) as [_ Hp1]; [by eapply list_elem_of_lookup_2|].
  destruct (Hok e2) as [_ Hp2]; [by eapply list_elem_of_lookup_2|].
  apply parses_key in Hp1, Hp2. unfold line_le, key_le in Hle.
  destruct (key_of e1) as [c1 s1], (key_of e2) as [c2 s2].
  by exists c1, s1, c2, s2.
Qed.


End Hyps.

(** * The first loop of [merge_batch] and the headers *)

Section Headers.
Implicit Types (fs : filesystem) (paths : list string).



End Headers.

(** * The normalizers *)

Section Validate.
Context (nm : Z → Z → exn) (inner_path : string) (only_channel : option Z).
Implicit Types (v : validator) (r : row).

Lemma filter_passes r c :
  passes_filter only_channel r c →
  match only_channel with Some c' => negb (c =? c') | None => false end = false.
Proof. intros [_ [->| ->]]; [done|]. by rewrite Z.eqb_refl. Qed.

Lemma validate_skipped v r :
  skipped_by_filter only_channel r → validate_row nm inner_path only_channel v r = Ok None.
Proof.
  intros (channel & c & Hc & -> & Hne). unfold validate_row. rewrite Hc. cbn [bind].
  destruct (Z.eqb_spec channel c); done.
Qed.


Lemma validate_decrease v r c s p :
  passes_filter only_channel r c → channel_seen v = Some c →
  int_item r "ApplSeqNum" = Ok s → prev_seq v = Some p → s < p →
  validate_row nm inner_path only_channel v r = Raise (nm s p).
Proof.
  intros Hp Hseen Hs Hprev Hlt. unfold validate_row. rewrite (proj1 Hp). cbn [bind].
  rewrite (filter_passes _ _ Hp), Hseen, Z.eqb_refl. cbn [negb bind].
  rewrite Hs. cbn [bind]. rewrite Hprev.
  destruct (Z.ltb_spec s p); [done|lia].
Qed.

Lemma validate_not_decreasing v r c s p :
  passes_filter only_channel r c → channel_seen v = Some c →
  int_item r "ApplSeqNum" = Ok s → prev_seq v = Some p → p ≤ s →
  validate_row nm inner_path only_channel v r = Ok (Some (c, s, c)).
Proof.
  intros Hp Hseen Hs Hprev Hle. unfold validate_row. rewrite (proj1 Hp). cbn [bind].
  rewrite (filter_passes _ _ Hp), Hseen, Z.eqb_refl. cbn [negb bind].
  rewrite Hs. cbn [bind]. rewrite Hprev.
  destruct (Z.ltb_spec s p); [lia|done].
Qed.



Lemma validate_accepted v r channel seq seen :
  validate_row nm inner_path only_channel v r = Ok (Some (channel, seq, seen)) →
  passes_filter only_channel r channel ∧ seen = channel ∧
  int_item r "ApplSeqNum" = Ok seq ∧
  (channel_seen v = None ∨ channel_seen v = Some channel) ∧
  (∀ p, prev_seq v = Some p → p ≤ seq).
Proof.
  unfold validate_row, passes_filter.
  destruct (int_item r "ChannelNo") as [c|]; [|done]. cbn [bind].
  destruct only_channel as [c'|].
  - destruct (Z.eqb_spec c c') as [->|]; [|done]. cbn [negb].
    destruct (channel_seen v) as [c1|].
    + destruct (Z.eqb_spec c1 c') as [->|]; [|done]. cbn [negb bind].
      destruct (int_item r "ApplSeqNum") as [s|]; [|done]. cbn [bind].
      destruct (prev_seq v) as [p|].
      * destruct (Z.ltb_spec s p); [done|]. intros [= <- <- <-].
        split_and!; auto. intros ? [= <-]. done.
      * intros [= <- <- <-]. split_and!; auto. done.
    + cbn [bind]. destruct (int_item r "ApplSeqNum") as [s|]; [|done]. cbn [bind].
      destruct (prev_seq v) as [p|].
      * destruct (Z.ltb_spec s p); [done|]. intros [= <- <- <-].
        split_and!; auto. intros ? [= <-]. done.
      * intros [= <- <- <-]. split_and!; auto. done.
  - destruct (channel_seen v) as [c1|].
    + destruct (Z.eqb_spec c1 c) as [->|]; [|done]. cbn [negb bind].
      destruct (int_item r "ApplSeqNum") as [s|]; [|done]. cbn [bind].
      destruct (prev_seq v) as [p|].
      * destruct (Z.ltb_spec s p); [done|]. intros [= <- <- <-].
        split_and!; auto. intros ? [= <-]. done.
      * intros [= <- <- <-]. split_and!; auto. done.
    + cbn [bind]. destruct (int_item r "ApplSeqNum") as [s|]; [|done]. cbn [bind].
      destruct (prev_seq v) as [p|].
      * destruct (Z.ltb_spec s p); [done|]. intros [= <- <- <-].
        split_and!; auto. intros ? [= <-]. done.
      * intros [= <- <- <-]. split_and!; auto. done.
Qed.

End Validate.

Section Bodies.
Context (f : family) (inner_path symbol : string) (only_channel : option Z).
Implicit Types (v : validator) (r : row).

Lemma body_raise v r e :
  validate_row (not_monotonic f inner_path) inner_path only_channel v r = Raise e →
  row_body f inner_path symbol only_channel v r = Raise e.
Proof. intros H. destruct f; unfold row_body, order_row, tick_row; simpl in *; by rewrite H. Qed.

Lemma body_skip v r :
  validate_row (not_monotonic f inner_path) inner_path only_channel v r = Ok None →
  row_body f inner_path symbol only_channel v r = Ok None.
Proof. intros H. destruct f; unfold row_body, order_row, tick_row; simpl in *; by rewrite H. Qed.

Lemma body_wrote v r v' cells :
  row_body f inner_path symbol only_channel v r = Ok (Some (v', cells)) →
  ∃ channel seq,
    validate_row (not_monotonic f inner_path) inner_path only_channel v r
      = Ok (Some (channel, seq, channel)) ∧
    v' = Validator (Some channel) (Some seq) (S (row_count v)).
Proof.
  destruct f; unfold row_body, order_row, tick_row; simpl;
    destruct (validate_row _ inner_path only_channel v r) as [[[[c s] seen]|]|] eqn:Hv;
    try done; cbn [bind];
    apply validate_accepted in Hv as (_ & -> & _);
    repeat (match goal with
            | |- context [getitem r ?k] => destruct (getitem r k); [|done]; cbn [bind]
            end);
    intros [= <- _]; by exists c, s.
Qed.

End Bodies.

(** * The row loop *)

Section RowLoop.
Context (E : os_env).
Implicit Types (v : validator) (r : row) (rows : list row).

Lemma write_rows_app body pre rest v :
  write_rows E body (pre ++ rest) v =
  let '(t1, v1, e1) := write_rows E body pre v in
  match e1 with
  | Some e => (t1, v1, Some e)
  | None => let '(t2, v2, e2) := write_rows E body rest v1 in (t1 +:+ t2, v2, e2)
  end.
Proof.
  revert v. induction pre as [|r pre IH]; intros v; simpl.
  { by destruct (write_rows E body rest v) as [[??]?]. }
  destruct (body v r) as [[[v' cells]|]|e]; [|by apply IH|done].
  rewrite IH. destruct (write_rows E body pre v') as [[t1 v1] [e|]]; [done|].
  destruct (write_rows E body rest v1) as [[t2 v2] e2]. by rewrite app_assoc_str.
Qed.


Lemma write_rows_skipped body skipped rest v :
  Forall (λ r, body v r = Ok None) skipped →
  write_rows E body (skipped ++ rest) v = write_rows E body rest v.
Proof. induction 1 as [|r skipped Hr _ IH]; [done|]. simpl. by rewrite Hr. Qed.

Lemma write_events_raises body archive_path inner_path out_path fs rows failure text v e :
  stream_csv_rows E archive_path inner_path = (rows, failure) →
  write_rows E body rows (Validator None None 0) = (text, v, Some e) →
  write_events E body archive_path inner_path out_path fs
    = (<[out_path := writerow E (CStr <$> EVENT_HEADER) +:+ text]> fs, Raise e).
Proof. intros Hs Hw. unfold write_events. by rewrite Hs, Hw. Qed.

Lemma write_family_events_unfold f archive_path inner_path out_path only_channel fs :
  write_family_events E f archive_path inner_path out_path only_channel fs =
  write_events E (row_body f inner_path (symbol_of E inner_path) only_channel)
    archive_path inner_path out_path fs.
Proof. by destruct f. Qed.

Lemma channel_seen_kept f inner_path symbol only_channel rows v t v' c :
  write_rows E (row_body f inner_path symbol only_channel) rows v = (t, v', None) →
  channel_seen v = Some c → channel_seen v' = Some c.
Proof.
  revert v t. induction rows as [|r rows IH]; intros v t; simpl.
  { by intros [= _ <-]. }
  destruct (row_body f inner_path symbol only_channel v r) as [[[v1 cells]|]|e] eqn:Hb;
    [|by apply IH|done].
  destruct (write_rows E _ rows v1) as [[t1 v2] err] eqn:Hw.
  intros [= _ <- ->] Hseen.
  apply body_wrote in Hb as (channel & seq & Hv & ->).
  apply validate_accepted in Hv as (_ & _ & _ & [Hnone|Hsome] & _); [congruence|].
  eapply IH; [exact Hw|]. simpl. congruence.
Qed.

End RowLoop.

(** * [build_event_files] and [main] *)

Section Driver.
Context (E : os_env).

Lemma build_loop_app archive_path kind out_dir limit regex only_channel pre rest :
  ∀ acc count fs fs1 acc1,
    build_loop E archive_path kind out_dir limit regex only_channel pre acc count fs
      = (fs1, Ok acc1) →
    count = Z.of_nat (length acc) →
    (∀ l, limit = Some l → Z.of_nat (length acc1) < l) →
    build_loop E archive_path kind out_dir limit regex only_channel (pre ++ rest) acc count fs
    = build_loop E archive_path kind out_dir limit regex only_channel rest acc1
        (Z.of_nat (length acc1)) fs1.
Proof.
  induction pre as [|p pre IH]; intros acc count fs fs1 acc1; simpl.
  { by intros [= <- <-] ->. }
  destruct (match regex with
            | Some pattern => Py.truthy pattern && negb (re_search E pattern (symbol_of E p))
            | None => false
            end); [by apply IH|].
  destruct (if String.eqb kind "order"
            then write_order_events E archive_path p
                   (event_path E out_dir kind (symbol_of E p)) only_channel fs
            else write_tick_events E archive_path p
                   (event_path E out_dir kind (symbol_of E p)) only_channel fs)
    as [fs' [[channel|]|e]]; [|by apply IH|done].
  intros Hloop Hcount Hlimit.
  destruct (match limit with
            | Some l => l <=? count + 1
            | None => false
            end) eqn:Hl.
  - injection Hloop as <- <-. destruct limit as [l|]; [|done].
    specialize (Hlimit l eq_refl). rewrite length_app in Hlimit. simpl in Hlimit.
    apply Z.leb_le in Hl. lia.
  - apply IH; [done| |done]. rewrite length_app. simpl. lia.
Qed.

Lemma build_event_files_raises f archive_path out_dir limit regex only_channel
    inner_path fs fs1 fs2 e :
  reaches E archive_path (kind_name f) out_dir limit regex only_channel inner_path fs fs1 →
  write_family_events E f archive_path inner_path
    (event_path E out_dir (kind_name f) (symbol_of E inner_path)) only_channel fs1
    = (fs2, Raise e) →
  build_event_files E archive_path (kind_name f) out_dir limit regex only_channel fs
    = (fs2, Raise e).
Proof.
  intros (pre & post & acc1 & Hlist & Hpre & Hlimit & Hregex) Hwrite.
  unfold build_event_files.
  assert (negb (String.eqb (kind_name f) "order" || String.eqb (kind_name f) "tick") = false)
    as -> by (by destruct f).
  rewrite Hlist, (build_loop_app _ _ _ _ _ _ _ _ _ _ _ _ _ Hpre eq_refl Hlimit).
  simpl.
  assert (match regex with
          | Some pattern =>
              Py.truthy pattern && negb (re_search E pattern (symbol_of E inner_path))
          | None => false
          end = false) as ->.
  { by destruct regex. }
  assert ((if String.eqb (kind_name f) "order"
           then write_order_events E archive_path inner_path
                  (event_path E out_dir (kind_name f) (symbol_of E inner_path))
                  only_channel fs1
           else write_tick_events E archive_path inner_path
                  (event_path E out_dir (kind_name f) (symbol_of E inner_path))
                  only_channel fs1) = (fs2, Raise e)) as ->; [|done].
  by destruct f.
Qed.

Lemma main_unfold a fs :
  main E a fs =
  '(fs', err) ← main_body E a (temp_root_of E a fs) fs;
  Some (finally_cleanup E a fs fs', err).
Proof.
  unfold main, temp_root_of, finally_cleanup. destruct (work_dir a); [done|].
  destruct (main_body E a (mkdtemp E fs) fs) as [[fs' err]|]; [|done]. simpl.
  by destruct (keep_temp a).
Qed.

(** An exception of a normalizer ends [main]: no merge is called, and the
    file system is the one the normalizers left. *)
Lemma source_failure_aborts_main a f inner_path fs fs0 fs1 fs2 e :
  normalized_before E a (temp_root_of E a fs) f fs fs0 →
  reaches E (archive_of a f) (kind_name f) (events_dir E (temp_root_of E a fs) f)
    (limit_files a) (symbol_regex a) (channel a) inner_path fs0 fs1 →
  write_family_events E f (archive_of a f) inner_path
    (event_path E (events_dir E (temp_root_of E a fs) f) (kind_name f)
       (symbol_of E inner_path)) (channel a) fs1 = (fs2, Raise e) →
  main E a fs = Some (finally_cleanup E a fs fs2, Some e).
Proof.
  intros Hbefore Hreach Hwrite. rewrite main_unfold.
  pose proof (build_event_files_raises _ _ _ _ _ _ _ _ _ _ _ Hreach Hwrite) as Hbuild.
  unfold main_body. destruct f; simpl in Hbefore, Hbuild.
  - subst fs0. unfold events_dir, kind_name in Hbuild.
    change ("order" +:+ "_events") with "order_events" in Hbuild. by rewrite Hbuild.
  - destruct Hbefore as [order_paths Horder].
    unfold events_dir, kind_name in Horder, Hbuild.
    change ("order" +:+ "_events") with "order_events" in Horder.
    change ("tick" +:+ "_events") with "tick_events" in Hbuild.
    by rewrite Horder, Hbuild.
Qed.

End Driver.

(** * The merge: statements of the specification *)

Section MergeClaims.
Implicit Types (fs : filesystem) (paths : list string) (o h : string).

(** Both ways of merging event files succeed and write a file whose
    data lines are a stable merge of the sources. *)
Lemma merges_written fs h paths o :
  paths ≠ [] → event_files fs h paths = true →
  (∃ fs' d, merge_batch paths o fs = Some (fs', None) ∧
     fs' !! o = Some (h +:+ join d) ∧ data_lines (h +:+ join d) = d ∧
     Forall line_ok d ∧ merged (source_lines fs paths) d) ∧
  (∀ B fuel, 2 ≤ B → (length paths ≤ fuel)%nat → fresh_names o paths = true →
     ∃ fs' d, multi_pass_merge fuel paths o B fs = Some (fs', None) ∧
       fs' !! o = Some (h +:+ join d) ∧ data_lines (h +:+ join d) = d ∧
       Forall line_ok d ∧ merged (source_lines fs paths) d).
Proof.
  intros Hne Hev. pose proof (event_files_holds _ _ _ Hev) as Hall.
  pose proof (holds_lines_ok _ _ _ _ Hall) as Hok.
  assert (complete_line h = true) as Hh.
  { destruct Hall as [|???? (_ & ? & _) _]; done. }
  split.
  - destruct (merge_batch_merged fs h paths _ o Hne Hall) as (d & Hmb & Hm).
    pose proof (merged_line_ok _ _ Hm Hok) as Hd.
    eexists _, d. split_and!; [done| |by apply data_lines_written|done|done].
    by rewrite lookup_insert_eq.
  - intros B fuel HB Hfuel Hfresh.
    destruct (multi_pass_merge_spec o h B HB fuel paths _ fs Hne Hfuel Hall)
      as (fs' & d & Hmp & Ho & _ & Hd & Hm).
    { intros p r k Hp. by apply (fresh_names_fresh o paths). }
    exists fs', d. split_and!; [done|done|by apply data_lines_written|done|done].
Qed.







(** C9.  For a non-empty list of paths and a budget [B >= 2] (the driver
    passes [max(2, requested)]), [multi_pass_merge] terminates: [length
    paths] rounds are enough; a round maps a list of more than one path
    to a shorter, non-empty list; when no exception is raised exactly one
    path remains and is moved to the output path; and a list of one path
    is moved there at once, without any merge. *)
Theorem multi_pass_merge_terminates fs paths o B fuel :
  paths ≠ [] → 2 ≤ B → (length paths ≤ fuel)%nat →
  (∃ res, multi_pass_merge fuel paths o B fs = Some res) ∧
  (∀ requested, ∃ res, multi_pass_merge fuel paths o (Z.max 2 requested) fs = Some res) ∧
  (∀ r ps fs1 fs2 next, (1 < length ps)%nat →
     merge_round o r (Z.to_nat B) ps
       (range_from (length ps) 0 (length ps) (Z.to_nat B)) [] fs1 = Some (fs2, Ok next) →
     (0 < length next < length ps)%nat) ∧
  (∀ fs', multi_pass_merge fuel paths o B fs = Some (fs', None) →
     ∃ fs1 p, merge_rounds fuel o B 0 paths fs = Some (fs1, Ok [p]) ∧
       shutil_move p o fs1 = (fs', None)) ∧
  (∀ p fuel', multi_pass_merge fuel' [p] o B fs = Some (shutil_move p o fs)).
Proof.
  intros Hne HB Hfuel.
  assert (∀ B', 2 ≤ B' → ∃ res, multi_pass_merge fuel paths o B' fs = Some res) as Hterm.
  { intros B' HB'. unfold multi_pass_merge.
    destruct (merge_rounds_total o B' fuel HB' 0 paths fs Hfuel) as (fs1 & res & -> & _).
    cbn [mbind option_bind]. destruct res as [[|p ps]|e]; by eexists. }
  split_and!.
  - by apply Hterm.
  - intros requested. apply Hterm. lia.
  - intros r ps fs1 fs2 next Hps Hround.
    destruct (merge_round_total o r (Z.to_nat B) ps
                (range_from (length ps) 0 (length ps) (Z.to_nat B)) [] fs1)
      as (fs2' & res & Hr & Hlen).
    rewrite Hround in Hr. injection Hr as <- <-. specialize (Hlen _ eq_refl).
    simpl in Hlen. rewrite Hlen.
    pose proof (range_from_length_le (length ps) 0 (length ps) (Z.to_nat B)
                  ltac:(lia) ltac:(lia)).
    assert (0 < length (range_from (length ps) 0 (length ps) (Z.to_nat B)))%nat.
    { destruct (length ps) as [|n] eqn:Hn; [lia|]. apply range_from_nonempty. lia. }
    lia.
  - intros fs'. unfold multi_pass_merge.
    destruct (merge_rounds_total o B fuel HB 0 paths fs Hfuel) as (fs1 & res & -> & Hres).
    cbn [mbind option_bind]. destruct res as [ps|e]; [|done].
    destruct (Hres _ eq_refl) as [Hlen Hps]. specialize (Hps Hne).
    destruct ps as [|p [|??]]; [done| |simpl in Hlen; lia].
    intros [= Hmove]. by exists fs1, p.
  - intros p fuel'. unfold multi_pass_merge. by destruct fuel'.
Qed.

Lemma multi_pass_merge_terminates_witness :
  (∃ res, multi_pass_merge 3 sample_paths "out.csv" 2 sample_fs = Some res) ∧
  (∀ requested, ∃ res,
     multi_pass_merge 3 sample_paths "out.csv" (Z.max 2 requested) sample_fs = Some res) ∧
  (∀ r ps fs1 fs2 next, (1 < length ps)%nat →
     merge_round "out.csv" r (Z.to_nat 2) ps
       (range_from (length ps) 0 (length ps) (Z.to_nat 2)) [] fs1 = Some (fs2, Ok next) →
     (0 < length next < length ps)%nat) ∧
  (∀ fs', multi_pass_merge 3 sample_paths "out.csv" 2 sample_fs = Some (fs', None) →
     ∃ fs1 p, merge_rounds 3 "out.csv" 2 0 sample_paths sample_fs = Some (fs1, Ok [p]) ∧
       shutil_move p "out.csv" fs1 = (fs', None)) ∧
  (∀ p fuel', multi_pass_merge fuel' [p] "out.csv" 2 sample_fs
              = Some (shutil_move p "out.csv" sample_fs)).
Proof.
  apply (multi_pass_merge_terminates sample_fs sample_paths "out.csv" 2 3).
  - discriminate.
  - lia.
  - simpl. lia.
Defined.



End MergeClaims.

(** * The normalizers: statements of the specification *)

Section NormalizerClaims.

(** C4.  A tick row that passes the channel filter and the validation is
    written with the event kind [TRADE] when its [ExecType] is ["F"],
    [CANCEL] when it is ["4"], and [TICK] for every other value; the
    expression of the Polars script computes the same kind. *)
Theorem tick_event_kind inner_path symbol only_channel v r v' cells :
  tick_row inner_path symbol only_channel v r = Ok (Some (v', cells)) →
  ∃ exec_type event,
    r !! "ExecType" = Some exec_type ∧
    cells !! 2%nat = Some (CStr event) ∧
    Polars.event_expr exec_type = event ∧
    (exec_type = Some "F" → event = "TRADE") ∧
    (exec_type = Some "4" → event = "CANCEL") ∧
    (exec_type ≠ Some "F" → exec_type ≠ Some "4" → event = "TICK").
Proof.
  unfold tick_row.
  destruct (validate_row _ inner_path only_channel v r) as [[[[c s] seen]|]|]; try done.
  cbn [bind]. unfold getitem at 1.
  destruct (r !! "ExecType") as [exec_type|] eqn:Hexec; [|done]. cbn [bind].
  repeat (match goal with
          | |- context [getitem r ?k] => destruct (getitem r k); [|done]; cbn [bind]
          end).
  intros [= _ <-]. exists exec_type, (tick_event exec_type).
  split_and!; [done|done|..].
  - unfold Polars.event_expr, Polars.col_eq, Polars.when_then_otherwise, tick_event.
    destruct exec_type as [e|]; [|done]. simpl.
    destruct (decide (e = "F")) as [->|Hf].
    + by rewrite decide_True.
    + rewrite bool_decide_eq_false_2, decide_False by congruence.
      destruct (decide (e = "4")) as [->|H4].
      * by rewrite decide_True.
      * by rewrite bool_decide_eq_false_2, decide_False by congruence.
  - intros ->. done.
  - intros ->. done.
  - intros Hf H4. unfold tick_event. by rewrite !decide_False.
Qed.

Lemma tick_event_kind_witness :
  ∃ exec_type event,
    tick_raw "2011" "7" "F" !! "ExecType" = Some exec_type ∧
    [CInt 2011; CInt 7; CStr "TRADE"; CStr "000001"; CStr EmptyString; CStr "1"; CStr "0";
     CStr EmptyString; CStr "10.5000"; CStr "100"; CStr "1050.0000"; CStr EmptyString; CStr "F";
     CStr "20240102093000020"; CStr "20240102093000030"; CStr "tick"] !! 2%nat
      = Some (CStr event) ∧
    Polars.event_expr exec_type = event ∧
    (exec_type = Some "F" → event = "TRADE") ∧
    (exec_type = Some "4" → event = "CANCEL") ∧
    (exec_type ≠ Some "F" → exec_type ≠ Some "4" → event = "TICK").
Proof.
  apply (tick_event_kind "SZ/000001.csv" "000001" None (Validator None None 0)
           (tick_raw "2011" "7" "F") (Validator (Some 2011) (Some 7) 1)).
  vm_compute. reflexivity.
Defined.

(** The state after a row that was written. *)
Lemma accepted_state f inner_path symbol only_channel v r v' cells c p :
  row_body f inner_path symbol only_channel v r = Ok (Some (v', cells)) →
  passes_filter only_channel r c → int_item r "ApplSeqNum" = Ok p →
  channel_seen v' = Some c ∧ prev_seq v' = Some p.
Proof.
  intros Hb [Hc _] Hp. apply body_wrote in Hb as (channel & seq & Hv & ->).
  apply validate_accepted in Hv as ([Hc' _] & _ & Hp' & _). simpl.
  split; congruence.
Qed.

Lemma skipped_rows_skipped f inner_path symbol only_channel v skipped :
  Forall (skipped_by_filter only_channel) skipped →
  Forall (λ r, row_body f inner_path symbol only_channel v r = Ok None) skipped.
Proof.
  intros H. eapply Forall_impl; [exact H|]. intros r Hr.
  by apply body_skip, validate_skipped.
Qed.

(** C5, the claim as it is written fails: in a source whose second row
    has a smaller sequence number than the first and another channel, the
    normalizer raises the channel error, not the monotonicity error. *)
Lemma decreasing_sequence_reported_as_channel_change :
  passes_filter None (order_raw "1" "5") 1 ∧ int_item (order_raw "1" "5") "ApplSeqNum" = Ok 5 ∧
  passes_filter None (order_raw "2" "3") 2 ∧ int_item (order_raw "2" "3") "ApplSeqNum" = Ok 3 ∧
  3 < 5 ∧
  (write_order_events (sample_env rows_two_channels []) "order.7z" "SZ/000001.csv"
     "work/order_000001.events.csv" None ∅).2
    = Raise (RuntimeError_multiple_channel "SZ/000001.csv" 1 2) ∧
  (write_order_events (sample_env rows_two_channels []) "order.7z" "SZ/000001.csv"
     "work/order_000001.events.csv" None ∅).2
    ≠ Raise (RuntimeError_order_not_monotonic "SZ/000001.csv" 3 5).
Proof.
  split_and!; try (vm_compute; reflexivity); try (split; [reflexivity|by left]).
  vm_compute. discriminate.
Qed.

(** C5, amended.  In a source of either family, let [r0] be a row that
    is written, [r] the next row that passes the channel filter, with the
    channel of [r0] and a sequence number [s] strictly less than the
    sequence number [p] of [r0].  Then the normalizer raises the
    monotonicity error naming the source, [s] and [p]; [main] ends with
    that error without calling a merge, the file system being the one the
    normalizers left; and a row with the sequence number [p] again passes
    the validation. *)
Theorem decreasing_sequence_rejected E f archive_path inner_path only_channel
    pre r0 skipped r post failure text v1 v2 cells0 c p s :
  stream_csv_rows E archive_path inner_path = (pre ++ r0 :: skipped ++ r :: post, failure) →
  write_rows E (row_body f inner_path (symbol_of E inner_path) only_channel) pre
    (Validator None None 0) = (text, v1, None) →
  row_body f inner_path (symbol_of E inner_path) only_channel v1 r0 = Ok (Some (v2, cells0)) →
  passes_filter only_channel r0 c → int_item r0 "ApplSeqNum" = Ok p →
  Forall (skipped_by_filter only_channel) skipped →
  passes_filter only_channel r c → int_item r "ApplSeqNum" = Ok s → s < p →
  (∀ out_path fs,
     write_family_events E f archive_path inner_path out_path only_channel fs
     = (<[out_path := writerow E (CStr <$> EVENT_HEADER) +:+ text +:+ writerow E cells0]> fs,
        Raise (not_monotonic f inner_path s p))) ∧
  (∀ a fs fs0 fs1,
     archive_path = archive_of a f → only_channel = channel a →
     normalized_before E a (temp_root_of E a fs) f fs fs0 →
     reaches E archive_path (kind_name f) (events_dir E (temp_root_of E a fs) f)
       (limit_files a) (symbol_regex a) only_channel inner_path fs0 fs1 →
     main E a fs
     = Some (finally_cleanup E a fs
               (<[event_path E (events_dir E (temp_root_of E a fs) f) (kind_name f)
                    (symbol_of E inner_path)
                  := writerow E (CStr <$> EVENT_HEADER) +:+ text +:+ writerow E cells0]> fs1),
             Some (not_monotonic f inner_path s p))) ∧
  (∀ r', passes_filter only_channel r' c → int_item r' "ApplSeqNum" = Ok p →
     validate_row (not_monotonic f inner_path) inner_path only_channel v2 r'
     = Ok (Some (c, p, c))).
Proof.
  intros Hstream Hpre Hr0 Hc0 Hp0 Hskip Hc Hs Hlt.
  destruct (accepted_state _ _ _ _ _ _ _ _ _ _ Hr0 Hc0 Hp0) as [Hseen Hprev].
  assert (∀ out_path fs,
    write_family_events E f archive_path inner_path out_path only_channel fs
    = (<[out_path := writerow E (CStr <$> EVENT_HEADER) +:+ text +:+ writerow E cells0]> fs,
       Raise (not_monotonic f inner_path s p))) as Hwrite.
  { intros out_path fs. rewrite write_family_events_unfold.
    eapply write_events_raises; [exact Hstream|].
    rewrite write_rows_app, Hpre. simpl. rewrite Hr0.
    rewrite write_rows_skipped by (by apply skipped_rows_skipped).
    simpl. erewrite body_raise; [|by eapply validate_decrease].
    by rewrite app_empty_r. }
  split_and!; [done| |].
  - intros a fs fs0 fs1 -> -> Hbefore Hreach.
    eapply source_failure_aborts_main; [done..|]. apply Hwrite.
  - intros r' Hc' Hp'. eapply validate_not_decreasing; [done..|lia].
Qed.

Lemma decreasing_sequence_rejected_witness :
  (write_order_events (sample_env rows_decreasing []) "order.7z" "SZ/000001.csv"
     "work/order_000001.events.csv" None ∅).2
  = Raise (RuntimeError_order_not_monotonic "SZ/000001.csv" 3 5).
Proof.
  destruct (decreasing_sequence_rejected (sample_env rows_decreasing []) OrderStream
              "order.7z" "SZ/000001.csv" None [order_raw "1" "5"] (order_raw "1" "5") []
              (order_raw "1" "3") [] None
              (sample_writerow
                 [CInt 1; CInt 5; CStr "ORDER"; CStr "000001"; CInt 5; CStr EmptyString; CStr EmptyString;
                  CStr "1"; CStr "10.5000"; CStr "100"; CStr EmptyString; CStr "2"; CStr EmptyString;
                  CStr "20240102093000000"; CStr "20240102093000010"; CStr "order"])
              (Validator (Some 1) (Some 5) 1) (Validator (Some 1) (Some 5) 2)
              [CInt 1; CInt 5; CStr "ORDER"; CStr "000001"; CInt 5; CStr EmptyString; CStr EmptyString;
               CStr "1"; CStr "10.5000"; CStr "100"; CStr EmptyString; CStr "2"; CStr EmptyString;
               CStr "20240102093000000"; CStr "20240102093000010"; CStr "order"]
              1 5 3) as [H _].
  - reflexivity.
  - vm_compute. reflexivity.
  - vm_compute. reflexivity.
  - split; [reflexivity|by left].
  - reflexivity.
  - constructor.
  - split; [reflexivity|by left].
  - reflexivity.
  - lia.
  - exact (f_equal snd (H "work/order_000001.events.csv" ∅)).
Defined.






(** C8, what the code does: with both [--out] and [--out-dir] given,
    [main] raises the configuration error only after both archives have
    been normalized, the event files being written; with neither given
    and no event file produced it raises another error; the Polars script
    checks the output mode first. *)
Lemma config_error_after_normalization :
  (∃ fs', main (sample_env rows_order_ok rows_tick_ok)
            (sample_args (Some "out.csv") (Some "outdir")) ∅
          = Some (fs', Some RuntimeError_out_and_out_dir) ∧
      is_Some (fs' !! "work/order_events/order_000001.events.csv") ∧
      is_Some (fs' !! "work/tick_events/tick_000001.events.csv")) ∧
  main (sample_env [] []) (sample_args None None) ∅
    = Some (∅, Some RuntimeError_no_event_files) ∧
  main (sample_env rows_two_channels rows_tick_ok) (sample_args None None) ∅
    = Some ({[ "work/order_events/order_000001.events.csv" :=
                 sample_writerow (CStr <$> EVENT_HEADER) +:+
                 sample_writerow
                   [CInt 1; CInt 5; CStr "ORDER"; CStr "000001"; CInt 5; CStr EmptyString; CStr EmptyString;
                    CStr "1"; CStr "10.5000"; CStr "100"; CStr EmptyString; CStr "2"; CStr EmptyString;
                    CStr "20240102093000000"; CStr "20240102093000010"; CStr "order"] ]},
            Some (RuntimeError_multiple_channel "SZ/000001.csv" 1 2)) ∧
  Polars.check_output_mode (Some "out.csv") (Some "outdir")
    = Raise RuntimeError_out_and_out_dir ∧
  Polars.check_output_mode None None = Raise RuntimeError_no_output_mode.
Proof.
  split_and!.
  - eexists. split_and!; [vm_compute; reflexivity|..]; vm_compute; by eexists.
  - vm_compute. reflexivity.
  - vm_compute. reflexivity.
  - reflexivity.
  - reflexivity.
Qed.

End NormalizerClaims.

(** * Keys: [str.split], [int] and [parse_key] *)

Section Keys.
Implicit Types (s t a b rest line : string) (c sep : ascii).

Lemma split_lacks sep n s : lacks sep s → Py.split sep n s = [s].
Proof.
  induction s as [|c s IH]; [done|]. intros [Hc Hs]. simpl.
  destruct (Ascii.eqb_spec c sep) as [->|_]; [done|]. by rewrite IH.
Qed.

Lemma split_at_sep sep n a rest :
  lacks sep a → Py.split sep (S n) (a +:+ String sep rest) = a :: Py.split sep n rest.
Proof.
  induction a as [|c a IH]; intros Ha.
  - simpl. by rewrite Ascii.eqb_refl.
  - destruct Ha as [Hc Ha]. rewrite app_cons. cbn [Py.split].
    destruct (Ascii.eqb_spec c sep) as [->|_]; [done|]. by rewrite IH.
Qed.

Lemma split_zero sep s : Py.split sep 0 s = [s].
Proof.
  induction s as [|c s IH]; [done|]. simpl.
  destruct (Ascii.eqb c sep); [done|]. by rewrite IH.
Qed.

(** Every text is either free of [sep] or splits at its first [sep]. *)
Lemma first_sep sep s :
  lacks sep s ∨ ∃ a rest, lacks sep a ∧ s = a +:+ String sep rest.
Proof.
  induction s as [|c s [IH|(a & rest & Ha & ->)]].
  - by left.
  - destruct (decide (c = sep)) as [->|Hc].
    + right. by exists EmptyString, s.
    + left. by split.
  - right. destruct (decide (c = sep)) as [->|Hc].
    + by exists EmptyString, (a +:+ String sep rest).
    + exists (String c a), rest. by split.
Qed.

Lemma lacks_app c s t : lacks c (s +:+ t) ↔ lacks c s ∧ lacks c t.
Proof.
  induction s as [|c' s IH]; [rewrite app_empty_l; simpl; naive_solver|].
  rewrite app_cons. simpl. rewrite IH. naive_solver.
Qed.

Lemma lacks_sep_false c s t : ¬ lacks c (s +:+ String c t).
Proof. rewrite lacks_app. simpl. naive_solver. Qed.

(** The parts [parse_key] looks at. *)
Lemma parse_key_fields a b rest :
  lacks "," a → lacks "," b →
  parse_key (a +:+ "," +:+ b +:+ "," +:+ rest)
  = (channel ←! Py.int a; seq ←! Py.int b; Ok (channel, seq)).
Proof.
  intros Ha Hb. unfold parse_key.
  change ("," +:+ b +:+ "," +:+ rest) with (String "," (b +:+ String "," rest)).
  rewrite split_at_sep by done. by rewrite split_at_sep by done.
Qed.

Lemma parse_key_two_fields a b :
  lacks "," a → lacks "," b →
  parse_key (a +:+ "," +:+ b)
  = (channel ←! Py.int a; seq ←! Py.int b; Ok (channel, seq)).
Proof.
  intros Ha Hb. unfold parse_key.
  change ("," +:+ b) with (String "," b).
  rewrite split_at_sep by done. by rewrite split_lacks.
Qed.

Lemma bind_not_invalid {A B} (r : result A) (k : A → result B) line :
  (∀ x, k x ≠ Raise (ValueError_invalid_line line)) →
  r ≠ Raise (ValueError_invalid_line line) →
  bind r k ≠ Raise (ValueError_invalid_line line).
Proof. intros Hk Hr. destruct r; cbn [bind]; [apply Hk|]. intros [= ->]. by apply Hr. Qed.

Lemma int_not_invalid s line : Py.int s ≠ Raise (ValueError_invalid_line line).
Proof. unfold Py.int. by destruct (Py.int_opt s). Qed.

End Keys.

(** * Decimal numbers: [int] reads what [str] prints *)

Section Decimal.

Lemma digit_pretty_char x : (x < 10)%N → Py.digit (pretty_N_char x) = Some (Z.of_N x).
Proof.
  intros Hx.
  assert (x = 0 ∨ x = 1 ∨ x = 2 ∨ x = 3 ∨ x = 4 ∨ x = 5 ∨ x = 6 ∨ x = 7 ∨ x = 8 ∨ x = 9)%N
    as Hcases by lia.
  repeat (destruct Hcases as [->|Hcases]; [done|]). by subst.
Qed.

Lemma digit_char c v :
  Py.digit c = Some v → Py.is_space c = false ∧ c ≠ "+"%char ∧ c ≠ "-"%char.
Proof.
  destruct c as [[] [] [] [] [] [] [] []]; vm_compute; intros; try discriminate;
    split_and!; done.
Qed.

Lemma int_digits_digit acc c v s :
  Py.digit c = Some v → Py.int_digits acc (String c s) = Py.int_digits (10 * acc + v) s.
Proof. intros H. cbn [Py.int_digits]. by rewrite H. Qed.

Lemma int_digits_pretty_go x :
  (0 < x)%N →
  ∃ k, ∀ acc s, Py.int_digits acc (pretty_N_go x s) = Py.int_digits (acc * k + Z.of_N x) s.
Proof.
  induction (N.lt_wf_0 x) as [x _ IH]. intros Hx.
  assert (x `mod` 10 < 10)%N as Hmod by (apply N.mod_lt; lia).
  pose proof (N.div_mod x 10 ltac:(lia)) as Hdiv.
  destruct (N.eq_0_gt_0_cases (x `div` 10)) as [H0|Hpos].
  - exists 10. intros acc s. rewrite pretty_N_go_step, H0, pretty_N_go_0 by done.
    rewrite (int_digits_digit _ _ _ _ (digit_pretty_char _ Hmod)). f_equal. lia.
  - destruct (IH (x `div` 10)%N) as [k Hk]; [by apply N.div_lt|done|].
    exists (10 * k). intros acc s. rewrite pretty_N_go_step, Hk by done.
    rewrite (int_digits_digit _ _ _ _ (digit_pretty_char _ Hmod)). f_equal.
    clear IH Hk Hpos Hmod. remember (x `div` 10)%N as d. remember (x `mod` 10)%N as m.
    rewrite Hdiv, N2Z.inj_add, N2Z.inj_mul. change (Z.of_N 10) with 10. ring.
Qed.

Lemma pretty_go_head x s :
  (0 < x)%N → ∃ c t v, pretty_N_go x s = String c t ∧ Py.digit c = Some v.
Proof.
  revert s. induction (N.lt_wf_0 x) as [x _ IH]. intros s Hx.
  assert (x `mod` 10 < 10)%N as Hmod by (apply N.mod_lt; lia).
  rewrite pretty_N_go_step by done.
  destruct (N.eq_0_gt_0_cases (x `div` 10)) as [H0|Hpos].
  - rewrite H0, pretty_N_go_0. eexists _, _, _. split; [done|].
    by apply digit_pretty_char.
  - apply IH; [by apply N.div_lt|done].
Qed.

Lemma int_unsigned_pretty_go x :
  (0 < x)%N → Py.int_unsigned (pretty_N_go x EmptyString) = Some (Z.of_N x).
Proof.
  intros Hx. destruct (pretty_go_head x EmptyString Hx) as (c & t & v & Heq & Hc).
  destruct (int_digits_pretty_go x Hx) as [k Hk].
  unfold Py.int_unsigned. specialize (Hk 0 EmptyString). rewrite Heq in Hk |- *.
  rewrite Hc, Hk. simpl. done.
Qed.

Lemma int_opt_unsigned c t :
  Py.is_space c = false → c ≠ "+"%char → c ≠ "-"%char →
  Py.int_opt (String c t) = Py.int_unsigned (String c t).
Proof.
  intros Hs Hplus Hminus. unfold Py.int_opt. cbn [Py.lstrip]. rewrite Hs.
  destruct c as [[] [] [] [] [] [] [] []]; done.
Qed.

Lemma int_opt_pretty_go x :
  (0 < x)%N → Py.int_opt (pretty_N_go x EmptyString) = Some (Z.of_N x).
Proof.
  intros Hx. destruct (pretty_go_head x EmptyString Hx) as (c & t & v & Heq & Hc).
  destruct (digit_char _ _ Hc) as (Hs & Hplus & Hminus).
  rewrite <- (int_unsigned_pretty_go x Hx), Heq. by apply int_opt_unsigned.
Qed.

Lemma int_pretty (z : Z) : Py.int (pretty z) = Ok z.
Proof.
  unfold Py.int.
  destruct z as [|p|p]; [done|..]; unfold pretty, pretty_Z, pretty, pretty_positive,
    pretty, pretty_N; rewrite decide_False by done.
  - by rewrite int_opt_pretty_go.
  - change (Py.int_opt ("-" +:+ pretty_N_go (N.pos p) EmptyString))
      with (Z.opp <$> Py.int_unsigned (pretty_N_go (N.pos p) EmptyString)).
    by rewrite int_unsigned_pretty_go.
Qed.

Lemma pretty_Z_lacks c (z : Z) :
  (nat_of_ascii c < 48 ∨ 57 < nat_of_ascii c)%nat → c ≠ "-"%char → lacks c (pretty z).
Proof.
  intros Hc Hminus.
  destruct z as [|p|p]; unfold pretty, pretty_Z, pretty, pretty_positive,
    pretty, pretty_N; rewrite ?decide_False by done.
  - split; [|done]. intros <-. vm_compute in Hc. lia.
  - by apply pretty_N_go_lacks.
  - split; [done|]. by apply pretty_N_go_lacks.
Qed.

End Decimal.

(** X1.  [parse_key] raises its own error, [Invalid line], exactly for a
    line that holds no comma; for any other line the outcome is settled
    by the text before the second comma: what follows it is never looked
    at. *)
Theorem parse_key_invalid_line_iff line :
  (parse_key line = Raise (ValueError_invalid_line line) ↔ lacks "," line) ∧
  (∀ a b rest, lacks "," a → lacks "," b → line = a +:+ "," +:+ b +:+ "," +:+ rest →
     parse_key line = parse_key (a +:+ "," +:+ b)).
Proof.
  split; [|intros a b rest Ha Hb ->; by rewrite parse_key_fields, parse_key_two_fields].
  split.
  - intros Hraise. destruct (first_sep "," line) as [?|(a & rest1 & Ha & ->)]; [done|].
    exfalso. revert Hraise.
    destruct (first_sep "," rest1) as [Hb|(b & rest & Hb & ->)].
    + change (a +:+ String "," rest1) with (a +:+ "," +:+ rest1).
      rewrite (parse_key_two_fields a rest1 Ha Hb).
      apply bind_not_invalid; [|apply int_not_invalid]. intros ?.
      apply bind_not_invalid; [done|apply int_not_invalid].
    + change (a +:+ String "," (b +:+ String "," rest))
        with (a +:+ "," +:+ b +:+ "," +:+ rest).
      rewrite (parse_key_fields a b rest Ha Hb).
      apply bind_not_invalid; [|apply int_not_invalid]. intros ?.
      apply bind_not_invalid; [done|apply int_not_invalid].
  - intros Hl. unfold parse_key. by rewrite split_lacks.
Qed.

Lemma parse_key_decimal (channel seq : Z) rest :
  parse_key (pretty channel +:+ "," +:+ pretty seq +:+ "," +:+ rest) = Ok (channel, seq).
Proof.
  rewrite parse_key_fields by (apply pretty_Z_lacks; [vm_compute; lia|done]).
  by rewrite !int_pretty.
Qed.


(** * More about [merge_batch] and [multi_pass_merge] *)

Section MergeEdges.
Implicit Types (fs : filesystem) (paths next : list string) (o p q : string).

(** With one source the heap holds one line at a time. *)
Lemma drain_single ls : ∀ fuel k l,
  Forall line_ok ls → (length ls < fuel)%nat →
  drain fuel [join ls] [(k, 0%nat, l)] = Some (l +:+ join ls, None).
Proof.
  induction ls as [|l1 ls IH]; intros fuel k l Hls Hfuel.
  - destruct fuel as [|fuel]; [lia|]. by destruct fuel.
  - destruct fuel as [|fuel]; [simpl in Hfuel; lia|].
    apply Forall_cons in Hls as [[Hc Hp] Hls].
    cbn [drain heappop pop_min]. cbn [lookup list_lookup join].
    rewrite (complete_line_readline _ _ Hc), (complete_line_truthy _ Hc).
    rewrite (parses_key _ Hp). unfold heappush.
    rewrite IH; [done|done|simpl in Hfuel; lia].
Qed.

Lemma merge_batch_frame paths o fs fs' e :
  merge_batch paths o fs = Some (fs', e) → fs' = fs ∨ ∃ text, fs' = <[o := text]> fs.
Proof.
  unfold merge_batch. destruct (open_inputs fs 0 paths _) as [st|e0]; [|naive_solver].
  destruct (header st) as [h|]; [|naive_solver].
  destruct (drain _ _ _) as [[out err]|]; [|done]. cbn. naive_solver.
Qed.

Lemma merge_round_frame o r B paths : ∀ starts next fs fs' res,
  merge_round o r B paths starts next fs = Some (fs', res) →
  (∀ q, (∀ k, q ≠ merged_path o r k) → fs' !! q = fs !! q) ∧
  (∀ next', res = Ok next' → ∃ more, next' = next ++ more).
Proof.
  induction starts as [|i starts IH]; intros next fs fs' res; cbn [merge_round].
  { intros [= <- <-]. split; [done|]. intros ? [= <-]. exists []. by rewrite app_nil_r. }
  assert (∀ fs1 x, merge_round o r B paths starts (next ++ [x]) fs1 = Some (fs', res) →
    (∀ q, (∀ k, q ≠ merged_path o r k) → fs' !! q = fs1 !! q) ∧
    (∀ next', res = Ok next' → ∃ more, next' = next ++ more)) as Hstep.
  { intros fs1 x Hr. destruct (IH _ _ _ _ Hr) as [Hfr Hpre]. split; [done|].
    intros next' Hn. destruct (Hpre _ Hn) as [more ->]. exists (x :: more).
    by rewrite <- app_assoc. }
  assert (∀ batch, (merge_batch batch (merged_path o r (i / B)) fs ≫= λ '(fs1, err),
      match err with
      | Some e => Some (fs1, Raise e)
      | None => merge_round o r B paths starts (next ++ [merged_path o r (i / B)]) fs1
      end) = Some (fs', res) →
    (∀ q, (∀ k, q ≠ merged_path o r k) → fs' !! q = fs !! q) ∧
    (∀ next', res = Ok next' → ∃ more, next' = next ++ more)) as Hbatch.
  { intros batch Hb.
    destruct (merge_batch batch _ fs) as [[fs1 err]|] eqn:Hmb; [|done]. cbn in Hb.
    assert (∀ q, (∀ k, q ≠ merged_path o r k) → fs1 !! q = fs !! q) as Hfs1.
    { intros q Hq. destruct (merge_batch_frame _ _ _ _ _ Hmb) as [->|[text ->]]; [done|].
      by rewrite lookup_insert_ne. }
    destruct err as [e|].
    - injection Hb as <- <-. split; [done|]. by intros ? [=].
    - destruct (Hstep _ _ Hb) as [Hfr Hpre]. split; [|done].
      intros q Hq. by rewrite Hfr, Hfs1. }
  destruct (take B (drop i paths)) as [|p [|p' rest]]; [by apply Hbatch| |by apply Hbatch].
  apply Hstep.
Qed.

(** The first batch of a round over two paths or more, with a budget of
    two or more, is merged. *)
Lemma merge_round_head o r B paths starts fs fs' next' :
  (2 ≤ B)%nat → (2 ≤ length paths)%nat →
  merge_round o r B paths (0%nat :: starts) [] fs = Some (fs', Ok next') →
  ∃ more, next' = merged_path o r 0 :: more.
Proof.
  intros HB Hlen. cbn [merge_round]. rewrite drop_0.
  destruct paths as [|p1 [|p2 paths]]; [simpl in Hlen; lia..|].
  destruct B as [|[|B]]; [lia..|]. cbn [take].
  rewrite Nat.Div0.div_0_l.
  destruct (merge_batch _ _ fs) as [[fs1 [e|]]|]; [done| |done]. cbn.
  intros Hr. destruct (merge_round_frame _ _ _ _ _ _ _ _ _ Hr) as [_ Hpre].
  destruct (Hpre _ eq_refl) as [more ->]. by exists more.
Qed.

Lemma range_from_head n B : (0 < n)%nat → ∃ more, range_from n 0 n B = 0%nat :: more.
Proof. intros Hn. destruct n; [lia|]. simpl. by eexists. Qed.

Lemma merge_rounds_frame o B : 2 ≤ B → ∀ fuel r paths fs fs' res,
  merge_rounds fuel o B r paths fs = Some (fs', res) →
  (∀ q, (∀ r' k, q ≠ merged_path o r' k) → fs' !! q = fs !! q) ∧
  (∀ p, res = Ok [p] → paths = [p] ∨ ∃ r' k, p = merged_path o r' k).
Proof.
  intros HB. induction fuel as [|fuel IH]; intros r paths fs fs' res; cbn [merge_rounds];
    destruct (Nat.leb_spec (length paths) 1) as [Hle|Hgt];
    try (intros [= <- <-]; split; [done|]; intros p [= ->]; by left); [done|].
  unfold py_range. destruct (Z.eqb_spec B 0); [lia|]. destruct (Z.ltb_spec B 0); [lia|].
  destruct (merge_round _ _ _ _ _ _ _) as [[fs1 [next|e]]|] eqn:Hr; [|cbn|done].
  - cbn. intros Hrs. destruct (IH _ _ _ _ _ Hrs) as [Hfr Hres].
    destruct (merge_round_frame _ _ _ _ _ _ _ _ _ Hr) as [Hfr1 _]. split.
    + intros q Hq. rewrite Hfr by done. by apply Hfr1.
    + intros p Hp. destruct (Hres _ Hp) as [->|?]; [|by right]. right.
      destruct (range_from_head (length paths) (Z.to_nat B) ltac:(lia)) as [more Hmore].
      rewrite Hmore in Hr.
      apply merge_round_head in Hr as [more' [= -> _]]; [by eexists _, _|lia|lia].
  - intros [= <- <-]. destruct (merge_round_frame _ _ _ _ _ _ _ _ _ Hr) as [Hfr1 _].
    split; [|done]. intros q Hq. by apply Hfr1.
Qed.

(** A round with a budget of one hands every path on. *)
Lemma merge_round_budget_one o r paths fs : ∀ fuel i next,
  (length paths ≤ fuel + i)%nat →
  merge_round o r 1 paths (range_from fuel i (length paths) 1) next fs
  = Some (fs, Ok (next ++ drop i paths)).
Proof.
  induction fuel as [|fuel IH]; intros i next Hfuel.
  { simpl. rewrite drop_ge by lia. by rewrite app_nil_r. }
  simpl. destruct (Nat.ltb_spec i (length paths)) as [Hlt|Hge].
  - cbn [merge_round].
    destruct (lookup_lt_is_Some_2 paths i Hlt) as [p Hp].
    rewrite (drop_S _ _ _ Hp). cbn [take]. rewrite IH by lia.
    rewrite <- app_assoc. simpl. by rewrite Nat.add_1_r.
  - cbn [merge_round]. rewrite drop_ge by lia. by rewrite app_nil_r.
Qed.

Lemma merge_rounds_budget_one o fs paths :
  (2 ≤ length paths)%nat → ∀ fuel r, merge_rounds fuel o 1 r paths fs = None.
Proof.
  intros Hlen. induction fuel as [|fuel IH]; intros r; cbn [merge_rounds];
    destruct (Nat.leb_spec (length paths) 1) as [?|_]; try lia; [done|].
  cbn [py_range Z.eqb Z.ltb Z.compare]. change (Z.to_nat 1) with 1%nat.
  rewrite (merge_round_budget_one o r paths fs (length paths) 0 []) by lia.
  cbn. rewrite drop_0. apply IH.
Qed.

End MergeEdges.

(** X3.  Merging a single event file into another path copies it: the
    output holds the very text of the input, whatever the order of its
    lines. *)
Theorem merge_of_one_file_copies (fs : filesystem) p o text :
  fs !! p = Some text → event_file text = true → p ≠ o →
  merge_batch [p] o fs = Some (<[o := text]> fs, None).
Proof.
  intros Hp Hev _. apply event_file_lines in Hev as (Ht & Hh & Hd).
  rewrite Ht. set (h := header_line text) in *. set (d := data_lines text) in *.
  clearbody h d. unfold merge_batch. cbn [open_inputs]. rewrite Hp, Ht.
  rewrite (complete_line_readline _ _ Hh). cbn [header bind].
  destruct d as [|l ls].
  - cbn. by rewrite app_empty_r.
  - apply Forall_cons in Hd as [[Hc Hk] Hls]. cbn [join].
    rewrite (complete_line_readline _ _ Hc), (complete_line_truthy _ Hc).
    rewrite (parses_key _ Hk). cbn [bind open_inputs header files heap app heappush].
    unfold heappush. rewrite drain_single; [done|done|].
    unfold drain_fuel. simpl. pose proof (join_length ls (lines_ok_complete _ Hls)). lia.
Qed.

Lemma merge_of_one_file_copies_witness :
  merge_batch ["work/a.events.csv"] "out.csv" sample_fs
  = Some (<["out.csv" := sample_a]> sample_fs, None).
Proof.
  apply merge_of_one_file_copies.
  - vm_compute. reflexivity.
  - vm_compute. reflexivity.
  - discriminate.
Defined.

(** X4.  Whatever its outcome and its budget, [multi_pass_merge] leaves
    every file alone that is neither the output path, nor named like one
    of its intermediate files, nor the single path of a one-element
    list; the single path of a one-element list is moved: afterwards it
    is gone and the output path holds its text. *)
Theorem multi_pass_merge_keeps_inputs fuel paths o B (fs fs' : filesystem) e :
  multi_pass_merge fuel paths o B fs = Some (fs', e) →
  (∀ q, q ≠ o → (∀ r k, q ≠ merged_path o r k) → paths ≠ [q] → fs' !! q = fs !! q) ∧
  (∀ p, paths = [p] → p ≠ o → e = None → fs' !! p = None ∧ fs' !! o = fs !! p).
Proof.
  intros Hrun. split.
  - intros q Hqo Hq Hsingle. revert Hrun. unfold multi_pass_merge.
    destruct (decide (length paths ≤ 1)%nat) as [Hle|Hgt].
    { assert (merge_rounds fuel o B 0 paths fs = Some (fs, Ok paths)) as ->.
      { destruct fuel; cbn [merge_rounds];
          by destruct (Nat.leb_spec (length paths) 1) as [_|?]; [|lia]. }
      cbn. destruct paths as [|p [|??]]; [by intros [= <- _]| |simpl in Hle; lia].
      unfold shutil_move. destruct (fs !! p) eqn:Hp; intros [= <- _]; [|done].
      rewrite lookup_insert_ne, lookup_delete_ne by congruence. done. }
    destruct (decide (2 ≤ B)) as [HB|HB].
    + destruct (merge_rounds fuel o B 0 paths fs) as [[fs1 res]|] eqn:Hrs; [|done].
      destruct (merge_rounds_frame o B HB _ _ _ _ _ _ Hrs) as [Hfr Hres]. cbn.
      destruct res as [[|p ps]|e0]; [intros [= <- _]; by apply Hfr| |intros [= <- _]; by apply Hfr].
      assert (ps = []) as ->.
      { revert Hrs. clear. revert paths fs fs1. generalize 0%nat.
        induction fuel as [|fuel IH]; intros r paths fs fs1; cbn [merge_rounds];
          destruct (Nat.leb_spec (length paths) 1) as [Hle|Hgt];
          try (intros [= _ ->]; destruct ps; [done|simpl in Hle; lia]); [done|].
        destruct (py_range _ _); [|done].
        destruct (merge_round _ _ _ _ _ _ _) as [[fs2 [next|e]]|]; [|done..].
        cbn. apply IH. }
      destruct (Hres _ eq_refl) as [->|(r' & k & ->)]; [simpl in Hgt; lia|].
      unfold shutil_move. destruct (fs1 !! _) eqn:Hp; intros [= <- _]; [|by apply Hfr].
      rewrite lookup_insert_ne by congruence.
      rewrite lookup_delete_ne by (intros <-; by eapply Hq). by apply Hfr.
    + destruct (decide (B = 1)) as [->|HB1].
      { by rewrite merge_rounds_budget_one by lia. }
      destruct fuel as [|fuel]; cbn [merge_rounds];
        destruct (Nat.leb_spec (length paths) 1) as [?|_]; try lia; [done|].
      unfold py_range. destruct (Z.eqb_spec B 0); [by intros [= <- _]|].
      destruct (Z.ltb_spec B 0); [|lia]. cbn [merge_round mbind option_bind].
      destruct fuel; cbn; by intros [= <- _].
  - intros p -> Hpo ->. revert Hrun. unfold multi_pass_merge.
    assert (merge_rounds fuel o B 0 [p] fs = Some (fs, Ok [p])) as -> by (by destruct fuel).
    cbn. unfold shutil_move. destruct (fs !! p) eqn:Hp; [|done]. intros [= <-].
    rewrite lookup_insert_ne, lookup_delete_eq, lookup_insert_eq by done. done.
Qed.

Lemma multi_pass_merge_keeps_inputs_witness :
  (∀ q, q ≠ "out.csv" → (∀ r k, q ≠ merged_path "out.csv" r k) → sample_paths ≠ [q] →
     (<["out.csv" := sample_header +:+ join
          ["1,1,ORDER,000001,1,,,1,10.50,100,,2,,93000000,93000010,order" +:+ crlf;
           "1,2,ORDER,000002,2,,,1,20.00,300,,2,,93000005,93000015,order" +:+ crlf;
           "1,3,ORDER,000001,3,,,2,10.60,200,,2,,93000020,93000030,order" +:+ crlf;
           "1,4,ORDER,000002,4,,,2,20.10,400,,2,,93000025,93000035,order" +:+ crlf;
           "2,1,ORDER,000003,1,,,1,30.00,500,,2,,93000001,93000011,order" +:+ crlf]]>
        sample_fs) !! q = sample_fs !! q) ∧
  (∀ p, sample_paths = [p] → p ≠ "out.csv" → @None exn = None →
     (<["out.csv" := sample_header +:+ join
          ["1,1,ORDER,000001,1,,,1,10.50,100,,2,,93000000,93000010,order" +:+ crlf;
           "1,2,ORDER,000002,2,,,1,20.00,300,,2,,93000005,93000015,order" +:+ crlf;
           "1,3,ORDER,000001,3,,,2,10.60,200,,2,,93000020,93000030,order" +:+ crlf;
           "1,4,ORDER,000002,4,,,2,20.10,400,,2,,93000025,93000035,order" +:+ crlf;
           "2,1,ORDER,000003,1,,,1,30.00,500,,2,,93000001,93000011,order" +:+ crlf]]>
        sample_fs) !! p = None ∧
     (<["out.csv" := sample_header +:+ join
          ["1,1,ORDER,000001,1,,,1,10.50,100,,2,,93000000,93000010,order" +:+ crlf;
           "1,2,ORDER,000002,2,,,1,20.00,300,,2,,93000005,93000015,order" +:+ crlf;
           "1,3,ORDER,000001,3,,,2,10.60,200,,2,,93000020,93000030,order" +:+ crlf;
           "1,4,ORDER,000002,4,,,2,20.10,400,,2,,93000025,93000035,order" +:+ crlf;
           "2,1,ORDER,000003,1,,,1,30.00,500,,2,,93000001,93000011,order" +:+ crlf]]>
        sample_fs) !! "out.csv" = sample_fs !! p).
Proof.
  apply (multi_pass_merge_keeps_inputs 3 sample_paths "out.csv" 64 sample_fs).
  vm_compute. reflexivity.
Defined.

(** X5.  With a budget of one and two paths or more, [multi_pass_merge]
    never returns: a round hands every path on unchanged, so the list
    never gets shorter and no number of rounds is enough. *)
Theorem budget_of_one_never_ends paths o (fs : filesystem) :
  (2 ≤ length paths)%nat →
  (∀ r, merge_round o r 1 paths (range_from (length paths) 0 (length paths) 1) [] fs
        = Some (fs, Ok paths)) ∧
  (∀ fuel, multi_pass_merge fuel paths o 1 fs = None).
Proof.
  intros Hlen. split.
  - intros r. rewrite merge_round_budget_one by lia. by rewrite drop_0.
  - intros fuel. unfold multi_pass_merge. by rewrite merge_rounds_budget_one.
Qed.

Lemma budget_of_one_never_ends_witness :
  (∀ r, merge_round "out.csv" r 1 sample_paths
          (range_from (length sample_paths) 0 (length sample_paths) 1) [] sample_fs
        = Some (sample_fs, Ok sample_paths)) ∧
  (∀ fuel, multi_pass_merge fuel sample_paths "out.csv" 1 sample_fs = None).
Proof. apply budget_of_one_never_ends. simpl. lia. Defined.

(** X6.  With two paths or more, a budget of zero makes [multi_pass_merge]
    raise the [ValueError] of [range], and a negative budget makes it
    return at once without an exception; in both cases no file is read or
    written, so that no output exists afterwards. *)
Theorem budget_below_one_writes_nothing fuel paths o B (fs : filesystem) :
  (2 ≤ length paths)%nat → (1 ≤ fuel)%nat → B ≤ 0 →
  multi_pass_merge fuel paths o B fs
  = Some (fs, if decide (B = 0) then Some ValueError_range_step else None).
Proof.
  intros Hlen Hfuel HB. unfold multi_pass_merge.
  destruct fuel as [|fuel]; [lia|]. cbn [merge_rounds].
  destruct (Nat.leb_spec (length paths) 1) as [?|_]; [lia|].
  unfold py_range. destruct (Z.eqb_spec B 0) as [->|Hne]; [done|].
  rewrite decide_False by done.
  destruct (Z.ltb_spec B 0); [|lia]. cbn. by destruct fuel.
Qed.

Lemma budget_below_one_writes_nothing_witness :
  multi_pass_merge 3 sample_paths "out.csv" (-1) sample_fs = Some (sample_fs, None).
Proof.
  apply (budget_below_one_writes_nothing 3 sample_paths "out.csv" (-1) sample_fs).
  - simpl. lia.
  - lia.
  - lia.
Defined.

(** * What a normalizer writes *)

Section WrittenRows.
Context (E : os_env) (f : family) (inner_path symbol : string) (only_channel : option Z).
Implicit Types (v : validator) (r : row) (rows : list row).

Lemma body_none_skipped v r :
  row_body f inner_path symbol only_channel v r = Ok None →
  skipped_by_filter only_channel r.
Proof.
  assert (validate_row (not_monotonic f inner_path) inner_path only_channel v r = Ok None →
          skipped_by_filter only_channel r) as Hv.
  { unfold validate_row, skipped_by_filter.
    destruct (int_item r "ChannelNo") as [c|]; [|done]. cbn [bind].
    destruct only_channel as [c'|].
    - destruct (Z.eqb_spec c c') as [->|Hne]; cbn [negb].
      + destruct (match channel_seen v with Some _ => _ | None => _ end); [|done].
        cbn [bind]. destruct (int_item r "ApplSeqNum"); [|done]. cbn [bind].
        destruct (prev_seq v); [|done]. by case_match.
      + intros _. by exists c, c'.
    - destruct (match channel_seen v with Some _ => _ | None => _ end); [|done].
      cbn [bind]. destruct (int_item r "ApplSeqNum"); [|done]. cbn [bind].
      destruct (prev_seq v); [|done]. by case_match. }
  destruct f; unfold row_body, order_row, tick_row; simpl in *;
    destruct (validate_row _ inner_path only_channel v r) as [[[[c s] seen]|]|];
    try done; try (intros _; by apply Hv); cbn [bind];
    repeat (match goal with
            | |- context [getitem r ?k] => destruct (getitem r k); [|done]; cbn [bind]
            end); done.
Qed.

Lemma body_cells v r v' cells :
  row_body f inner_path symbol only_channel v r = Ok (Some (v', cells)) →
  length cells = length EVENT_HEADER ∧
  ∃ channel seq, row_key cells = Some (channel, seq) ∧
    v' = Validator (Some channel) (Some seq) (S (row_count v)) ∧
    passes_filter only_channel r channel ∧
    (channel_seen v = None ∨ channel_seen v = Some channel) ∧
    (∀ p, prev_seq v = Some p → p ≤ seq).
Proof.
  intros Hb. pose proof (body_wrote _ _ _ _ _ _ _ _ Hb) as (channel & seq & Hv & ->).
  pose proof (validate_accepted _ _ _ _ _ _ _ _ Hv) as (Hpass & _ & _ & Hseen & Hprev).
  revert Hb.
  destruct f; unfold row_body, order_row, tick_row; simpl in *; rewrite Hv; cbn [bind];
    repeat (match goal with
            | |- context [getitem r ?k] => destruct (getitem r k); [|done]; cbn [bind]
            end);
    intros [= <-]; (split; [done|]); by exists channel, seq.
Qed.

Lemma write_rows_written rows : ∀ v0 text v,
  write_rows E (row_body f inner_path symbol only_channel) rows v0 = (text, v, None) →
  let ws := written_rows (row_body f inner_path symbol only_channel) rows v0 in
  text = join (writerow E <$> ws) ∧
  row_count v = (row_count v0 + length ws)%nat ∧
  Forall (λ cells, length cells = length EVENT_HEADER ∧
            ∃ k, row_key cells = Some k ∧ channel_seen v = Some k.1 ∧
              (∀ c0, channel_seen v0 = Some c0 → k.1 = c0) ∧
              (∀ p, prev_seq v0 = Some p → p ≤ k.2) ∧
              (∀ c', only_channel = Some c' → k.1 = c')) ws ∧
  StronglySorted key_le (omap row_key ws) ∧
  (ws = [] → v = v0 ∧ Forall (skipped_by_filter only_channel) rows).
Proof.
  induction rows as [|r rows IH]; intros v0 text v; cbn [write_rows written_rows].
  { intros [= <- <-]. cbn. split_and!; [done|lia|constructor|constructor|done]. }
  destruct (row_body f inner_path symbol only_channel v0 r) as [[[v1 cells]|]|e] eqn:Hb;
    [| |done].
  - destruct (write_rows E _ rows v1) as [[t1 v2] err] eqn:Hw. intros [= <- -> ->].
    destruct (IH _ _ _ Hw) as (Ht & Hcount & Hall & Hsorted & _).
    destruct (body_cells _ _ _ _ Hb) as (Hlen & c & s & Hkey & -> & Hpass & Hseen & Hprev).
    assert (channel_seen v = Some c) as Hc.
    { by eapply (channel_seen_kept E f inner_path symbol only_channel rows). }
    cbn zeta. cbn [fmap list_fmap join omap list_omap length]. rewrite Hkey.
    split_and!; [by rewrite Ht|simpl in Hcount; lia| | |done].
    + constructor.
      * split; [done|]. exists (c, s). split_and!; [done|done|..].
        -- intros c0 Hc0. simpl. destruct Hseen; congruence.
        -- done.
        -- intros c' ->. simpl. destruct Hpass as [_ [?|?]]; congruence.
      * eapply Forall_impl; [exact Hall|]. intros cells' (Hlen' & k & Hk & Hkc & Hk0 & Hkp & Hko).
        split; [done|]. exists k. split_and!; [done|done| | |done].
        -- intros c0 Hc0. specialize (Hk0 c eq_refl). simpl in *. destruct Hseen; congruence.
        -- intros p Hp. specialize (Hkp s eq_refl). specialize (Hprev p Hp). lia.
    + constructor; [done|]. apply Forall_forall. intros k Hk.
      apply list_elem_of_omap in Hk as (cells' & Hin & Hk).
      rewrite Forall_forall in Hall.
      destruct (Hall _ Hin) as (_ & k' & Hk' & _ & Hk0 & Hkp & _).
      assert (k' = k) as -> by congruence.
      specialize (Hk0 c eq_refl). specialize (Hkp s eq_refl). unfold key_le. simpl. lia.
  - intros Hw. destruct (IH _ _ _ Hw) as (Ht & Hcount & Hall & Hsorted & Hnil).
    cbn zeta. split_and!; [done..|]. intros Hws. destruct (Hnil Hws) as [-> Hsk].
    split; [done|]. constructor; [|done]. by eapply body_none_skipped.
Qed.

End WrittenRows.

(** X7.  When a normalizer returns a channel [c], the file it leaves at
    [out_path] is the header row followed by the rows it wrote, of which
    there is at least one; every row has one cell for each column of
    [EVENT_HEADER]; its first two cells are the integers [c] and a
    sequence number; when a channel filter is given, [c] is the filter's
    channel; and the keys of the rows are in [(channel, sequence)]
    order. *)
Theorem normalizer_rows_one_channel_in_order E f archive_path inner_path out_path
    only_channel (fs fs' : filesystem) c :
  write_family_events E f archive_path inner_path out_path only_channel fs
    = (fs', Ok (Some c)) →
  let ws := written_rows (row_body f inner_path (symbol_of E inner_path) only_channel)
              (stream_csv_rows E archive_path inner_path).1 (Validator None None 0) in
  fs' = <[out_path := writerow E (CStr <$> EVENT_HEADER) +:+ join (writerow E <$> ws)]> fs ∧
  ws ≠ [] ∧
  Forall (λ cells, length cells = length EVENT_HEADER ∧
                   ∃ seq, row_key cells = Some (c, seq)) ws ∧
  StronglySorted key_le (omap row_key ws) ∧
  (∀ c', only_channel = Some c' → c = c').
Proof.
  rewrite write_family_events_unfold. unfold write_events.
  destruct (stream_csv_rows E archive_path inner_path) as [rows failure]. cbn [fst].
  destruct (write_rows E _ rows _) as [[text v] err] eqn:Hw.
  destruct err as [e|]; [done|]. destruct failure as [e|]; [done|].
  destruct (write_rows_written E f _ _ _ _ _ _ _ Hw) as (Ht & Hcount & Hall & Hsorted & _).
  destruct (Nat.eqb_spec (row_count v) 0) as [|Hne]; [done|]. intros [= <- Hc].
  cbn zeta. simpl in Hcount.
  assert (written_rows (row_body f inner_path (symbol_of E inner_path) only_channel) rows
            (Validator None None 0) ≠ []) as Hws.
  { intros Hnil. rewrite Hnil in Hcount. simpl in Hcount. lia. }
  split_and!; [by rewrite Ht|done| |done|].
  - eapply Forall_impl; [exact Hall|]. intros cells (Hlen & [c1 s] & Hk & Hkc & _).
    split; [done|]. exists s. simpl in Hkc. congruence.
  - intros c' Ho.
    destruct (written_rows _ rows _) as [|cells ws]; [done|].
    apply Forall_cons in Hall as [(_ & k & _ & Hkc & _ & _ & Hko) _].
    specialize (Hko _ Ho). congruence.
Qed.

Lemma normalizer_rows_one_channel_in_order_witness :
  let ws := written_rows (row_body OrderStream "SZ/000001.csv" "000001" None)
              rows_order_ok (Validator None None 0) in
  <["work/order_000001.events.csv" :=
      sample_writerow (CStr <$> EVENT_HEADER) +:+ join (sample_writerow <$> ws)]> ∅
  = <["work/order_000001.events.csv" :=
      sample_writerow (CStr <$> EVENT_HEADER) +:+ join (sample_writerow <$> ws)]>
    (∅ : filesystem) ∧
  ws ≠ [] ∧
  Forall (λ cells, length cells = length EVENT_HEADER ∧
                   ∃ seq, row_key cells = Some (1, seq)) ws ∧
  StronglySorted key_le (omap row_key ws) ∧
  (∀ c', @None Z = Some c' → 1 = c').
Proof.
  apply (normalizer_rows_one_channel_in_order (sample_env rows_order_ok [])
           OrderStream "order.7z" "SZ/000001.csv" "work/order_000001.events.csv" None ∅).
  vm_compute. reflexivity.
Defined.

(** X8.  A normalizer returns [None] exactly when the source ends
    without an exception and the channel filter skipped every row (a
    source without rows included); the file at [out_path] is then
    removed, also when one was there before. *)
Theorem normalizer_none_iff_all_skipped E f archive_path inner_path out_path
    only_channel (fs fs' : filesystem) rows failure :
  stream_csv_rows E archive_path inner_path = (rows, failure) →
  write_family_events E f archive_path inner_path out_path only_channel fs = (fs', Ok None)
  ↔ fs' = delete out_path fs ∧ failure = None ∧
    Forall (skipped_by_filter only_channel) rows.
Proof.
  intros Hs. rewrite write_family_events_unfold. unfold write_events. rewrite Hs. split.
  - destruct (write_rows E _ rows _) as [[text v] err] eqn:Hw.
    destruct err as [e|]; [done|]. destruct failure as [e|]; [done|].
    destruct (write_rows_written E f _ _ _ _ _ _ _ Hw) as (_ & Hcount & Hall & _ & Hnil).
    simpl in Hcount.
    destruct (written_rows _ rows _) as [|cells ws]; simpl in Hcount.
    + rewrite Hcount. cbn. intros [= <-].
      rewrite delete_insert_eq. split_and!; [done..|]. by apply Hnil.
    + destruct (Nat.eqb_spec (row_count v) 0) as [H0|_]; [lia|].
      apply Forall_cons in Hall as [(_ & k & _ & Hk & _) _]. rewrite Hk. done.
  - intros (-> & -> & Hsk).
    rewrite <- (app_nil_r rows), write_rows_skipped.
    + cbn. by rewrite delete_insert_eq.
    + eapply Forall_impl; [exact Hsk|]. intros r Hr. by apply body_skip, validate_skipped.
Qed.

Lemma normalizer_none_iff_all_skipped_witness :
  write_family_events (sample_env rows_bad_seq_filtered []) OrderStream "order.7z"
    "SZ/000001.csv" "work/order_000001.events.csv" (Some 1) ∅ = (∅, Ok None)
  ↔ ∅ = delete "work/order_000001.events.csv" (∅ : filesystem) ∧ @None exn = None ∧
    Forall (skipped_by_filter (Some 1)) rows_bad_seq_filtered.
Proof.
  apply (normalizer_none_iff_all_skipped (sample_env rows_bad_seq_filtered []) OrderStream).
  reflexivity.
Defined.

(** * The driver: groups, limits and filters *)

Section Groups.
Implicit Types (channel c : Z) (path p : string) (g : list (Z * list string))
  (all : list (Z * string)).

Lemma setdefault_append_keys c p g :
  (setdefault_append c p g).*1 = if decide (c ∈ g.*1) then g.*1 else g.*1 ++ [c].
Proof.
  induction g as [|[c1 ps] g IH]; [done|]. cbn [setdefault_append].
  destruct (Z.eqb_spec c1 c) as [->|Hne].
  - rewrite decide_True by (cbn; left). done.
  - cbn [fmap list_fmap fst]. rewrite IH.
    destruct (decide (c ∈ g.*1)) as [Hin|Hout].
    + rewrite decide_True by (cbn; by right). done.
    + rewrite decide_False; [done|]. cbn. intros [?|?]%elem_of_cons; [congruence|done].
Qed.

Lemma setdefault_append_elem c p g c' ps' :
  NoDup g.*1 →
  (c', ps') ∈ setdefault_append c p g ↔
  (c' ≠ c ∧ (c', ps') ∈ g) ∨
  (c' = c ∧ ((∃ ps, (c, ps) ∈ g ∧ ps' = ps ++ [p]) ∨ (c ∉ g.*1 ∧ ps' = [p]))).
Proof.
  induction g as [|[c1 ps1] g IH]; intros Hnd.
  { cbn. rewrite list_elem_of_singleton. split.
    - intros [= -> ->]. right. split; [done|]. right. split; [|done]. by intros ?%elem_of_nil.
    - intros [[_ ?%elem_of_nil]|[-> [(? & ?%elem_of_nil & _)|[_ ->]]]]; done. }
  apply NoDup_cons in Hnd as [Hc1 Hnd]. cbn [setdefault_append].
  cbn [fmap list_fmap fst] in *.
  assert (∀ ps, (c1, ps) ∉ g) as Hno.
  { intros ps Hin. apply Hc1. apply list_elem_of_fmap. by exists (c1, ps). }
  destruct (Z.eqb_spec c1 c) as [->|Hne].
  - rewrite !elem_of_cons. setoid_rewrite elem_of_cons. clear IH. naive_solver.
  - rewrite !elem_of_cons, (IH Hnd). setoid_rewrite elem_of_cons. clear IH. naive_solver.
Qed.

(** The groups built from the pairs read so far. *)
Lemma per_channel_groups_inv all : ∀ pre g,
  NoDup g.*1 →
  (∀ c ps, (c, ps) ∈ g ↔ ps ≠ [] ∧ ps = (filter (λ cp, cp.1 = c) pre).*2) →
  let g' := foldl (λ per_channel cp, setdefault_append cp.1 cp.2 per_channel) g all in
  NoDup g'.*1 ∧
  (∀ c ps, (c, ps) ∈ g' ↔ ps ≠ [] ∧ ps = (filter (λ cp, cp.1 = c) (pre ++ all)).*2).
Proof.
  induction all as [|[c p] all IH]; intros pre g Hnd Hg; cbn zeta.
  { cbn [foldl]. by rewrite app_nil_r. }
  cbn [foldl fst snd].
  replace (pre ++ (c, p) :: all) with ((pre ++ [(c, p)]) ++ all) by by rewrite <- app_assoc.
  apply IH.
  - rewrite setdefault_append_keys. case_decide; [done|].
    apply NoDup_app. split_and!; [done| |apply NoDup_singleton].
    intros x Hx ->%list_elem_of_singleton. done.
  - intros c' ps'. rewrite (setdefault_append_elem _ _ _ _ _ Hnd).
    rewrite filter_app, fmap_app, filter_cons, filter_nil. cbn [fst].
    destruct (decide (c' = c)) as [->|Hne].
    + rewrite decide_True by done. cbn [fmap list_fmap snd]. split.
      * intros [[? _]|[_ [(ps & Hin & ->)|[Hout ->]]]]; [done| |].
        -- apply Hg in Hin as [_ <-]. split; [|done]. by destruct ps.
        -- split; [done|].
           destruct ((filter (λ cp, cp.1 = c) pre).*2) as [|p0 ps0] eqn:Hf; [done|].
           destruct Hout. apply list_elem_of_fmap. exists (c, p0 :: ps0). split; [done|].
           apply Hg. by rewrite Hf.
      * intros [_ ->]. right. split; [done|].
        destruct ((filter (λ cp, cp.1 = c) pre).*2) as [|p0 ps0] eqn:Hf.
        -- right. split; [|done]. intros ([c0 ps0] & Hc0 & Hin)%list_elem_of_fmap.
           simpl in Hc0. subst c0. apply Hg in Hin as [Hne Heq]. rewrite Hf in Heq. done.
        -- left. exists (p0 :: ps0). split; [|done]. apply Hg. by rewrite Hf.
    + rewrite decide_False by done. cbn [fmap list_fmap]. rewrite app_nil_r. split.
      * intros [[_ Hin]|[? _]]; [by apply Hg|done].
      * intros Hps. left. split; [done|]. by apply Hg.
Qed.

End Groups.

(** X9.  The groups [main] builds for [--out-dir] have one entry for each
    channel that occurs among the event files, no channel twice, and the
    entry of a channel lists the paths of that channel in the order of
    [all_paths]: no path is lost, none is put under another channel. *)
Theorem per_channel_groups_by_channel (all_paths : list (Z * string)) :
  let per_channel :=
    foldl (λ per_channel cp, setdefault_append cp.1 cp.2 per_channel) [] all_paths in
  NoDup per_channel.*1 ∧
  ∀ channel paths, (channel, paths) ∈ per_channel ↔
    paths ≠ [] ∧ paths = (filter (λ cp, cp.1 = channel) all_paths).*2.
Proof.
  apply (per_channel_groups_inv all_paths [] []); [constructor|].
  intros c ps. split; [by intros ?%elem_of_nil|]. by intros [? ->].
Qed.

Section Limits.
Context (E : os_env).
Implicit Types (fs : filesystem) (inner_paths : list string)
  (event_paths : list (Z * string)).

Lemma build_loop_limit archive_path kind out_dir limit regex only_channel :
  ∀ inner_paths event_paths count fs fs' result,
  count = Z.of_nat (length event_paths) →
  event_paths = [] ∨ count < limit →
  build_loop E archive_path kind out_dir (Some limit) regex only_channel
    inner_paths event_paths count fs = (fs', Ok result) →
  Z.of_nat (length result) ≤ Z.max 1 limit.
Proof.
  induction inner_paths as [|inner_path more IH];
    intros event_paths count fs fs' result Hcount Hinv; cbn [build_loop].
  { intros [= _ <-]. destruct Hinv as [->|?]; [simpl|]; lia. }
  destruct (match regex with Some _ => _ | None => _ end); [by apply IH|].
  destruct (if String.eqb kind "order" then _ else _) as [fs1 [[channel|]|e]];
    [|by apply IH|done].
  destruct (Z.leb_spec limit (count + 1)) as [Hle|Hgt].
  - intros [= _ <-]. rewrite length_app. simpl.
    destruct Hinv as [->|?]; simpl in *; lia.
  - apply IH; [rewrite length_app; simpl; lia|right; lia].
Qed.

Lemma build_loop_empty_regex archive_path kind out_dir limit only_channel :
  ∀ inner_paths event_paths count fs,
  build_loop E archive_path kind out_dir limit (Some EmptyString) only_channel
    inner_paths event_paths count fs
  = build_loop E archive_path kind out_dir limit None only_channel
      inner_paths event_paths count fs.
Proof.
  induction inner_paths as [|inner_path more IH]; intros event_paths count fs;
    cbn [build_loop Py.truthy andb]; [done|].
  destruct (if String.eqb kind "order" then _ else _) as [fs1 [[channel|]|e]];
    [|by apply IH|done].
  destruct (match limit with Some _ => _ | None => _ end); [done|]. apply IH.
Qed.

End Limits.

(** X10.  With [limit_files] given, [build_event_files] returns at most
    [max(1, limit_files)] event files: the limit is checked only after a
    file has been added, so that a limit of zero or less still lets one
    file through. *)
Theorem build_event_files_limit E archive_path kind out_dir limit regex only_channel
    (fs fs' : filesystem) event_paths :
  build_event_files E archive_path kind out_dir (Some limit) regex only_channel fs
    = (fs', Ok event_paths) →
  Z.of_nat (length event_paths) ≤ Z.max 1 limit.
Proof.
  unfold build_event_files. destruct (negb _); [done|].
  destruct (list_csv_paths E archive_path) as [inner_paths|e]; [|done].
  apply build_loop_limit; [done|by left].
Qed.

Lemma build_event_files_limit_witness :
  Z.of_nat (length [(1, "work/order_events/order_000001.events.csv")]) ≤ Z.max 1 0.
Proof.
  apply (build_event_files_limit (sample_env rows_order_ok rows_tick_ok) "order.7z" "order"
           "work/order_events" 0 None None ∅
           (<["work/order_events/order_000001.events.csv" :=
                sample_writerow (CStr <$> EVENT_HEADER) +:+
                join (sample_writerow <$>
                  written_rows (row_body OrderStream "SZ/000001.csv" "000001" None)
                    rows_order_ok (Validator None None 0))]> ∅)).
  vm_compute. reflexivity.
Defined.

(** X11.  An empty [symbol_regex] filters nothing: [build_event_files]
    does with it what it does without a pattern. *)
Theorem empty_symbol_regex_keeps_all E archive_path kind out_dir limit only_channel
    (fs : filesystem) :
  build_event_files E archive_path kind out_dir limit (Some EmptyString) only_channel fs
  = build_event_files E archive_path kind out_dir limit None only_channel fs.
Proof.
  unfold build_event_files. destruct (negb _); [done|].
  destruct (list_csv_paths E archive_path) as [inner_paths|e]; [|done].
  apply build_loop_empty_regex.
Qed.

(** X12.  [main] returns without an exception only when exactly one of
    [--out] and [--out-dir] is given (an empty value counts as not
    given) and at least one event file was produced. *)
Theorem main_returns_only_with_one_output_mode E a (fs fs' : filesystem) :
  main E a fs = Some (fs', None) →
  xorb (given (out a)) (given (out_dir a)) = true ∧
  ∃ fs1 fs2 order_paths tick_paths,
    build_event_files E (order_archive a) "order"
      (events_dir E (temp_root_of E a fs) OrderStream)
      (limit_files a) (symbol_regex a) (channel a) fs = (fs1, Ok order_paths) ∧
    build_event_files E (tick_archive a) "tick"
      (events_dir E (temp_root_of E a fs) TickStream)
      (limit_files a) (symbol_regex a) (channel a) fs1 = (fs2, Ok tick_paths) ∧
    order_paths ++ tick_paths ≠ [].
Proof.
  unfold main, temp_root_of, events_dir, kind_name.
  change ("order" +:+ "_events") with "order_events".
  change ("tick" +:+ "_events") with "tick_events".
  set (temp_root := match work_dir a with Some w => w | None => mkdtemp E fs end).
  assert ((let '(temp_root0, cleanup) :=
             match work_dir a with
             | Some w => (w, false)
             | None => (mkdtemp E fs, negb (keep_temp a))
             end in
           main_body E a temp_root0 fs ≫= λ '(fs'0, err),
             Some (if cleanup then rmtree E temp_root0 fs'0 else fs'0, err))
          = Some (fs', None) → ∃ fs0, main_body E a temp_root fs = Some (fs0, None)) as Hbody.
  { unfold temp_root. destruct (work_dir a);
      destruct (main_body E a _ fs) as [[fs0 [e|]]|]; cbn; try done; by eexists. }
  intros Hmain. apply Hbody in Hmain as [fs0 Hmain]. revert Hmain. unfold main_body.
  destruct (build_event_files E (order_archive a) _ _ _ _ _ fs) as [fs1 [order_paths|e]];
    [|done].
  destruct (build_event_files E (tick_archive a) _ _ _ _ _ fs1) as [fs2 [tick_paths|e]]
    eqn:Htick; [|done].
  destruct (order_paths ++ tick_paths) as [|x xs] eqn:Hall; [done|].
  destruct (given (out_dir a)), (given (out a)); cbn [andb negb xorb]; try done;
    intros _; (split; [done|]); exists fs1, fs2, order_paths, tick_paths;
    (split_and!; [done|exact Htick|by rewrite Hall]).
Qed.

Lemma main_returns_only_with_one_output_mode_witness :
  xorb (given (Some "out.csv")) (given None) = true ∧
  ∃ fs1 fs2 order_paths tick_paths,
    build_event_files (sample_env rows_order_ok rows_tick_ok) "order.7z" "order"
      "work/order_events" None None None ∅ = (fs1, Ok order_paths) ∧
    build_event_files (sample_env rows_order_ok rows_tick_ok) "tick.7z" "tick"
      "work/tick_events" None None None fs1 = (fs2, Ok tick_paths) ∧
    order_paths ++ tick_paths ≠ [].
Proof.
  eapply (main_returns_only_with_one_output_mode (sample_env rows_order_ok rows_tick_ok)
            (sample_args (Some "out.csv") None) ∅).
  vm_compute. reflexivity.
Defined.

(** * Rows written by [csv.writer] and read by the merge *)

Section CsvRows.
Implicit Types (s t body : string) (c : cell) (cells : list cell).

Lemma no_line_break_app s t :
  no_line_break (s +:+ t) = no_line_break s && no_line_break t.
Proof.
  induction s as [|a s IH]; [by rewrite app_empty_l|].
  rewrite app_cons. cbn [no_line_break]. rewrite IH. by rewrite andb_assoc.
Qed.

Lemma complete_line_crlf body :
  no_line_break body = true → complete_line (body +:+ crlf) = true.
Proof.
  induction body as [|a body IH]; [done|]. rewrite app_cons. cbn [no_line_break complete_line].
  intros [Ha Hb]%andb_true_iff. apply negb_true_iff, orb_false_iff in Ha as [Hcr Hlf].
  rewrite Hcr, Hlf. by apply IH.
Qed.

Lemma no_line_break_double_quotes s :
  no_line_break (Csv.double_quotes s) = no_line_break s.
Proof.
  induction s as [|a s IH]; [done|]. cbn [Csv.double_quotes no_line_break].
  destruct (Ascii.eqb_spec a Csv.QUOTE) as [->|_]; cbn [no_line_break]; by rewrite IH.
Qed.

Lemma no_line_break_field c :
  no_line_break (Csv.str c) = true → no_line_break (Csv.field c) = true.
Proof.
  intros Hc. unfold Csv.field. cbn zeta. destruct (Csv.needs_quotes _); [|done].
  cbn [no_line_break]. rewrite no_line_break_app, no_line_break_double_quotes, Hc. done.
Qed.

Lemma no_line_break_join_fields cells :
  Forall (λ c, no_line_break (Csv.str c) = true) cells →
  no_line_break (Csv.join_fields (Csv.field <$> cells)) = true.
Proof.
  induction 1 as [|c cells Hc Hcells IH]; [done|]. cbn [fmap list_fmap Csv.join_fields].
  destruct cells as [|c' cells]; [by apply no_line_break_field|].
  cbn [fmap list_fmap] in *. rewrite !no_line_break_app, IH, no_line_break_field by done.
  done.
Qed.

Lemma writerow_complete cells :
  Forall (λ c, no_line_break (Csv.str c) = true) cells →
  complete_line (Csv.writerow cells) = true.
Proof.
  intros Hcells. unfold Csv.writerow.
  destruct cells as [|c [|c' cells]].
  - done.
  - case_decide; [done|]. apply complete_line_crlf, no_line_break_field.
    by apply Forall_cons in Hcells as [? _].
  - by apply complete_line_crlf, no_line_break_join_fields.
Qed.

Lemma needs_quotes_lacks s :
  lacks "," s → lacks Csv.QUOTE s → lacks Py.CR s → lacks Py.LF s →
  Csv.needs_quotes s = false.
Proof.
  induction s as [|a s IH]; [done|]. cbn [lacks Csv.needs_quotes].
  intros [Ha1 ?] [Ha2 ?] [Ha3 ?] [Ha4 ?]. rewrite IH by done. unfold Csv.special.
  by repeat match goal with
            | |- context [Ascii.eqb a ?b] => destruct (Ascii.eqb_spec a b); [done|]
            end.
Qed.

Lemma field_int (z : Z) : Csv.field (CInt z) = pretty z.
Proof.
  unfold Csv.field. cbn [Csv.str]. cbn zeta.
  by rewrite needs_quotes_lacks by (apply pretty_Z_lacks; [vm_compute; lia|done]).
Qed.

Lemma writerow_key (channel seq : Z) c cells :
  parse_key (Csv.writerow (CInt channel :: CInt seq :: c :: cells)) = Ok (channel, seq).
Proof.
  unfold Csv.writerow. cbn [fmap list_fmap Csv.join_fields]. rewrite !field_int.
  rewrite !app_assoc_str. apply parse_key_decimal.
Qed.

Lemma forallb_Forall {A} (f : A → bool) (l : list A) :
  Forall (λ x, f x = true) l → forallb f l = true.
Proof. induction 1 as [|x l Hx _ IH]; [done|]. cbn. by rewrite Hx, IH. Qed.

Lemma sorted_written (writer : list cell → string) ws :
  Forall (λ cells, ∃ k, row_key cells = Some k ∧ parse_key (writer cells) = Ok k) ws →
  StronglySorted key_le (omap row_key ws) → StronglySorted line_le (writer <$> ws).
Proof.
  induction 1 as [|cells ws (k & Hk & Hp) Hws IH]; [constructor|].
  cbn [omap list_omap fmap list_fmap]. rewrite Hk. intros Hs.
  apply StronglySorted_inv in Hs as [Hs Hall]. constructor; [by apply IH|].
  apply Forall_fmap, Forall_forall. intros cells' Hin.
  rewrite Forall_forall in Hws. destruct (Hws _ Hin) as (k' & Hk' & Hp').
  rewrite Forall_forall in Hall. unfold line_le, key_of. cbn. rewrite Hp, Hp'.
  apply Hall. apply list_elem_of_omap. by exists cells'.
Qed.

End CsvRows.

Lemma csv_output_valid E f archive_path inner_path out_path
    only_channel (fs fs' : filesystem) c :
  write_family_events (with_csv_writer E) f archive_path inner_path out_path
    only_channel fs = (fs', Ok (Some c)) →
  Forall (Forall (λ cell, no_line_break (Csv.str cell) = true))
    (written_rows (row_body f inner_path (symbol_of E inner_path) only_channel)
       (stream_csv_rows E archive_path inner_path).1 (Validator None None 0)) →
  event_files fs' (Csv.writerow (CStr <$> EVENT_HEADER)) [out_path] = true ∧
  sources_sorted fs' [out_path] = true ∧
  Forall (λ line, ∃ seq, parse_key line = Ok (c, seq)) (concat (source_lines fs' [out_path])).
Proof.
  rewrite write_family_events_unfold. unfold write_events.
  cbn [with_csv_writer stream_csv_rows symbol_of writerow].
  destruct (stream_csv_rows E archive_path inner_path) as [rows failure]. cbn [fst].
  destruct (write_rows _ _ rows _) as [[text v] err] eqn:Hw.
  destruct err as [e|]; [done|]. destruct failure as [e|]; [done|].
  destruct (write_rows_written (with_csv_writer E) f _ _ _ _ _ _ _ Hw)
    as (Ht & Hcount & Hall & Hsorted & _).
  cbn [with_csv_writer writerow] in Ht. cbn zeta in *.
  destruct (Nat.eqb_spec (row_count v) 0) as [|Hne]; [done|]. intros [= Hfs Hc] Hplain.
  set (ws := written_rows _ rows _) in *.
  set (h := Csv.writerow (CStr <$> EVENT_HEADER)).
  assert (complete_line h = true) as Hh by (by vm_compute).
  assert (Forall (λ cells, ∃ k, row_key cells = Some k ∧ k.1 = c ∧
                    parse_key (Csv.writerow cells) = Ok k ∧
                    complete_line (Csv.writerow cells) = true) ws) as Hrows.
  { apply Forall_forall. intros cells Hin.
    rewrite Forall_forall in Hall. destruct (Hall _ Hin) as (Hlen & [c1 s] & Hk & Hkc & _).
    rewrite Forall_forall in Hplain. specialize (Hplain _ Hin).
    exists (c1, s). split_and!; [done|simpl in *; congruence| |by apply writerow_complete].
    destruct cells as [|[z1| |] [|[z2| |] [|c3 cells]]]; try done.
    injection Hk as -> ->. apply writerow_key. }
  assert (Forall line_ok (Csv.writerow <$> ws)) as Hok.
  { apply Forall_fmap. eapply Forall_impl; [exact Hrows|].
    intros cells (k & _ & _ & Hp & Hcl). split; [done|]. unfold parses. by rewrite Hp. }
  assert (fs' !! out_path = Some (h +:+ join (Csv.writerow <$> ws))) as Hfile.
  { subst fs'. by rewrite lookup_insert_eq, Ht. }
  unfold event_files, sources_sorted, source_lines, event_file.
  cbn [forallb fmap list_fmap concat]. rewrite Hfile. cbn [from_option].
  rewrite data_lines_written, readlines_written, header_line_written by done.
  rewrite Hh, bool_decide_eq_true_2 by done. rewrite app_nil_r. split_and!.
  - rewrite !forallb_Forall; [done| |].
    + eapply Forall_impl; [exact Hok|]. by intros ? [_ ?].
    + eapply Forall_impl; [exact Hok|]. by intros ? [? _].
  - rewrite andb_true_r. apply sorted_lines_strongly, sorted_written; [|done].
    eapply Forall_impl; [exact Hrows|]. intros cells (k & ? & _ & ? & _). by exists k.
  - apply Forall_fmap. eapply Forall_impl; [exact Hrows|].
    intros cells ([c1 s] & _ & Hc1 & Hp & _). simpl in Hc1. subst c1. by exists s.
Qed.

(** X13.  With the writer of the [csv] module, the file a normalizer
    leaves when it returns a channel [c] is an event file as the merge
    expects it, provided no cell it wrote holds a line break: the header
    row and every data row are complete lines, every data row has a key
    that [parse_key] reads, with the channel [c], and the rows are in
    [(channel, sequence)] order. *)
Theorem normalizer_output_is_sorted_event_file E f archive_path inner_path out_path
    only_channel (fs fs' : filesystem) c :
  write_family_events (with_csv_writer E) f archive_path inner_path out_path
    only_channel fs = (fs', Ok (Some c)) →
  Forall (Forall (λ cell, no_line_break (Csv.str cell) = true))
    (written_rows (row_body f inner_path (symbol_of E inner_path) only_channel)
       (stream_csv_rows E archive_path inner_path).1 (Validator None None 0)) →
  event_files fs' (Csv.writerow (CStr <$> EVENT_HEADER)) [out_path] = true ∧
  sources_sorted fs' [out_path] = true ∧
  Forall (λ line, ∃ seq, parse_key line = Ok (c, seq)) (concat (source_lines fs' [out_path])).
Proof. apply csv_output_valid. Qed.

Lemma normalizer_output_is_sorted_event_file_witness :
  event_files
    (<["work/order_000001.events.csv" :=
         Csv.writerow (CStr <$> EVENT_HEADER) +:+ join (Csv.writerow <$>
           written_rows (row_body OrderStream "SZ/000001.csv" "000001" None)
             rows_order_ok (Validator None None 0))]> ∅)
    (Csv.writerow (CStr <$> EVENT_HEADER)) ["work/order_000001.events.csv"] = true ∧
  sources_sorted
    (<["work/order_000001.events.csv" :=
         Csv.writerow (CStr <$> EVENT_HEADER) +:+ join (Csv.writerow <$>
           written_rows (row_body OrderStream "SZ/000001.csv" "000001" None)
             rows_order_ok (Validator None None 0))]> ∅)
    ["work/order_000001.events.csv"] = true ∧
  Forall (λ line, ∃ seq, parse_key line = Ok (1, seq))
    (concat (source_lines
       (<["work/order_000001.events.csv" :=
            Csv.writerow (CStr <$> EVENT_HEADER) +:+ join (Csv.writerow <$>
              written_rows (row_body OrderStream "SZ/000001.csv" "000001" None)
                rows_order_ok (Validator None None 0))]> ∅)
       ["work/order_000001.events.csv"])).
Proof.
  apply (normalizer_output_is_sorted_event_file (sample_env rows_order_ok [])
           OrderStream "order.7z" "SZ/000001.csv" "work/order_000001.events.csv" None ∅).
  - vm_compute. reflexivity.
  - vm_compute. repeat constructor.
Defined.

(** * Symbols of sources *)

Section Symbols.
Implicit Types (s t a b name ext dir path : string) (c : ascii) (n i : nat).

Lemma rfind_lacks c s : lacks c s → OsPath.rfind c s = None.
Proof.
  induction s as [|x s IH]; [done|]. intros [Hx Hs]. cbn [OsPath.rfind].
  rewrite IH by done. by destruct (Ascii.eqb_spec x c).
Qed.

Lemma rfind_at c s t : lacks c t → OsPath.rfind c (s +:+ String c t) = Some (String.length s).
Proof.
  intros Ht. induction s as [|x s IH].
  - rewrite app_empty_l. cbn [OsPath.rfind]. by rewrite rfind_lacks, Ascii.eqb_refl.
  - rewrite app_cons. cbn [OsPath.rfind]. by rewrite IH.
Qed.

(** A text is free of [c], or splits at its last [c]. *)
Lemma last_sep c s : lacks c s ∨ ∃ a b, s = a +:+ String c b ∧ lacks c b.
Proof.
  induction s as [|x s [IH|(a & b & -> & Hb)]].
  - by left.
  - destruct (decide (x = c)) as [->|Hx].
    + right. by exists EmptyString, s.
    + left. by split.
  - right. by exists (String x a), b.
Qed.

Lemma drop_str_app s t : OsPath.drop_str (String.length s) (s +:+ t) = t.
Proof. induction s as [|x s IH]; [by destruct t|]. by rewrite app_cons. Qed.

Lemma take_str_app s t : OsPath.take_str (String.length s) (s +:+ t) = s.
Proof.
  induction s as [|x s IH]; [by destruct t|]. rewrite app_cons. cbn. by rewrite IH.
Qed.

Lemma take_drop_str n s : OsPath.take_str n s +:+ OsPath.drop_str n s = s.
Proof.
  revert s. induction n as [|n IH]; intros [|x s]; try done.
  cbn [OsPath.take_str OsPath.drop_str]. by rewrite app_cons, IH.
Qed.

Lemma drop_drop_str n m s :
  OsPath.drop_str n (OsPath.drop_str m s) = OsPath.drop_str (m + n) s.
Proof.
  revert s. induction m as [|m IH]; intros s; [done|].
  destruct s as [|x s]; [by destruct n|]. cbn. apply IH.
Qed.

Lemma length_drop_str n s :
  String.length (OsPath.drop_str n s) = (String.length s - n)%nat.
Proof. revert s. induction n as [|n IH]; intros [|x s]; try done. cbn. apply IH. Qed.

Lemma length_take_str n s :
  String.length (OsPath.take_str n s) = (n `min` String.length s)%nat.
Proof.
  revert s. induction n as [|n IH]; intros [|x s]; try done. cbn. by rewrite IH.
Qed.

Lemma all_dots_app s t : OsPath.all_dots (s +:+ t) = OsPath.all_dots s && OsPath.all_dots t.
Proof.
  induction s as [|x s IH]; [by rewrite app_empty_l|].
  rewrite app_cons. cbn [OsPath.all_dots]. by rewrite IH, andb_assoc.
Qed.

Lemma basename_after_sep dir t :
  lacks "/" t → OsPath.basename (dir +:+ String "/" t) = t.
Proof.
  intros Ht. unfold OsPath.basename. rewrite rfind_at by done.
  change (OsPath.drop_str (S (String.length dir)) (dir +:+ String "/" t))
    with (OsPath.drop_str (String.length (dir +:+ "/")) (dir +:+ String "/" t)) at 1
    || idtac.
  replace (S (String.length dir)) with (String.length (dir +:+ "/")).
  - replace (dir +:+ String "/" t) with ((dir +:+ "/") +:+ t); [apply drop_str_app|].
    by rewrite app_assoc_str.
  - rewrite length_app_str. simpl. lia.
Qed.

Lemma basename_lacks_sep t : lacks "/" t → OsPath.basename t = t.
Proof. intros Ht. unfold OsPath.basename. by rewrite rfind_lacks. Qed.

Lemma splitext_root name ext :
  lacks "/" name → lacks "/" ext → lacks "." ext → OsPath.all_dots name = false →
  OsPath.splitext (name +:+ String "." ext) = (name, String "." ext).
Proof.
  intros Hname Hext Hdot Hdots. unfold OsPath.splitext.
  rewrite rfind_at by done. rewrite rfind_lacks.
  - cbn zeta. rewrite Nat.sub_0_r. cbn [OsPath.drop_str Nat.leb andb].
    by rewrite take_str_app, drop_str_app, Hdots.
  - apply lacks_app. split; [done|]. by split.
Qed.

Lemma all_digits_lacks c s :
  Py.digit c = None → all_digits s = true → lacks c s.
Proof.
  intros Hc. induction s as [|x s IH]; [done|]. cbn [all_digits lacks].
  intros [Hx Hs]%andb_true_iff. split; [|by apply IH].
  intros ->. apply bool_decide_eq_true in Hx as [? Hx]. congruence.
Qed.

Lemma all_digits_not_dots s :
  s ≠ EmptyString → all_digits s = true → OsPath.all_dots s = false.
Proof.
  destruct s as [|x s]; [done|]. intros _. cbn [all_digits OsPath.all_dots].
  intros [Hx _]%andb_true_iff. apply bool_decide_eq_true in Hx as [v Hx].
  destruct (Ascii.eqb_spec x ".") as [->|_]; [|done]. by vm_compute in Hx.
Qed.

(** The symbol of a path whose last component is [name], followed by an
    extension. *)
Lemma symbol_of_name pre name ext :
  (pre = EmptyString ∨ ∃ dir, pre = dir +:+ "/") →
  lacks "/" name → lacks "/" ext → lacks "." ext → OsPath.all_dots name = false →
  OsPath.symbol (pre +:+ name +:+ String "." ext) = name ∧
  OsPath.basename (pre +:+ name +:+ String "." ext) = name +:+ String "." ext.
Proof.
  intros Hpre Hname Hext Hdot Hdots. unfold OsPath.symbol.
  assert (lacks "/" (name +:+ String "." ext)) as Hlast.
  { apply lacks_app. split; [done|]. by split. }
  assert (OsPath.basename (pre +:+ name +:+ String "." ext) = name +:+ String "." ext)
    as ->.
  { destruct Hpre as [->|[dir ->]].
    - rewrite app_empty_l. by apply basename_lacks_sep.
    - rewrite app_assoc_str. by apply basename_after_sep. }
  by rewrite splitext_root.
Qed.

End Symbols.

(** X14.  The symbol of a source is the name of its file without the
    directories and without the last extension: for a name that holds no
    slash and is not made of dots only, the symbol of [dir/name.csv], and
    of [name.csv], is [name]. *)
Theorem symbol_of_csv_path dir name :
  lacks "/" name → OsPath.all_dots name = false →
  OsPath.symbol (dir +:+ "/" +:+ name +:+ ".csv") = name ∧
  OsPath.symbol (name +:+ ".csv") = name.
Proof.
  intros Hname Hdots. split.
  - rewrite <- app_assoc_str.
    apply (symbol_of_name (dir +:+ "/") name "csv"); [right; by exists dir|done..].
  - rewrite <- (app_empty_l (name +:+ ".csv")).
    apply (symbol_of_name EmptyString name "csv"); [by left|done..].
Qed.

Lemma symbol_of_csv_path_witness :
  OsPath.symbol ("SZ/order" +:+ "/" +:+ "000001" +:+ ".csv") = "000001" ∧
  OsPath.symbol ("000001" +:+ ".csv") = "000001".
Proof. apply symbol_of_csv_path; [by vm_compute|reflexivity]. Defined.

(** X15.  The two scripts agree on the symbol of a file named by six
    digits: whenever the expression of the Polars script extracts a
    symbol from a path, the path's last component is [pre ++ symbol ++
    ".csv"] for some [pre], and the streaming script's symbol is [pre ++
    symbol]; so the two symbols are equal exactly when the file name has
    nothing before the six digits. *)
Theorem polars_symbol_is_suffix_of_symbol path s :
  symbol_from_path_expr path = Some s →
  String.length s = 6%nat ∧ all_digits s = true ∧
  ∃ pre, OsPath.basename path = pre +:+ s +:+ ".csv" ∧
         OsPath.symbol path = pre +:+ s ∧
         (OsPath.symbol path = s ↔ pre = EmptyString).
Proof.
  unfold symbol_from_path_expr. cbn zeta.
  remember (String.length path) as n eqn:Hn0.
  remember (OsPath.take_str 6 (OsPath.drop_str (n - 10) path)) as g eqn:Hg.
  destruct (Nat.leb_spec 10 n) as [Hn|]; [|done]. cbn [andb].
  destruct (String.eqb_spec (OsPath.drop_str (n - 4) path) ".csv") as [Hext|]; [|done].
  cbn [andb]. destruct (all_digits g) eqn:Hdigits; [|done]. intros [= <-].
  assert (String.length g = 6%nat) as Hlen.
  { rewrite Hg, length_take_str, length_drop_str. lia. }
  assert (path = OsPath.take_str (n - 10) path +:+ g +:+ ".csv") as Hpath.
  { rewrite <- (take_drop_str (n - 10) path) at 1. f_equal.
    rewrite Hg, <- Hext, <- (take_drop_str 6 (OsPath.drop_str (n - 10) path)) at 1. f_equal.
    rewrite drop_drop_str. by replace (n - 10 + 6)%nat with (n - 4)%nat by lia. }
  split_and!; [done..|].
  remember (OsPath.take_str (n - 10) path) as front eqn:Hfront0.
  clear Hg Hfront0 Hext Hn Hn0 n. rename g into s.
  assert (lacks "/" s) as Hs by (by apply all_digits_lacks).
  assert (s ≠ EmptyString) as Hne by (intros Hs'; by rewrite Hs' in Hlen).
  assert (∃ pre, lacks "/" pre ∧
            (front = pre ∨ ∃ dir, front = (dir +:+ "/") +:+ pre)) as (pre & Hpre & Hfront).
  { destruct (last_sep "/" front) as [?|(a & b & -> & Hb)].
    - exists front. split; [done|by left].
    - exists b. split; [done|]. right. exists a. by rewrite app_assoc_str. }
  assert (OsPath.all_dots (pre +:+ s) = false) as Hdots.
  { by rewrite all_dots_app, (all_digits_not_dots s), andb_false_r. }
  assert (lacks "/" (pre +:+ s)) as Hname by (by apply lacks_app).
  assert (OsPath.symbol path = pre +:+ s ∧
          OsPath.basename path = (pre +:+ s) +:+ String "." "csv") as [Hsym Hbase].
  { rewrite Hpath. destruct Hfront as [->|[dir ->]].
    - rewrite <- (app_empty_l (pre +:+ s +:+ ".csv")), <- (app_assoc_str pre s).
      apply (symbol_of_name EmptyString (pre +:+ s) "csv"); [by left|done..].
    - rewrite (app_assoc_str (dir +:+ "/") pre), <- (app_assoc_str pre s).
      apply (symbol_of_name (dir +:+ "/") (pre +:+ s) "csv"); [right; by exists dir|done..]. }
  exists pre. split_and!; [by rewrite Hbase, app_assoc_str|done|].
  rewrite Hsym. split; [|by intros ->].
  intros Heq. apply (f_equal String.length) in Heq. rewrite length_app_str in Heq.
  destruct pre; [done|simpl in Heq; lia].
Qed.

Lemma polars_symbol_is_suffix_of_symbol_witness :
  String.length "000001" = 6%nat ∧ all_digits "000001" = true ∧
  ∃ pre, OsPath.basename "SZ/order/SZ000001.csv" = pre +:+ "000001" +:+ ".csv" ∧
         OsPath.symbol "SZ/order/SZ000001.csv" = pre +:+ "000001" ∧
         (OsPath.symbol "SZ/order/SZ000001.csv" = "000001" ↔ pre = EmptyString).
Proof.
  apply (polars_symbol_is_suffix_of_symbol "SZ/order/SZ000001.csv" "000001").
  vm_compute. reflexivity.
Defined.

(** * [split_sorted_csv] *)

Section Split.
Context (out_dir header : string) (fs : filesystem).
Implicit Types (st : split_state) (seen rest : list string) (c channel line : string).

Lemma app_inj_len s s' t t' :
  String.length s = String.length s' → s +:+ t = s' +:+ t' → s = s' ∧ t = t'.
Proof.
  revert s'. induction s as [|x s IH]; intros [|x' s']; try done.
  rewrite !app_cons. intros [= Hlen] [= -> Heq]. destruct (IH _ Hlen Heq) as [-> ->]. done.
Qed.

Lemma channel_path_inj c c' :
  channel_path out_dir c = channel_path out_dir c' → c = c'.
Proof.
  unfold channel_path, path_join_posix. cbn [starts_with Ascii.eqb Bool.eqb andb].
  assert ("channel_" +:+ c +:+ ".csv" = "channel_" +:+ c' +:+ ".csv" → c = c') as Hname.
  { intros H%(inj (String.append "channel_")).
    assert (String.length c = String.length c') as Hlen.
    { apply (f_equal String.length) in H. rewrite !length_app_str in H. lia. }
    by destruct (app_inj_len _ _ _ _ Hlen H). }
  destruct (negb (Py.truthy out_dir) || ends_with_sep out_dir).
  - intros H%(inj (String.append out_dir)). by apply Hname.
  - intros H%(inj (String.append out_dir)). apply Hname.
    by apply (inj (String.append "/")) in H.
Qed.

Lemma write_lookup path text (fs0 : filesystem) :
  write path text fs0 !! path = Some (default EmptyString (fs0 !! path) +:+ text).
Proof. unfold write. by rewrite lookup_insert_eq. Qed.

Lemma write_lookup_ne path text (fs0 : filesystem) q :
  q ≠ path → write path text fs0 !! q = fs0 !! q.
Proof. intros Hq. unfold write. by rewrite lookup_insert_ne. Qed.

Lemma lines_of_snoc_empty c seen line :
  rstrip_LF line = EmptyString → channel_lines c (seen ++ [line]) = channel_lines c seen.
Proof.
  intros Hl. unfold channel_lines.
  rewrite fmap_app, !filter_app. cbn [fmap list_fmap]. rewrite Hl.
  rewrite filter_cons, decide_False by naive_solver. by rewrite filter_nil, app_nil_r.
Qed.

Lemma lines_of_snoc c seen line :
  rstrip_LF line ≠ EmptyString →
  channel_lines c (seen ++ [line])
  = channel_lines c seen ++
    (if decide (channel_field (rstrip_LF line) = c) then [rstrip_LF line] else []).
Proof.
  intros Hl. unfold channel_lines.
  rewrite fmap_app, !filter_app. cbn [fmap list_fmap]. f_equal.
  rewrite (filter_cons (λ l, l ≠ EmptyString)), decide_True by done.
  rewrite filter_nil, filter_cons, filter_nil. by case_decide.
Qed.

Lemma content_snoc c seen line :
  rstrip_LF line ≠ EmptyString → channel_field (rstrip_LF line) = c →
  channel_content header c (seen ++ [line])
  = channel_content header c seen +:+ (rstrip_LF line +:+ String Py.LF EmptyString).
Proof.
  intros Hl Hc. unfold channel_content. rewrite lines_of_snoc, decide_True by done.
  rewrite fmap_app, join_app. cbn [fmap list_fmap join].
  by rewrite app_empty_r, !app_assoc_str.
Qed.

Lemma split_line_inv st seen line :
  split_inv out_dir header fs st seen →
  split_inv out_dir header fs (split_line out_dir header st line) (seen ++ [line]).
Proof.
  intros (Hh & Hcur & Hnone & Hfs & Hframe). unfold split_line. cbn zeta.
  destruct (rstrip_LF line) as [|x l'] eqn:Hl.
  { cbn [Py.truthy negb]. unfold split_inv.
    split_and!; intros; unfold channel_content;
      rewrite ?(lines_of_snoc_empty _ seen line Hl); auto. }
  cbn [Py.truthy negb]. rewrite <- Hl.
  assert (rstrip_LF line ≠ EmptyString) as Hne by (by rewrite Hl).
  set (l := rstrip_LF line) in *. set (c0 := channel_field l).
  (* the state after the handle has been chosen *)
  assert (∃ st1,
    (if decide (current_channel st = Some c0) then st
     else
       let '(handles', fs') :=
         match handles st !! c0 with
         | Some _ => (handles st, split_fs st)
         | None =>
             (<[c0 := channel_path out_dir c0]> (handles st),
              write (channel_path out_dir c0) (header +:+ String Py.LF EmptyString)
                (<[channel_path out_dir c0 := EmptyString]> (split_fs st)))
         end in
       SplitState handles' (Some c0) (handles' !! c0) fs') = st1 ∧
    current_channel st1 = Some c0 ∧
    current_handle st1 = Some (channel_path out_dir c0) ∧
    (∀ c, handles st1 !! c
          = if decide (channel_lines c (seen ++ [line]) = []) then None
            else Some (channel_path out_dir c)) ∧
    (∀ c, c ≠ c0 → split_fs st1 !! channel_path out_dir c
                   = split_fs st !! channel_path out_dir c) ∧
    split_fs st1 !! channel_path out_dir c0
      = Some (if decide (channel_lines c0 seen = [])
              then header +:+ String Py.LF EmptyString else channel_content header c0 seen) ∧
    (∀ q, (∀ c, q ≠ channel_path out_dir c) → split_fs st1 !! q = fs !! q))
    as (st1 & -> & Hc1 & Hh1 & Hhs1 & Hother & Hown & Hframe1).
  { assert (∀ c, (if decide (channel_lines c (seen ++ [line]) = []) then None
                  else Some (channel_path out_dir c))
                 = if decide (c = c0) then Some (channel_path out_dir c)
                   else handles st !! c) as Hnew.
    { intros c. rewrite lines_of_snoc by done. fold l. fold c0. rewrite Hh.
      destruct (decide (c = c0)) as [->|Hc].
      - rewrite (decide_True (P := c0 = c0)) by done.
        rewrite decide_False; [done|]. by intros [_ ?]%app_eq_nil.
      - rewrite (decide_False (P := c0 = c)) by done. by rewrite app_nil_r. }
    destruct (decide (current_channel st = Some c0)) as [Hcc|Hcc].
    - destruct (Hcur _ Hcc) as [Hhandle Hlines]. exists st.
      split_and!;
        [done..| |
         |by rewrite Hfs, !(decide_False (P := channel_lines c0 seen = [])) by done|done];
        [|done].
      intros c. rewrite Hnew. case_decide as Hc; [subst c|done].
      by rewrite Hh, decide_False.
    - destruct (handles st !! c0) as [path|] eqn:Hlook.
      + pose proof (Hh c0) as Hh0. rewrite Hlook in Hh0.
        destruct (decide (channel_lines c0 seen = [])) as [|Hlines]; [done|].
        injection Hh0 as ->. eexists. split; [reflexivity|]. cbn.
        split_and!;
          [done|done| |done
          |by rewrite Hfs, !(decide_False (P := channel_lines c0 seen = [])) by done|done].
        intros c. rewrite Hnew. case_decide as Hc; [subst c|done]. done.
      + pose proof (Hh c0) as Hh0. rewrite Hlook in Hh0.
        destruct (decide (channel_lines c0 seen = [])) as [Hlines|]; [|done].
        eexists. split; [reflexivity|]. cbn.
        split_and!; [done|by rewrite lookup_insert_eq| | | |].
        * intros c. rewrite Hnew. case_decide as Hc; [subst c|].
          -- by rewrite lookup_insert_eq.
          -- by rewrite lookup_insert_ne.
        * intros c Hc. rewrite write_lookup_ne, lookup_insert_ne; [done|..];
            intros ?%channel_path_inj; done.
        * by rewrite write_lookup, lookup_insert_eq.
        * intros q Hq. rewrite write_lookup_ne, lookup_insert_ne by done. by apply Hframe. }
  rewrite Hh1. unfold split_inv.
  cbn [handles current_channel current_handle split_fs]. split_and!.
  - done.
  - intros c Hc. rewrite Hc1 in Hc. injection Hc as <-. split; [done|].
    rewrite lines_of_snoc by done. fold l. fold c0.
    rewrite (decide_True (P := c0 = c0)) by done. by intros [_ ?]%app_eq_nil.
  - by rewrite Hc1.
  - intros c. destruct (decide (c = c0)) as [->|Hc].
    + rewrite write_lookup, Hown. cbn [default].
      rewrite (decide_False (P := channel_lines c0 (seen ++ [line]) = [])).
      2: { rewrite lines_of_snoc by done. fold l. fold c0.
           rewrite (decide_True (P := c0 = c0)) by done. by intros [_ ?]%app_eq_nil. }
      f_equal. rewrite content_snoc by done. fold l.
      case_decide as Hlines; [|done].
      unfold channel_content. rewrite Hlines. cbn [fmap list_fmap join]. by rewrite app_empty_r.
    + rewrite write_lookup_ne by (intros ?%channel_path_inj; done).
      rewrite Hother, Hfs by done.
      rewrite lines_of_snoc by done. fold l. fold c0.
      rewrite (decide_False (P := c0 = c)) by done. rewrite app_nil_r.
      destruct (decide (channel_lines c seen = [])); [done|]. unfold channel_content.
      rewrite lines_of_snoc by done. fold l. fold c0.
      rewrite (decide_False (P := c0 = c)) by done. by rewrite app_nil_r.
  - intros q Hq. rewrite write_lookup_ne by done. by apply Hframe1.
Qed.

Lemma split_lines_inv rest : ∀ st seen,
  split_inv out_dir header fs st seen →
  split_inv out_dir header fs (foldl (split_line out_dir header) st rest) (seen ++ rest).
Proof.
  induction rest as [|line rest IH]; intros st seen Hinv; cbn [foldl].
  { by rewrite app_nil_r. }
  replace (seen ++ line :: rest) with ((seen ++ [line]) ++ rest) by by rewrite <- app_assoc.
  apply IH. by apply split_line_inv.
Qed.

Lemma split_inv_init : split_inv out_dir header fs (SplitState ∅ None None fs) [].
Proof. unfold split_inv. cbn. split_and!; done. Qed.

Lemma split_result rest :
  let fs' := split_fs (foldl (split_line out_dir header) (SplitState ∅ None None fs) rest) in
  (∀ c, fs' !! channel_path out_dir c
        = if decide (channel_lines c rest = []) then fs !! channel_path out_dir c
          else Some (channel_content header c rest)) ∧
  (∀ q, (∀ c, q ≠ channel_path out_dir c) → fs' !! q = fs !! q).
Proof.
  destruct (split_lines_inv rest _ [] split_inv_init) as (_ & _ & _ & Hfs & Hframe).
  done.
Qed.

End Split.

Lemma readlines_head text first rest :
  readlines text = first :: rest → first = header_line text.
Proof.
  unfold readlines, header_line. destruct (String.length text); [done|].
  cbn [readlines_fuel]. destruct (Py.readline text) as [l r]. cbn [fst].
  destruct (Py.truthy l); [|done]. by intros [= -> _].
Qed.

(** X16.  [split_sorted_csv] sorts the data lines of the input into one
    file per channel: the file of a channel that occurs holds the header
    line and then, each ended by [\n], exactly the data lines whose
    first field is that channel, in their order in the input; no file is
    written for a channel that does not occur; and no other file is
    touched.  The data lines are the lines after the first that are not
    empty once [\n] is stripped; the input is not itself the file of a
    channel, and every channel can stand in a file name. *)
Theorem split_sorted_csv_partitions sorted_path out_dir (fs : filesystem) text :
  fs !! sorted_path = Some text →
  (∀ channel, sorted_path ≠ channel_path out_dir channel) →
  forallb (λ line, plain_name (channel_field line)) (split_data text) = true →
  let header := rstrip_LF (header_line text) in
  let result := split_sorted_csv sorted_path out_dir fs in
  result.2 = None ∧
  (∀ channel,
     let lines := filter (λ l, channel_field l = channel) (split_data text) in
     result.1 !! channel_path out_dir channel
     = if decide (lines = []) then fs !! channel_path out_dir channel
       else Some (header +:+ String Py.LF EmptyString
                  +:+ join ((λ l, l +:+ String Py.LF EmptyString) <$> lines))) ∧
  (∀ q, (∀ channel, q ≠ channel_path out_dir channel) → result.1 !! q = fs !! q).
Proof.
  intros Hfile _ _. cbn zeta. unfold split_sorted_csv, split_data. rewrite Hfile.
  destruct (readlines text) as [|first rest] eqn:Hlines.
  { cbn. split_and!; [done| |done]. by intros c. }
  apply readlines_head in Hlines as ->. cbn [fst snd tail].
  split; [done|]. apply (split_result out_dir (rstrip_LF (header_line text)) fs rest).
Qed.

Lemma split_sorted_csv_partitions_witness :
  let header := rstrip_LF (header_line sample_a) in
  let result := split_sorted_csv "work/a.events.csv" "out" sample_fs in
  result.2 = None ∧
  (∀ channel,
     let lines := filter (λ l, channel_field l = channel) (split_data sample_a) in
     result.1 !! channel_path "out" channel
     = if decide (lines = []) then sample_fs !! channel_path "out" channel
       else Some (header +:+ String Py.LF EmptyString
                  +:+ join ((λ l, l +:+ String Py.LF EmptyString) <$> lines))) ∧
  (∀ q, (∀ channel, q ≠ channel_path "out" channel) → result.1 !! q = sample_fs !! q).
Proof.
  apply (split_sorted_csv_partitions "work/a.events.csv" "out" sample_fs sample_a).
  - reflexivity.
  - intros channel. vm_compute. discriminate.
  - vm_compute. reflexivity.
Defined.

(** * The number of rounds *)

Section RoundCount.

(** [range(i, stop, step)] has [ceil((stop - i) / step)] elements. *)
Lemma range_from_length fuel step : (1 ≤ step)%nat → ∀ i stop,
  (stop ≤ fuel + i)%nat → (i < stop)%nat →
  let k := length (range_from fuel i stop step) in
  (i + step * (k - 1) < stop ≤ i + step * k)%nat ∧ (1 ≤ k)%nat.
Proof.
  intros Hstep. induction fuel as [|fuel IH]; intros i stop Hfuel Hi; [lia|].
  cbn zeta. cbn [range_from]. destruct (Nat.ltb_spec i stop) as [_|?]; [|lia].
  cbn [length].
  destruct (decide (i + step < stop)%nat) as [Hlt|Hge].
  - destruct (IH (i + step)%nat stop) as [Hk H1]; [lia|done|].
    cbn zeta in Hk. nia.
  - assert (range_from fuel (i + step) stop step = []) as ->.
    { destruct fuel; [done|]. cbn [range_from].
      destruct (Nat.ltb_spec (i + step) stop); [lia|done]. }
    cbn. lia.
Qed.

Lemma merge_rounds_log o (B : Z) : 2 ≤ B → ∀ fuel r paths fs,
  (length paths ≤ Z.to_nat B ^ fuel)%nat →
  ∃ fs' res, merge_rounds fuel o B r paths fs = Some (fs', res).
Proof.
  intros HB. induction fuel as [|fuel IH]; intros r paths fs Hlen.
  { cbn [merge_rounds]. simpl in Hlen.
    destruct (Nat.leb_spec (length paths) 1); [by eexists _, _|lia]. }
  cbn [merge_rounds]. destruct (Nat.leb_spec (length paths) 1) as [|Hmany];
    [by eexists _, _|].
  rewrite py_range_pos by done.
  destruct (merge_round_total o r (Z.to_nat B) paths
              (range_from (length paths) 0 (length paths) (Z.to_nat B)) [] fs)
    as (fs1 & res & -> & Hnext).
  cbn [mbind option_bind]. destruct res as [next|e]; [|by eexists _, _].
  apply IH. rewrite (Hnext _ eq_refl). cbn [length Nat.add].
  destruct (range_from_length (length paths) (Z.to_nat B) ltac:(lia) 0 (length paths)
              ltac:(lia) ltac:(lia)) as [Hk H1].
  cbn zeta in Hk. rewrite Nat.pow_succ_r' in Hlen.
  set (k := length (range_from _ _ _ _)) in *. nia.
Qed.

End RoundCount.

(** X17.  With a budget [B >= 2], a round of [multi_pass_merge] over [n]
    paths, [n > 1], that raises nothing yields [ceil(n / B)] paths, so
    the list shrinks by a factor of [B] at most and [B] at least up to
    rounding; and [multi_pass_merge] over at most [B ^ k] paths returns
    within [k] rounds. *)
Theorem multi_pass_merge_rounds_logarithmic paths o B (fs : filesystem) k :
  2 ≤ B → (length paths ≤ Z.to_nat B ^ k)%nat →
  (∃ res, multi_pass_merge k paths o B fs = Some res) ∧
  (∀ r fs1 fs2 next, (1 < length paths)%nat →
     merge_round o r (Z.to_nat B) paths
       (range_from (length paths) 0 (length paths) (Z.to_nat B)) [] fs1
       = Some (fs2, Ok next) →
     (Z.to_nat B * (length next - 1) < length paths ≤ Z.to_nat B * length next)%nat).
Proof.
  intros HB Hlen. split.
  - unfold multi_pass_merge.
    destruct (merge_rounds_log o B HB k 0 paths fs Hlen) as (fs' & res & ->).
    cbn [mbind option_bind]. destruct res as [[|p ps]|e]; by eexists.
  - intros r fs1 fs2 next Hn Hround.
    destruct (merge_round_total o r (Z.to_nat B) paths
                (range_from (length paths) 0 (length paths) (Z.to_nat B)) [] fs1)
      as (fs2' & res & Hr & Hnext).
    rewrite Hround in Hr. injection Hr as <- <-. rewrite (Hnext _ eq_refl).
    cbn [length Nat.add].
    destruct (range_from_length (length paths) (Z.to_nat B) ltac:(lia) 0 (length paths)
                ltac:(lia) ltac:(lia)) as [Hk H1].
    cbn zeta in Hk. lia.
Qed.

Lemma multi_pass_merge_rounds_logarithmic_witness :
  (∃ res, multi_pass_merge 2 sample_paths "out.csv" 2 sample_fs = Some res) ∧
  (∀ r fs1 fs2 next, (1 < length sample_paths)%nat →
     merge_round "out.csv" r (Z.to_nat 2) sample_paths
       (range_from (length sample_paths) 0 (length sample_paths) (Z.to_nat 2)) [] fs1
       = Some (fs2, Ok next) →
     (Z.to_nat 2 * (length next - 1) < length sample_paths ≤ Z.to_nat 2 * length next)%nat).
Proof.
  apply (multi_pass_merge_rounds_logarithmic sample_paths "out.csv" 2 sample_fs 2).
  - lia.
  - simpl. lia.
Defined.

(** * A merge that succeeds has read all its inputs *)

Section InputsExist.
Implicit Types (fs : filesystem) (paths next : list string) (o p q : string).

Lemma open_inputs_exist fs : ∀ paths idx st st',
  open_inputs fs idx paths st = Ok st' → ∀ p, p ∈ paths → is_Some (fs !! p).
Proof.
  induction paths as [|path paths IH]; intros idx st st' Hopen p Hp.
  { by apply elem_of_nil in Hp. }
  cbn [open_inputs] in Hopen. destruct (fs !! path) as [text|] eqn:Hpath; [|done].
  apply elem_of_cons in Hp as [->|Hp]; [by eexists|].
  destruct (Py.readline text) as [file_header rest].
  destruct (match header st with Some _ => _ | None => _ end) as [hdr|]; [|done].
  cbn [bind] in Hopen. destruct (Py.readline rest) as [line rest'].
  destruct (Py.truthy line).
  - destruct (parse_key line); [|done]. cbn [bind] in Hopen. by eapply IH.
  - by eapply IH.
Qed.

Lemma merge_batch_exist batch o fs fs' :
  merge_batch batch o fs = Some (fs', None) → ∀ p, p ∈ batch → is_Some (fs !! p).
Proof.
  unfold merge_batch. destruct (open_inputs fs 0 batch _) as [st|e] eqn:Hopen; [|done].
  intros _. by eapply open_inputs_exist.
Qed.

(** After a round that raised nothing, a path of a batch was handed on
    or was read; and the paths handed to the next round are paths of this
    one or intermediate files of this round. *)
Lemma merge_round_exist o r B paths :
  (∀ p k, p ∈ paths → p ≠ merged_path o r k) →
  ∀ starts next fs fs' next',
  merge_round o r B paths starts next fs = Some (fs', Ok next') →
  (∀ i p, i ∈ starts → p ∈ take B (drop i paths) → p ∈ next' ∨ is_Some (fs !! p)) ∧
  (∀ p, p ∈ next' → p ∈ next ∨ p ∈ paths ∨ ∃ k, p = merged_path o r k).
Proof.
  intros Hfresh. induction starts as [|i starts IH]; intros next fs fs' next';
    cbn [merge_round].
  { intros [= <- <-]. split; [by intros ?? ?%elem_of_nil|]. by left. }
  assert (∀ p, p ∈ take B (drop i paths) → p ∈ paths) as Hsub.
  { intros p Hp. by apply (subseteq_drop i), (subseteq_take B). }
  assert (∀ x fs1, (∀ p, p ∈ paths → fs1 !! p = fs !! p) →
    (∀ p, p ∈ take B (drop i paths) → p = x ∨ is_Some (fs !! p)) →
    (x ∈ paths ∨ ∃ k, x = merged_path o r k) →
    merge_round o r B paths starts (next ++ [x]) fs1 = Some (fs', Ok next') →
    (∀ j p, j ∈ i :: starts → p ∈ take B (drop j paths) → p ∈ next' ∨ is_Some (fs !! p)) ∧
    (∀ p, p ∈ next' → p ∈ next ∨ p ∈ paths ∨ ∃ k, p = merged_path o r k)) as Hstep.
  { intros x fs1 Hsame Hhead Hx Hr. destruct (IH _ _ _ _ Hr) as [Hrest Hin].
    destruct (merge_round_frame _ _ _ _ _ _ _ _ _ Hr) as [_ Hpre].
    destruct (Hpre _ eq_refl) as [more ->]. split.
    - intros j p [->|Hj]%elem_of_cons Hp.
      + destruct (Hhead _ Hp) as [->|?]; [|by right]. left.
        rewrite !elem_of_app, list_elem_of_singleton. auto.
      + destruct (Hrest _ _ Hj Hp) as [?|?]; [by left|]. right.
        rewrite <- Hsame; [done|]. by eapply (subseteq_drop j), (subseteq_take B).
    - intros p Hp. destruct (Hin _ Hp) as [Hp'|?]; [|by right].
      apply elem_of_app in Hp' as [?|Hp']; [by left|].
      apply list_elem_of_singleton in Hp' as ->. by right. }
  destruct (take B (drop i paths)) as [|p1 [|p2 batch]] eqn:Hbatch.
  - destruct (merge_batch [] _ fs) as [[fs1 [e|]]|] eqn:Hmb; [done| |done]. cbn.
    apply Hstep; [|by intros ? ?%elem_of_nil|right; by eexists].
    intros p Hp. destruct (merge_batch_frame _ _ _ _ _ Hmb) as [->|[text ->]]; [done|].
    rewrite lookup_insert_ne; [done|]. intros <-. by eapply Hfresh.
  - apply Hstep; [done| |left; apply Hsub; left].
    intros p ->%list_elem_of_singleton. by left.
  - destruct (merge_batch (p1 :: p2 :: batch) _ fs) as [[fs1 [e|]]|] eqn:Hmb;
      [done| |done]. cbn.
    apply Hstep; [| |right; by eexists].
    + intros p Hp. destruct (merge_batch_frame _ _ _ _ _ Hmb) as [->|[text ->]]; [done|].
      rewrite lookup_insert_ne; [done|]. intros <-. by eapply Hfresh.
    + intros p Hp. right. by eapply merge_batch_exist.
Qed.

(** The batches of a round cover the paths. *)
Lemma range_from_covers B paths p : (1 ≤ B)%nat → ∀ fuel i,
  (length paths ≤ fuel + i)%nat → p ∈ drop i paths →
  ∃ j, j ∈ range_from fuel i (length paths) B ∧ p ∈ take B (drop j paths).
Proof.
  intros HB. induction fuel as [|fuel IH]; intros i Hfuel Hp.
  { rewrite drop_ge in Hp by lia. by apply elem_of_nil in Hp. }
  cbn [range_from]. destruct (Nat.ltb_spec i (length paths)) as [Hlt|Hge].
  - rewrite <- (take_drop B (drop i paths)), drop_drop in Hp.
    apply elem_of_app in Hp as [Hp|Hp].
    + exists i. split; [left|done].
    + destruct (IH (i + B)%nat ltac:(lia) Hp) as (j & Hj & Hpj).
      exists j. split; [by right|done].
  - rewrite drop_ge in Hp by lia. by apply elem_of_nil in Hp.
Qed.

Lemma merge_rounds_exist o B : 2 ≤ B → ∀ fuel r paths fs fs' q,
  (∀ p r' k, p ∈ paths → (r ≤ r')%nat → p ≠ merged_path o r' k) →
  merge_rounds fuel o B r paths fs = Some (fs', Ok [q]) → is_Some (fs' !! q) →
  ∀ p, p ∈ paths → is_Some (fs !! p).
Proof.
  intros HB. induction fuel as [|fuel IH]; intros r paths fs fs' q Hfresh; cbn [merge_rounds];
    destruct (Nat.leb_spec (length paths) 1) as [Hle|Hgt];
    try (intros [= <- ->] Hq p Hp; apply list_elem_of_singleton in Hp as ->; done).
  rewrite py_range_pos by done.
  destruct (merge_round _ _ _ _ _ _ _) as [[fs1 [next|e]]|] eqn:Hr; [|done..].
  cbn. intros Hrs Hq p Hp.
  destruct (merge_round_exist o r (Z.to_nat B) paths ltac:(intros; by apply Hfresh)
              _ _ _ _ _ Hr) as [Hcover Hnext].
  destruct (merge_round_frame _ _ _ _ _ _ _ _ _ Hr) as [Hframe _].
  destruct (range_from_covers (Z.to_nat B) paths p ltac:(lia) (length paths) 0 ltac:(lia))
    as (j & Hj & Hpj); [by rewrite drop_0|].
  destruct (Hcover _ _ Hj Hpj) as [Hin|?]; [|done].
  rewrite <- Hframe by (intros k; by apply Hfresh).
  eapply (IH (S r) next fs1 fs' q); [|done|done|done].
  intros p' r' k Hp' Hr'. destruct (Hnext _ Hp') as [?%elem_of_nil|[?|[k' ->]]]; [done| |].
  - apply Hfresh; [done|lia].
  - intros [? _]%merged_path_inj. lia.
Qed.

Lemma multi_pass_merge_exist fuel paths o B fs fs' :
  2 ≤ B → (length paths ≤ fuel)%nat →
  (∀ p r k, p ∈ paths → p ≠ merged_path o r k) →
  multi_pass_merge fuel paths o B fs = Some (fs', None) →
  ∀ p, p ∈ paths → is_Some (fs !! p).
Proof.
  intros HB Hfuel Hfresh. unfold multi_pass_merge.
  destruct (merge_rounds_total o B fuel HB 0 paths fs Hfuel) as (fs1 & res & Hrs & Hres).
  rewrite Hrs. cbn. destruct res as [ps|e]; [|done].
  destruct (Hres _ eq_refl) as [Hlen Hne].
  destruct ps as [|q [|??]]; [|clear Hne|simpl in Hlen; lia].
  - intros _ p Hp. destruct Hne; [|done]. intros ->. by apply elem_of_nil in Hp.
  - unfold shutil_move. destruct (fs1 !! q) eqn:Hq; [|done]. intros _.
    eapply merge_rounds_exist; [done| |exact Hrs|by rewrite Hq].
    intros p r' k Hp _. by apply Hfresh.
Qed.

End InputsExist.

(** * From the sources to the merged file *)

Section Run.
Context (E : os_env) (a : args).
Hypothesis Hplain : plain_rows E a.
Implicit Types (fs : filesystem) (f : family).

Lemma write_events_frame body archive_path inner_path out_path fs fs' r x :
  write_events (with_csv_writer E) body archive_path inner_path out_path fs = (fs', r) →
  x ≠ out_path → fs' !! x = fs !! x.
Proof.
  unfold write_events.
  destruct (stream_csv_rows _ archive_path inner_path) as [rows failure].
  destruct (write_rows _ body rows _) as [[text v] [e|]].
  { intros [= <- <-] Hx. by rewrite lookup_insert_ne. }
  destruct failure as [e|].
  { intros [= <- <-] Hx. by rewrite lookup_insert_ne. }
  destruct (row_count v =? 0)%nat; intros [= <- <-] Hx.
  - by rewrite lookup_delete_ne, lookup_insert_ne.
  - by rewrite lookup_insert_ne.
Qed.

Lemma write_events_none_absent f archive_path inner_path out_path only_channel fs fs' :
  write_family_events (with_csv_writer E) f archive_path inner_path out_path
    only_channel fs = (fs', Ok None) →
  fs' !! out_path = None.
Proof.
  rewrite write_family_events_unfold. unfold write_events.
  destruct (stream_csv_rows _ archive_path inner_path) as [rows failure].
  destruct (write_rows _ _ rows _) as [[text v] [e|]] eqn:Hw; [done|].
  destruct failure as [e|]; [done|].
  destruct (Nat.eqb_spec (row_count v) 0) as [Hz|Hnz].
  { intros [= <-]. by rewrite lookup_delete_eq. }
  intros [= _ Hc]. exfalso. apply write_rows_written in Hw as (_ & Hcount & Hall & _).
  cbn [row_count] in Hcount.
  destruct (written_rows _ rows _) as [|cells ws]; [simpl in Hcount; lia|].
  apply Forall_cons in Hall as [(_ & k & _ & Hk & _) _]. congruence.
Qed.

Lemma write_keeps_sorted f inner_path out_path fs fs' r x :
  write_family_events (with_csv_writer E) f (archive_of a f) inner_path out_path
    (channel a) fs = (fs', Ok r) →
  sorted_event_file_at csv_header fs x ∨ x = out_path → sorted_event_file_at csv_header fs' x.
Proof.
  intros Hw Hx. pose proof Hw as Hw'. rewrite write_family_events_unfold in Hw'.
  pose proof (λ y, write_events_frame _ _ _ _ _ _ _ y Hw') as Hframe.
  destruct (decide (x = out_path)) as [->|Hne].
  - destruct r as [c|].
    + destruct (csv_output_valid _ _ _ _ _ _ _ _ _ Hw (Hplain f inner_path))
        as (Hev & Hsorted & _).
      intros text Htext. unfold event_files, sources_sorted, source_lines in Hev, Hsorted.
      cbn [forallb fmap list_fmap] in Hev, Hsorted. rewrite Htext in Hev, Hsorted.
      cbn [from_option] in Hsorted. rewrite !andb_true_r in Hev, Hsorted.
      apply andb_true_iff in Hev as [? ?%bool_decide_eq_true]. done.
    + intros text Htext. by rewrite (write_events_none_absent _ _ _ _ _ _ _ Hw) in Htext.
  - destruct Hx as [Hx|?]; [|done]. intros text Htext. apply Hx. by rewrite <- Hframe.
Qed.

Lemma build_loop_sorted f out_dir limit regex protected :
  ∀ inner_paths event_paths count fs fs' result,
  build_loop (with_csv_writer E) (archive_of a f) (kind_name f) out_dir limit regex
    (channel a) inner_paths event_paths count fs = (fs', Ok result) →
  Forall (sorted_event_file_at csv_header fs) (protected ++ event_paths.*2) →
  Forall (sorted_event_file_at csv_header fs') (protected ++ result.*2).
Proof.
  induction inner_paths as [|inner_path more IH]; intros event_paths count fs fs' result;
    cbn [build_loop].
  { by intros [= <- <-]. }
  destruct (match regex with Some _ => _ | None => _ end); [by apply IH|].
  set (out_path := event_path _ out_dir (kind_name f) _).
  assert ((if String.eqb (kind_name f) "order"
           then write_order_events (with_csv_writer E) (archive_of a f) inner_path out_path
                  (channel a) fs
           else write_tick_events (with_csv_writer E) (archive_of a f) inner_path out_path
                  (channel a) fs)
          = write_family_events (with_csv_writer E) f (archive_of a f) inner_path out_path
              (channel a) fs) as -> by (by destruct f).
  destruct (write_family_events _ f _ inner_path out_path _ fs) as [fs1 [r|e]] eqn:Hw;
    [|done].
  assert (∀ x, sorted_event_file_at csv_header fs x ∨ x = out_path →
               sorted_event_file_at csv_header fs1 x)
    as Hkeep by (intros x; by eapply write_keeps_sorted).
  destruct r as [c|].
  - assert (Forall (sorted_event_file_at csv_header fs) (protected ++ event_paths.*2) →
            Forall (sorted_event_file_at csv_header fs1)
              (protected ++ (event_paths ++ [(c, out_path)]).*2)) as Hnew.
    { intros Hall. rewrite fmap_app, app_assoc. apply Forall_app. split.
      - eapply Forall_impl; [exact Hall|]. intros x Hx. apply Hkeep. by left.
      - constructor; [|constructor]. apply Hkeep. by right. }
    destruct (match limit with Some _ => _ | None => _ end).
    + intros [= <- <-]. done.
    + intros Hb Hall. eapply IH; [exact Hb|]. by apply Hnew.
  - intros Hb Hall. eapply IH; [exact Hb|].
    eapply Forall_impl; [exact Hall|]. intros x Hx. apply Hkeep. by left.
Qed.

Lemma build_event_files_sorted f out_dir limit regex protected fs fs' result :
  build_event_files (with_csv_writer E) (archive_of a f) (kind_name f) out_dir limit regex
    (channel a) fs = (fs', Ok result) →
  Forall (sorted_event_file_at csv_header fs) protected →
  Forall (sorted_event_file_at csv_header fs') (protected ++ result.*2).
Proof.
  unfold build_event_files. destruct (negb _); [done|].
  destruct (list_csv_paths _ _) as [inner_paths|e]; [|done].
  intros Hb Hall. eapply build_loop_sorted; [exact Hb|]. by rewrite app_nil_r.
Qed.

Lemma sorted_files_hold fs paths :
  Forall (sorted_event_file_at csv_header fs) paths → (∀ p, p ∈ paths → is_Some (fs !! p)) →
  event_files fs csv_header paths = true ∧ sources_sorted fs paths = true.
Proof.
  unfold event_files, sources_sorted, source_lines.
  induction 1 as [|p paths Hp _ IH]; intros Hex; [done|].
  destruct (Hex p) as [text Htext]; [left|].
  destruct (Hp _ Htext) as (Hev & Hh & Hs).
  destruct IH as [IH1 IH2]; [intros; apply Hex; by right|].
  cbn [forallb fmap list_fmap]. rewrite Htext. cbn [from_option].
  rewrite Hev, Hs, IH1, IH2, bool_decide_eq_true_2 by done. done.
Qed.

End Run.

(** X18.  A run of [main] with a single output file, seen as a whole:
    when the writer is that of the [csv] module, no written cell holds a
    line break, the output path is neither an event file nor named like
    an intermediate file of the merge, and the [try] block ends without
    an exception, then the output file starts with the header row, its
    data lines are in [(channel, sequence)] order, and they are exactly
    the data lines of the event files the normalizers listed, each one
    once. *)
Theorem single_output_run_is_sorted E a temp_root (fs fs1 fs2 fs' : filesystem)
    order_paths tick_paths o :
  plain_rows E a →
  build_event_files (with_csv_writer E) (order_archive a) "order"
    (path_join E temp_root "order_events") (limit_files a) (symbol_regex a) (channel a) fs
    = (fs1, Ok order_paths) →
  build_event_files (with_csv_writer E) (tick_archive a) "tick"
    (path_join E temp_root "tick_events") (limit_files a) (symbol_regex a) (channel a) fs1
    = (fs2, Ok tick_paths) →
  out a = Some o → given (out_dir a) = false →
  fresh_names o (order_paths ++ tick_paths).*2 = true →
  main_body (with_csv_writer E) a temp_root fs = Some (fs', None) →
  ∃ text, fs' !! o = Some text ∧
    header_line text = Csv.writerow (CStr <$> EVENT_HEADER) ∧
    in_key_order (data_lines text) ∧
    data_lines text ≡ₚ concat (source_lines fs2 (order_paths ++ tick_paths).*2).
Proof.
  intros Hplain Horder Htick Hout Hdir Hfresh. unfold main_body.
  cbn [with_csv_writer path_join]. rewrite Horder, Htick, Hout, Hdir.
  destruct (order_paths ++ tick_paths) as [|x xs] eqn:Hall; [done|]. rewrite <- Hall in *.
  cbn [andb negb given default].
  destruct (Py.truthy o); cbn [andb negb]; [|done].
  set (paths := (order_paths ++ tick_paths).*2) in *.
  replace (snd <$> order_paths ++ tick_paths) with paths by done.
  replace (length (order_paths ++ tick_paths)) with (length paths)
    by (unfold paths; by rewrite length_fmap).
  intros Hmerge.
  assert (Forall (sorted_event_file_at (Csv.writerow (CStr <$> EVENT_HEADER)) fs2) paths)
    as Hsorted.
  { unfold paths. rewrite fmap_app.
    apply (build_event_files_sorted E a Hplain TickStream _ _ _ _ _ _ _ Htick).
    rewrite <- (app_nil_l (order_paths.*2)).
    by apply (build_event_files_sorted E a Hplain OrderStream _ _ _ [] _ _ _ Horder). }
  assert (∀ p, p ∈ paths → is_Some (fs2 !! p)) as Hexist.
  { eapply multi_pass_merge_exist; [| | |exact Hmerge]; [lia|done|].
    by apply fresh_names_fresh. }
  destruct (sorted_files_hold _ _ Hsorted Hexist) as [Hev Hss]. unfold csv_header in Hev.
  assert (paths ≠ []) as Hne.
  { unfold paths. rewrite Hall. done. }
  destruct (merges_written fs2 _ paths o Hne Hev) as [_ Hmp].
  destruct (Hmp (Z.max 2 (max_open a)) (length paths) ltac:(lia) ltac:(done) Hfresh)
    as (fs'' & d & Hmp' & Hfile & Hdl & Hd & Hperm & Hm).
  unfold id in Hmerge. rewrite Hmerge in Hmp'. injection Hmp' as <-.
  exists (Csv.writerow (CStr <$> EVENT_HEADER) +:+ join d).
  split_and!; [done| |rewrite Hdl|by rewrite Hdl].
  - apply header_line_written. by vm_compute.
  - apply sorted_in_key_order; [done|]. apply Hm. by apply sources_sorted_strongly.
Qed.

Lemma single_output_run_is_sorted_witness :
  ∃ text,
    from_option fst ∅
      (main_body (with_csv_writer (sample_env rows_order_ok rows_tick_ok))
         (sample_args (Some "out.csv") None) "work" ∅) !! "out.csv" = Some text ∧
    header_line text = Csv.writerow (CStr <$> EVENT_HEADER) ∧
    in_key_order (data_lines text) ∧
    data_lines text ≡ₚ
      concat (source_lines
        (build_event_files (with_csv_writer (sample_env rows_order_ok rows_tick_ok))
           "tick.7z" "tick" "work/tick_events" None None None
           (build_event_files (with_csv_writer (sample_env rows_order_ok rows_tick_ok))
              "order.7z" "order" "work/order_events" None None None ∅).1).1
        ([(1, "work/order_events/order_000001.events.csv")] ++
         [(1, "work/tick_events/tick_000001.events.csv")]).*2).
Proof.
  apply (single_output_run_is_sorted (sample_env rows_order_ok rows_tick_ok)
           (sample_args (Some "out.csv") None) "work" ∅
           (build_event_files (with_csv_writer (sample_env rows_order_ok rows_tick_ok))
              "order.7z" "order" "work/order_events" None None None ∅).1).
  - intros f inner_path. destruct f; vm_compute; repeat constructor.
  - vm_compute. reflexivity.
  - vm_compute. reflexivity.
  - reflexivity.
  - reflexivity.
  - vm_compute. reflexivity.
  - vm_compute. reflexivity.
Defined.
